(** * KV cache manager: slots, snapshots, auto-save and preload

    A shallow embedding of the SillyTavern llama.cpp KV cache manager
    extension: the snapshot naming scheme and file rotation
    (core/file-manager.js, utils/utils.js), the cache operations
    (core/cache-operations.js), the generation interceptor
    (interceptors/generation-interceptor.js), the message-driven auto-save
    (core/auto-save.js) and the cancellable preload batch (ui/preload.js);
    then the characters of a group chat (utils/character-utils.js), the
    hidden status message (ui/hidden-message.js) and the URL and token
    handling of the two API clients (api/llama-api.js,
    api/file-plugin-api.js).

    JavaScript strings are modelled as [string]: sequences of code units,
    here the 8-bit ones.  The line terminators U+2028 and U+2029 are
    therefore outside the model; LF and CR are in it. *)

From Stdlib Require Import Ascii String List Arith Bool Lia DecimalString.
From stdpp Require Import gmap strings list sorting.

(** ** JavaScript strings *)

Module JsString.

Definition codeUnit (c : ascii) : nat := nat_of_ascii c.

Definition between (lo hi : nat) (c : ascii) : bool :=
  (lo <=? codeUnit c) && (codeUnit c <=? hi).

(** The class [\d]. *)
Definition isDigit (c : ascii) : bool := between 48 57 c.

(** The class [[a-zA-Z0-9_-]]. *)
Definition isSafeChar (c : ascii) : bool :=
  between 97 122 c || between 65 90 c || between 48 57 c
  || Ascii.eqb c "_"%char || Ascii.eqb c "-"%char.

(** What [.] refuses: the line terminators. *)
Definition isLineTerminator (c : ascii) : bool :=
  Ascii.eqb c "010"%char || Ascii.eqb c "013"%char.

Fixpoint mapChars (f : ascii -> ascii) (s : string) : string :=
  match s with
  | EmptyString => EmptyString
  | String c s' => String (f c) (mapChars f s')
  end.

Fixpoint allChars (p : ascii -> bool) (s : string) : bool :=
  match s with
  | EmptyString => true
  | String c s' => p c && allChars p s'
  end.

Definition isEmpty (s : string) : bool :=
  match s with EmptyString => true | _ => false end.

(** [s.startsWith(p)] *)
Fixpoint startsWith (p s : string) : bool :=
  match p with
  | EmptyString => true
  | String a p' =>
      match s with
      | EmptyString => false
      | String b s' => Ascii.eqb a b && startsWith p' s'
      end
  end.

(** [s.includes(p)]: [p] starts at some position of [s]. *)
Fixpoint includes (p s : string) : bool :=
  startsWith p s
  || match s with
     | EmptyString => false
     | String _ s' => includes p s'
     end.

Fixpoint dropChars (n : nat) (s : string) : string :=
  match n with
  | O => s
  | S n' => match s with EmptyString => EmptyString | String _ s' => dropChars n' s' end
  end.

Fixpoint takeChars (n : nat) (s : string) : string :=
  match n with
  | O => EmptyString
  | S n' => match s with EmptyString => EmptyString | String c s' => String c (takeChars n' s') end
  end.

(** [s.endsWith(p)] *)
Definition endsWith (p s : string) : bool :=
  (String.length p <=? String.length s)
  && String.eqb (dropChars (String.length s - String.length p) s) p.

(** [s.slice(0, -n)]: [-0] is [0], so [n = 0] gives the empty string. *)
Definition sliceOffEnd (s : string) (n : nat) : string :=
  match n with
  | O => EmptyString
  | S _ => takeChars (String.length s - n) s
  end.

(** A regular expression that ends in [$] and is searched for with
    [String.prototype.match]: the engine tries the start positions from
    left to right, and at each one the expression has to consume the whole
    rest of the input.  [here rest] says whether it does, and gives
    capture group 1.  The result is the pair of [m[0]] and [m[1]]. *)
Fixpoint matchToEnd (here : string -> option string) (s : string)
  : option (string * string) :=
  match here s with
  | Some g => Some (s, g)
  | None =>
      match s with
      | EmptyString => None
      | String _ s' => matchToEnd here s'
      end
  end.

(** [/lit(.+)$/] at one position: the literal, then at least one code
    unit, none of them a line terminator, up to the end. *)
Definition literalThenRest (lit : string) (s : string) : option string :=
  if startsWith lit s then
    let rest := dropChars (String.length lit) s in
    if negb (isEmpty rest) && allChars (fun c => negb (isLineTerminator c)) rest
    then Some rest else None
  else None.

(** [/_(\d{14})$/] at one position. *)
Definition underscoreThen14Digits (s : string) : option string :=
  match s with
  | String c rest =>
      if Ascii.eqb c "_"%char && (String.length rest =? 14) && allChars isDigit rest
      then Some rest else None
  | EmptyString => None
  end.

(** [s.replace(/\.bin$/, '')]: the only position at which [\.bin$] can
    match is the one that leaves exactly [".bin"]. *)
Fixpoint replaceBinExt (s : string) : string :=
  if String.eqb s ".bin" then EmptyString
  else match s with
       | EmptyString => EmptyString
       | String c s' => String c (replaceBinExt s')
       end.

End JsString.

(** ** utils/utils.js *)

Module Utils.
Import JsString.

(** [normalizeString]: a falsy string is the empty one (the model has no
    numbers here); every code unit outside [[a-zA-Z0-9_-]] becomes [_]. *)
Definition normalizeString (str : string) (defaultValue : string) : string :=
  if isEmpty str then defaultValue
  else mapChars (fun c => if isSafeChar c then c else "_"%char) str.

Definition normalizeChatId (chatId : string) : string :=
  normalizeString chatId "unknown".

Definition normalizeCharacterName (characterName : string) : string :=
  normalizeString characterName "".

(** [a.localeCompare(b)] on the strings the program sorts: timestamps,
    digit strings of one length, which every collation orders as their
    code units do. *)
Definition localeCompare (a b : string) : comparison := String.compare a b.

(** The comparator of [sortByTimestamp], on the two values
    [a.parsed?.timestamp || a.timestamp] (absent or empty: falsy). *)
Definition compareTimestamps (descending : bool) (timestampA timestampB : option string)
  : comparison :=
  match timestampA, timestampB with
  | Some a, Some b =>
      if isEmpty a || isEmpty b then Eq
      else if descending then localeCompare b a else localeCompare a b
  | _, _ => Eq
  end.

Section Sorting.
Context {A : Type} (timestampOf : A -> option string).

(** [Array.prototype.sort] is stable: an element stays in front of the
    later ones it does not compare greater than.  The program sorts
    items that all carry a timestamp, on which the comparator is a
    total order. *)
Fixpoint insertByTimestamp (descending : bool) (x : A) (l : list A) : list A :=
  match l with
  | [] => [x]
  | y :: l' =>
      match compareTimestamps descending (timestampOf x) (timestampOf y) with
      | Gt => y :: insertByTimestamp descending x l'
      | _ => x :: l
      end
  end.

Definition sortByTimestamp (items : list A) (descending : bool) : list A :=
  foldr (insertByTimestamp descending) [] items.
End Sorting.

End Utils.

(** ** core/file-manager.js: the naming scheme *)

Module FileNames.
Import JsString Utils.

Record ParsedName := {
  p_chatId : string;
  p_timestamp : string;
  p_tag : option string;
  p_characterName : string;
}.

(** [if (tag)]: [null] and the empty string are both falsy. *)
Definition truthyTag (tag : option string) : option string :=
  match tag with
  | Some t => if isEmpty t then None else Some t
  | None => None
  end.

Definition generateSaveFilename
    (chatId timestamp characterName : string) (tag : option string) : string :=
  let safeChatId := normalizeChatId chatId in
  let safeCharacterName := characterName in
  match truthyTag tag with
  | Some t =>
      let safeTag := normalizeString t "" in
      safeChatId +:+ "_" +:+ timestamp +:+ "_tag_" +:+ safeTag
        +:+ "_character_" +:+ safeCharacterName +:+ ".bin"
  | None =>
      safeChatId +:+ "_" +:+ timestamp
        +:+ "_character_" +:+ safeCharacterName +:+ ".bin"
  end.

Definition parseSaveFilename (filename : string) : option ParsedName :=
  let nameWithoutExt := replaceBinExt filename in
  match matchToEnd (literalThenRest "_character_") nameWithoutExt with
  | None => None
  | Some (characterMatch0, characterMatch1) =>
      let characterName := characterMatch1 in
      let beforeSuffix := sliceOffEnd nameWithoutExt (String.length characterMatch0) in
      let '(tag, beforeSuffix) :=
        match matchToEnd (literalThenRest "_tag_") beforeSuffix with
        | Some (tagMatch0, tagMatch1) =>
            (Some tagMatch1, sliceOffEnd beforeSuffix (String.length tagMatch0))
        | None => (None, beforeSuffix)
        end in
      match matchToEnd underscoreThen14Digits beforeSuffix with
      | None => None
      | Some (timestampMatch0, timestampMatch1) =>
          Some {| p_chatId := sliceOffEnd beforeSuffix (String.length timestampMatch0);
                  p_timestamp := timestampMatch1;
                  p_tag := tag;
                  p_characterName := characterName |}
      end
  end.

End FileNames.

(** ** The extension's state and its environment *)

Module State.

(** settings.js is not among the sources: the user settings the code
    reads, and the constants it imports ([MIN_USAGE_FOR_SAVE], and
    [MIN_FILE_SIZE_MB] as a number of bytes), are fields here. *)
Record Settings := {
  enabled : bool;
  saveInterval : nat;
  maxFiles : nat;
  showNotifications : bool;
  preloadTimeout : nat;
  MIN_USAGE_FOR_SAVE : nat;
  MIN_FILE_SIZE_BYTES : nat;
}.

(** One entry of [slotsState]. *)
Record Slot := {
  characterName : option string;
  usage : nat;
  cacheLoaded : bool;
  generationType : option string;
}.

(** One entry of the file plugin's listing. *)
Record FileEntry := {
  name : string;
  size : nat;
  isDirectory : bool;
}.

(** The requests that leave the extension, and the user's click on the
    cancel button of a preload. *)
Inductive Event :=
| EvSaveSlot (slotId : nat) (filename : string)
| EvRestoreSlot (slotId : nat) (filename : string)
| EvListFiles
| EvDeleteFile (filename : string)
| EvGenerate (forceChId : nat)
| EvStopGeneration
| EvCancelClick.

(** What the llama.cpp server, the file plugin and the clock answer; each
    answer may depend on everything requested so far. *)
Record Backend := {
  (** [POST slots/id?action=save]: [None] when the request fails, the
      size of the file written otherwise *)
  saveSlotResponse : list Event -> nat -> string -> option nat;
  (** [POST slots/id?action=restore] *)
  restoreSlotResponse : list Event -> nat -> string -> bool;
  (** [GET files]: [false] when the request fails or carries no data *)
  listFilesResponse : list Event -> bool;
  (** [DELETE files/name] *)
  deleteFileResponse : list Event -> string -> bool;
  (** [formatTimestamp()] of the current date *)
  clock : list Event -> string;
}.

Record World := {
  slotsState : list Slot;
  disk : list FileEntry;
  currentChatId : string;
  (** the name of [context.characters[context.characterId]], if there is one *)
  contextCharacter : option string;
  (** [context.groupId] is neither [null] nor [undefined] *)
  inGroupChat : bool;
  settings : Settings;
  trace : list Event;
  (** module state of generation-interceptor.js *)
  currentSlot : option nat;
  isPreloading : bool;
  currentPreloadCharacter : option string;
}.

Definition setSlotsState (slots : list Slot) (w : World) : World :=
  {| slotsState := slots; disk := disk w; currentChatId := currentChatId w;
     contextCharacter := contextCharacter w; inGroupChat := inGroupChat w;
     settings := settings w; trace := trace w; currentSlot := currentSlot w;
     isPreloading := isPreloading w;
     currentPreloadCharacter := currentPreloadCharacter w |}.

Definition setDisk (files : list FileEntry) (w : World) : World :=
  {| slotsState := slotsState w; disk := files; currentChatId := currentChatId w;
     contextCharacter := contextCharacter w; inGroupChat := inGroupChat w;
     settings := settings w; trace := trace w; currentSlot := currentSlot w;
     isPreloading := isPreloading w;
     currentPreloadCharacter := currentPreloadCharacter w |}.

Definition logEvent (e : Event) (w : World) : World :=
  {| slotsState := slotsState w; disk := disk w; currentChatId := currentChatId w;
     contextCharacter := contextCharacter w; inGroupChat := inGroupChat w;
     settings := settings w; trace := trace w ++ [e]; currentSlot := currentSlot w;
     isPreloading := isPreloading w;
     currentPreloadCharacter := currentPreloadCharacter w |}.

Definition setCurrentSlot (slot : option nat) (w : World) : World :=
  {| slotsState := slotsState w; disk := disk w; currentChatId := currentChatId w;
     contextCharacter := contextCharacter w; inGroupChat := inGroupChat w;
     settings := settings w; trace := trace w; currentSlot := slot;
     isPreloading := isPreloading w;
     currentPreloadCharacter := currentPreloadCharacter w |}.

Definition setPreloadFlags (preloading : bool) (character : option string) (w : World)
  : World :=
  {| slotsState := slotsState w; disk := disk w; currentChatId := currentChatId w;
     contextCharacter := contextCharacter w; inGroupChat := inGroupChat w;
     settings := settings w; trace := trace w; currentSlot := currentSlot w;
     isPreloading := preloading;
     currentPreloadCharacter := character |}.

(** [getNormalizedChatId()] *)
Definition getNormalizedChatId (w : World) : string :=
  Utils.normalizeChatId (currentChatId w).

(** A small state monad over the world, for the code that awaits one
    request after the other. *)
Definition M (A : Type) : Type := World -> A * World.

#[export] Instance M_ret : MRet M := fun A (a : A) w => (a, w).
#[export] Instance M_bind : MBind M :=
  fun A B (k : A -> M B) (m : M A) w => let '(a, w') := m w in k a w'.

Definition get : M World := fun w => (w, w).
Definition modify (f : World -> World) : M unit := fun w => (tt, f w).
Definition emit (e : Event) : M unit := modify (logEvent e).

(** [for (const x of xs) await body(x)] *)
Fixpoint forEach {A} (body : A -> M unit) (xs : list A) : M unit :=
  match xs with
  | [] => mret tt
  | x :: xs' => body x;; forEach body xs'
  end.

End State.

(** ** core/file-manager.js: listing, rotation, lookup *)

Module FileManager.
Import JsString Utils FileNames State.

(** What [getFilesList] returns for a file: [{name, size}]. *)
Record ListedFile := { lf_name : string; lf_size : nat }.

(** What [parseFilesList] (utils/utils.js) adds: [{name, size, parsed}]. *)
Record ParsedFile := {
  pf_name : string;
  pf_size : nat;
  parsed : option ParsedName;
}.

(** The entries [getLastCacheForCharacter] collects. *)
Record CacheCandidate := {
  cc_filename : string;
  cc_timestamp : string;
  cc_chatId : string;
}.

Definition isBinFile (f : FileEntry) : bool :=
  endsWith ".bin" (name f) && negb (isDirectory f).

Definition parseFilesList (files : list ListedFile)
    (parseSaveFilename : string -> option ParsedName) : list ParsedFile :=
  List.map (fun file =>
              {| pf_name := lf_name file; pf_size := lf_size file;
                 parsed := parseSaveFilename (lf_name file) |}) files.

(** [a.parsed?.timestamp || a.timestamp] on a parsed file, which has no
    [timestamp] of its own. *)
Definition parsedTimestamp (file : ParsedFile) : option string :=
  match parsed file with
  | Some p => Some (p_timestamp p)
  | None => None
  end.

Definition candidateTimestamp (c : CacheCandidate) : option string :=
  Some (cc_timestamp c).

(** The filter [rotateCharacterFiles] hands to [rotateFiles]. *)
Definition isAutoSaveOf (chatId normalizedName : string) (file : ParsedFile) : bool :=
  match parsed file with
  | None => false
  | Some p =>
      String.eqb (p_chatId p) chatId
      && String.eqb (normalizeCharacterName (p_characterName p)) normalizedName
      && match p_tag p with None => true | Some t => isEmpty t end
  end.

(** One turn of the loop of [getLastCacheForCharacter]. *)
Definition collectCharacterFile
    (characterName normalizedCharacterName : string)
    (currentChatOnly : bool) (currentChatId : option string)
    (characterFiles : list CacheCandidate) (file : ParsedFile) : list CacheCandidate :=
  match parsed file with
  | None => characterFiles
  | Some p =>
      let candidate := {| cc_filename := pf_name file;
                          cc_timestamp := p_timestamp p;
                          cc_chatId := p_chatId p |} in
      if currentChatOnly
         && match currentChatId with
            | Some c => negb (String.eqb (p_chatId p) c)
            | None => true
            end
      then characterFiles
      else if negb (isEmpty (p_characterName p))
              && String.eqb (normalizeCharacterName (p_characterName p))
                            normalizedCharacterName
      then characterFiles ++ [candidate]
      else if includes normalizedCharacterName (pf_name file)
              || includes characterName (pf_name file)
      then
        if existsb (fun f => String.eqb (cc_filename f) (pf_name file)) characterFiles
        then characterFiles
        else characterFiles ++ [candidate]
      else characterFiles
  end.

Section WithBackend.
Context (env : Backend).

Definition getFilesList : M (list ListedFile) :=
  w ← get;
  emit EvListFiles;;
  if listFilesResponse env (trace w) then
    mret (List.map (fun f => {| lf_name := name f; lf_size := size f |})
                   (List.filter isBinFile (disk w)))
  else mret [].

Definition deleteFile (filename : string) : M bool :=
  w ← get;
  emit (EvDeleteFile filename);;
  if deleteFileResponse env (trace w) filename then
    modify (fun w' =>
              setDisk (List.filter (fun f => negb (String.eqb (name f) filename))
                                   (disk w')) w');;
    mret true
  else mret false.

Definition rotateFiles (filterFn : ParsedFile -> bool) : M unit :=
  w ← get;
  let maxFiles := match maxFiles (settings w) with O => 10 | S _ as n => n end in
  filesList ← getFilesList;
  let filteredFiles :=
    List.filter filterFn (parseFilesList filesList parseSaveFilename) in
  let filteredFiles := sortByTimestamp parsedTimestamp filteredFiles true in
  if maxFiles <? length filteredFiles then
    let filesToDelete := skipn maxFiles filteredFiles in
    forEach (fun file => _ ← deleteFile (pf_name file); mret tt) filesToDelete
  else mret tt.

Definition rotateCharacterFiles (characterName : string) : M unit :=
  if isEmpty characterName then mret tt
  else
    w ← get;
    let normalizedName := normalizeCharacterName characterName in
    let chatId := getNormalizedChatId w in
    rotateFiles (isAutoSaveOf chatId normalizedName).

Definition getLastCacheForCharacter (characterName : string) (currentChatOnly : bool)
  : M (option string) :=
  filesList ← getFilesList;
  match filesList with
  | [] => mret None
  | _ =>
      w ← get;
      let normalizedCharacterName := normalizeCharacterName characterName in
      let currentChatId :=
        if currentChatOnly then Some (getNormalizedChatId w) else None in
      let parsedFiles := parseFilesList filesList parseSaveFilename in
      let characterFiles :=
        fold_left (collectCharacterFile characterName normalizedCharacterName
                                        currentChatOnly currentChatId)
                  parsedFiles [] in
      match sortByTimestamp candidateTimestamp characterFiles true with
      | [] => mret None
      | lastFile :: _ => mret (Some (cc_filename lastFile))
      end
  end.

Definition validateCacheFile (filename : string) : M bool :=
  filesList ← getFilesList;
  w ← get;
  match List.find (fun file => String.eqb (lf_name file) filename) filesList with
  | Some savedFile =>
      if lf_size savedFile <? MIN_FILE_SIZE_BYTES (settings w) then
        _ ← deleteFile filename; mret false
      else mret true
  | None => mret true
  end.

End WithBackend.
End FileManager.

(** ** core/slot-manager.js: the registry *)

Module SlotManager.
Import State.

Definition isResident (entity : string) (slot : Slot) : bool :=
  match characterName slot with
  | Some n => String.eqb n entity
  | None => false
  end.

Fixpoint findSlot (p : Slot -> bool) (slots : list Slot) : option nat :=
  match slots with
  | [] => None
  | s :: rest => if p s then Some 0 else S <$> findSlot p rest
  end.

(** Modelled from the spec: core/slot-manager.js is not among the sources.
    [findSlotOf]: "linear lookup by resident equality; fails silently
    (returns not found) if entity holds no slot". *)
Definition findCharacterSlotIndex (entity : string) (slots : list Slot) : option nat :=
  findSlot (isResident entity) slots.

(** Modelled from the spec: the mutators of the registry, "direct mutators;
    no validation beyond index bounds". *)
Definition resetSlotUsage (slotIndex : nat) (slots : list Slot) : list Slot :=
  alter (fun s => {| characterName := characterName s; usage := 0;
                     cacheLoaded := cacheLoaded s;
                     generationType := generationType s |}) slotIndex slots.

(** Modelled from the spec: the second mutator of the registry, which sets
    the flag of one slot and leaves the others, and does nothing out of
    bounds. *)
Definition setSlotCacheLoaded (slotIndex : nat) (loaded : bool) (slots : list Slot)
  : list Slot :=
  alter (fun s => {| characterName := characterName s; usage := usage s;
                     cacheLoaded := loaded;
                     generationType := generationType s |}) slotIndex slots.

(** [slotsState[i].generationType = type], which the interceptor does
    itself; on a missing entry the assignment throws and the interceptor
    swallows it: nothing changes. *)
Definition setGenerationType (slotIndex : nat) (type : string) (slots : list Slot)
  : list Slot :=
  alter (fun s => {| characterName := characterName s; usage := usage s;
                     cacheLoaded := cacheLoaded s;
                     generationType := Some type |}) slotIndex slots.

End SlotManager.

(** ** core/cache-operations.js *)

Module CacheOperations.
Import JsString Utils FileNames State FileManager SlotManager.

(** The values a caller may hand over where a character name is expected. *)
Inductive JsValue :=
| JsUndefined
| JsNull
| JsBoolean (b : bool)
| JsNumber (n : nat)
| JsStr (s : string)
| JsObject.

(** The server writes the file; a file of that name is replaced. *)
Definition writeFile (filename : string) (bytes : nat) (files : list FileEntry)
  : list FileEntry :=
  List.filter (fun f => negb (String.eqb (name f) filename)) files
    ++ [{| name := filename; size := bytes; isDirectory := false |}].

Section WithBackend.
Context (env : Backend).

Definition saveSlotCache (slotId : nat) (filename characterName : string) : M bool :=
  w ← get;
  emit (EvSaveSlot slotId filename);;
  match saveSlotResponse env (trace w) slotId filename with
  | Some bytes =>
      modify (fun w' => setDisk (writeFile filename bytes (disk w')) w');;
      isValid ← validateCacheFile env filename;
      if negb isValid then mret false else mret true
  | None => mret false
  end.

(** [updateSlotsList] of core/slot-manager.js redraws the list of slots
    the panel shows; it is not part of the state followed here. *)
Definition loadSlotCache (slotId : nat) (filename : string) : M bool :=
  w ← get;
  emit (EvRestoreSlot slotId filename);;
  if restoreSlotResponse env (trace w) slotId filename then
    modify (fun w' => setSlotsState (resetSlotUsage slotId (slotsState w')) w');;
    modify (fun w' => setSlotsState (setSlotCacheLoaded slotId true (slotsState w')) w');;
    mret true
  else mret false.

Definition saveCharacterCache (characterName : JsValue) (slotIndex : option nat)
  : M bool :=
  match characterName with
  | JsStr characterName =>
      if isEmpty characterName then mret false
      else
        match slotIndex with
        | None => mret false
        | Some slotIndex =>
            w ← get;
            let chatId := getNormalizedChatId w in
            let timestamp := clock env (trace w) in
            let filename := generateSaveFilename chatId timestamp characterName None in
            success ← saveSlotCache slotIndex filename characterName;
            if (success : bool) then
              rotateCharacterFiles env characterName;;
              modify (fun w' =>
                        setSlotsState (resetSlotUsage slotIndex (slotsState w')) w');;
              mret true
            else mret false
        end
  | _ => mret false
  end.

End WithBackend.
End CacheOperations.
(** ** core/slot-manager.js: allocation and eviction *)

Module SlotAllocation.
Import State SlotManager CacheOperations.

Definition isFree (slot : Slot) : bool :=
  match characterName slot with None => true | Some _ => false end.

(** The slot of lowest usage, the lowest index among equals. *)
Fixpoint selectVictim (slots : list Slot) : option (nat * Slot) :=
  match slots with
  | [] => None
  | s :: rest =>
      match selectVictim rest with
      | Some (i, v) => if usage v <? usage s then Some (S i, v) else Some (0, s)
      | None => Some (0, s)
      end
  end.

Definition bindSlot (slotIndex : nat) (entity : string) (slots : list Slot) : list Slot :=
  alter (fun s => {| characterName := Some entity; usage := 0;
                     cacheLoaded := false;
                     generationType := generationType s |}) slotIndex slots.

Section WithBackend.
Context (env : Backend).

(** Modelled from the spec: [acquireSlot] of core/slot-manager.js, which
    is not among the sources.  §4.2: the slot the entity owns, as it is;
    else a free slot (here the first), bound with [cacheLoaded = false]
    and [usage = 0]; else the victim of lowest usage and lowest index,
    saved first when its usage has reached the minimum (a failed save
    does not block), then rebound.  No slot at all: failure. *)
Definition acquireSlot (entity : string) (minUsageForSave : nat) : M (option nat) :=
  w ← get;
  match findCharacterSlotIndex entity (slotsState w) with
  | Some i => mret (Some i)
  | None =>
      match findSlot isFree (slotsState w) with
      | Some i =>
          modify (fun w' => setSlotsState (bindSlot i entity (slotsState w')) w');;
          mret (Some i)
      | None =>
          match selectVictim (slotsState w) with
          | None => mret None
          | Some (i, victim) =>
              (if minUsageForSave <=? usage victim then
                 _ ← saveCharacterCache env
                       (match characterName victim with
                        | Some resident => JsStr resident
                        | None => JsNull
                        end) (Some i);
                 mret tt
               else mret tt);;
              modify (fun w' => setSlotsState (bindSlot i entity (slotsState w')) w');;
              mret (Some i)
          end
      end
  end.

End WithBackend.
End SlotAllocation.

(** ** interceptors/generation-interceptor.js *)

Module GenerationInterceptor.
Import JsString Utils State FileManager SlotManager CacheOperations SlotAllocation.

Definition setPreloadingMode (enabled : bool) : M unit :=
  modify (fun w =>
            setPreloadFlags enabled
              (if enabled then currentPreloadCharacter w else None) w).

Definition setCurrentPreloadCharacter (normalizedName : option string) : M unit :=
  modify (fun w => setPreloadFlags (isPreloading w) normalizedName w).

Definition getCurrentSlot : M (option nat) :=
  w ← get; mret (currentSlot w).

(** A name that is neither [null] nor empty. *)
Definition truthyName (n : option string) : option string :=
  match n with
  | Some s => if isEmpty s then None else Some s
  | None => None
  end.

(** [getNormalizedCharacterNameFromContext] (utils/character-utils.js) *)
Definition getNormalizedCharacterNameFromContext (w : World) : option string :=
  match truthyName (contextCharacter w) with
  | Some n => Some (normalizeCharacterName n)
  | None => None
  end.

(** The name the interceptor works for. *)
Definition requestingCharacter (type : string) (w : World) : option string :=
  truthyName
    (if String.eqb type "quiet" && isPreloading w
        && bool_decide (is_Some (truthyName (currentPreloadCharacter w)))
     then currentPreloadCharacter w
     else getNormalizedCharacterNameFromContext w).

(** [!slot?.cacheLoaded] *)
Definition cacheNotLoaded (slots : list Slot) (slotIndex : nat) : bool :=
  match slots !! slotIndex with
  | Some slot => negb (cacheLoaded slot)
  | None => true
  end.

Section WithBackend.
Context (env : Backend).

Definition KVCacheManagerInterceptor (type : string) : M unit :=
  if String.eqb type "impersonate" then mret tt
  else
    w ← get;
    if String.eqb type "quiet" && negb (isPreloading w) then mret tt
    else
      match requestingCharacter type w with
      | None => mret tt
      | Some characterName =>
          slot ← acquireSlot env characterName (MIN_USAGE_FOR_SAVE (settings w));
          modify (setCurrentSlot slot);;
          match slot with
          | None => mret tt
          | Some currentSlot =>
              w1 ← get;
              (if cacheNotLoaded (slotsState w1) currentSlot then
                 cacheInfo ← getLastCacheForCharacter env characterName true;
                 match cacheInfo with
                 | Some filename =>
                     _ ← loadSlotCache env currentSlot filename; mret tt
                 | None => mret tt
                 end
               else mret tt);;
              modify (fun w' =>
                        setSlotsState
                          (setGenerationType currentSlot type (slotsState w')) w')
          end
      end.

End WithBackend.
End GenerationInterceptor.

(** ** core/auto-save.js *)

Module AutoSave.
Import JsString Utils State SlotManager CacheOperations.

(** How an awaited call ends. *)
Inductive Completion (A : Type) :=
| Returned (a : A)
| Threw (message : string).
Arguments Returned {A} a.
Arguments Threw {A} message.

(** [messageCounters[chatId][characterName]]; a missing entry reads as
    [undefined], which counts as 0 wherever the code reads it. *)
Definition counterOf (chatId characterName : string)
    (messageCounters : gmap string (gmap string nat)) : nat :=
  default 0 (messageCounters !! chatId ≫= fun chat => chat !! characterName).


Section WithSave.
(** The imported [saveCharacterCache]; the counters are private to this
    module, the save cannot reach them. *)
Context (save : string -> nat -> M (Completion bool)).


End WithSave.

(** The module as it is linked: [saveCharacterCache] returns, it catches
    what its callees throw. *)
Definition linkedSave (env : Backend) (characterName : string) (slotIndex : nat)
  : M (Completion bool) :=
  saved ← saveCharacterCache env (JsStr characterName) (Some slotIndex);
  mret (Returned saved).

End AutoSave.
(** ** ui/preload.js *)

Module Preload.
Import JsString Utils State CacheOperations GenerationInterceptor.

Record Character := {
  ch_name : string;
  ch_normalizedName : string;
  ch_characterId : option nat;
}.

(** What the status message shows; [formatPreloadStatus] renders it as
    markdown. *)
Record PreloadStatus := {
  st_cancelled : bool;
  st_warming : option (string * option nat);
  st_current : nat;
  st_total : nat;
  st_preloaded : list string;
  st_errors : list string;
  st_cancelButton : bool;
}.

Definition formatPreloadStatus (current total : nat) (preloaded errors : list string)
    (currentCharacterName : option string) (currentSlotIndex : option nat)
    (isCancelled : bool) (messageId : option nat) : PreloadStatus :=
  {| st_cancelled := isCancelled;
     st_warming :=
       if isCancelled then None
       else match truthyName currentCharacterName with
            | Some n => Some (n, currentSlotIndex)
            | None => None
            end;
     st_current := current;
     st_total := total;
     st_preloaded := preloaded;
     st_errors := errors;
     st_cancelButton :=
       negb isCancelled && (current <? total) && bool_decide (is_Some messageId) |}.

(** The locals of one call of [preloadCharactersCache], and the world. *)
Record Run := {
  world : World;
  isCancelled : bool;
  preloaded : list string;
  errors : list string;
  (** the text of the hidden status message *)
  statusMessage : option PreloadStatus;
}.

Definition P (A : Type) : Type := Run -> A * Run.

#[export] Instance P_ret : MRet P := fun A (a : A) r => (a, r).
#[export] Instance P_bind : MBind P :=
  fun A B (k : A -> P B) (m : P A) r => let '(a, r') := m r in k a r'.

Definition getRun : P Run := fun r => (r, r).

Definition inWorld {A} (m : M A) : P A :=
  fun r =>
    let '(a, w') := m (world r) in
    (a, {| world := w'; isCancelled := isCancelled r; preloaded := preloaded r;
           errors := errors r; statusMessage := statusMessage r |}).

Definition setCancelled : P unit :=
  fun r => (tt, {| world := world r; isCancelled := true; preloaded := preloaded r;
                   errors := errors r; statusMessage := statusMessage r |}).

Definition pushPreloaded (n : string) : P unit :=
  fun r => (tt, {| world := world r; isCancelled := isCancelled r;
                   preloaded := preloaded r ++ [n];
                   errors := errors r; statusMessage := statusMessage r |}).

Definition pushError (e : string) : P unit :=
  fun r => (tt, {| world := world r; isCancelled := isCancelled r;
                   preloaded := preloaded r;
                   errors := errors r ++ [e]; statusMessage := statusMessage r |}).

(** [editMessageUsingUpdate(statusMessageId, status)] *)
Definition editMessageUsingUpdate (status : PreloadStatus) : P unit :=
  fun r => (tt, {| world := world r; isCancelled := isCancelled r;
                   preloaded := preloaded r;
                   errors := errors r; statusMessage := Some status |}).

(** [stopGeneration]: [context.stopGeneration()] *)
Definition stopGeneration : P unit := inWorld (emit EvStopGeneration).

(** The id of the hidden message: [createHiddenMessage] returns a number. *)
Definition statusMessageId : option nat := Some 0.

Section Batch.
Context (env : Backend) (characters : list Character).

Definition handleCancel : P unit :=
  r ← getRun;
  if isCancelled r then mret tt
  else
    setCancelled;;
    stopGeneration;;
    editMessageUsingUpdate
      (formatPreloadStatus (length (preloaded r)) (length characters)
         (preloaded r) (errors r ++ ["Cancelled by user"]) None None true
         statusMessageId).

(** The user clicks the cancel button while the code awaits. *)
Definition click (clicked : bool) : P unit :=
  if clicked then inWorld (emit EvCancelClick);; handleCancel else mret tt.

(** Which of the three promises wins [Promise.race]. *)
Inductive RaceOutcome :=
| GenerationCompleted
| GenerationRejected (message : string)
| TimeoutElapsed
| CancelPolled.

(** What happens around one entity: where the user clicks, whether the
    generation reaches the interceptor, how the race ends. *)
Record StepScript := {
  clickWhileStatus : bool;
  intercepted : bool;
  clickWhileGenerating : bool;
  raceOutcome : RaceOutcome;
  clickWhileSaving : bool;
  clickWhileProgress : bool;
}.

Inductive Flow := Next | Break.

Definition decimal (n : nat) : string :=
  NilEmpty.string_of_uint (Nat.to_uint n).

Definition timeoutMessage (timeoutMinutes : nat) : string :=
  "Таймаут ожидания генерации (" +:+ decimal timeoutMinutes +:+ " минут)".

Definition isAbortError (message : string) : bool :=
  negb (isEmpty message)
  && (includes "aborted" message || includes "AbortError" message
      || includes "cancelled" message).

Definition isTimeout (message : string) : bool :=
  negb (isEmpty message)
  && (includes "Таймаут" message || includes "Timeout" message
      || includes "timeout" message).

Definition nameAt (i : nat) : option string :=
  ch_name <$> characters !! i.

(** The generation block of one step; [inl flow] when it ends the step
    by [break], [inr None] when it falls through to the save, [inr
    (Some message)] when it throws to the outer [catch]. *)
Definition generationBlock (character : Character) (characterId : nat)
    (script : StepScript) : P (Flow + option string) :=
  r ← getRun;
  if isCancelled r then
    inWorld (setCurrentPreloadCharacter None);; mret (inl Break)
  else
    inWorld (setCurrentPreloadCharacter (Some (ch_normalizedName character)));;
    inWorld (emit (EvGenerate characterId));;
    (if intercepted script then inWorld (KVCacheManagerInterceptor env "quiet")
     else mret tt);;
    w ← getRun;
    let timeoutMinutes := preloadTimeout (settings (world w)) in
    outcome ←
      match raceOutcome script with
      | GenerationCompleted =>
          click (clickWhileGenerating script);; mret (inl "completed")
      | CancelPolled =>
          click true;; stopGeneration;; mret (inl "cancelled")
      | GenerationRejected message =>
          click (clickWhileGenerating script);; mret (inr message)
      | TimeoutElapsed =>
          click (clickWhileGenerating script);;
          mret (inr (timeoutMessage timeoutMinutes))
      end;
    r' ← getRun;
    match outcome with
    | inl result =>
        if isCancelled r' || String.eqb result "cancelled" then
          stopGeneration;;
          inWorld (setCurrentPreloadCharacter None);;
          mret (inl Break)
        else
          stopGeneration;;
          inWorld (setCurrentPreloadCharacter None);;
          mret (inr None)
    | inr message =>
        inWorld (setCurrentPreloadCharacter None);;
        if negb (isAbortError message) && negb (isTimeout message)
        then mret (inr (Some message))
        else mret (inr None)
    end.

Definition preloadStep (i : nat) (character : Character) (script : StepScript)
  : P Flow :=
  r ← getRun;
  if isCancelled r then mret Break
  else
    let characterName := ch_name character in
    let normalizedName := ch_normalizedName character in
    match ch_characterId character with
    | None | Some 0 =>
        pushError (characterName +:+ ": не найден ID персонажа");;
        r1 ← getRun;
        editMessageUsingUpdate
          (formatPreloadStatus (i + 1) (length characters) (preloaded r1) (errors r1)
             (Some characterName) None (isCancelled r1) statusMessageId);;
        click (clickWhileProgress script);;
        mret Next
    | Some characterId =>
        editMessageUsingUpdate
          (formatPreloadStatus i (length characters) (preloaded r) (errors r)
             (Some characterName) None (isCancelled r) statusMessageId);;
        click (clickWhileStatus script);;
        block ← generationBlock character characterId script;
        match block with
        | inl flow => mret flow
        | inr (Some message) =>
            pushError (characterName +:+ ": "
                       +:+ (if isEmpty message then "Неизвестная ошибка" else message));;
            r1 ← getRun;
            editMessageUsingUpdate
              (formatPreloadStatus (i + 1) (length characters) (preloaded r1)
                 (errors r1) (nameAt (i + 1)) None (isCancelled r1) statusMessageId);;
            click (clickWhileProgress script);;
            mret Next
        | inr None =>
            slotIndex ← inWorld getCurrentSlot;
            match slotIndex with
            | Some _ =>
                saved ← inWorld (saveCharacterCache env (JsStr normalizedName) slotIndex);
                click (clickWhileSaving script);;
                if (saved : bool) then pushPreloaded characterName
                else pushError (characterName +:+ ": ошибка сохранения кеша")
            | None => mret tt
            end;;
            r1 ← getRun;
            if isCancelled r1 then mret Break
            else
              editMessageUsingUpdate
                (formatPreloadStatus (i + 1) (length characters) (preloaded r1)
                   (errors r1) (nameAt (i + 1)) None (isCancelled r1) statusMessageId);;
              click (clickWhileProgress script);;
              mret Next
        end
    end.

(** [for (let i = 0; i < characters.length; i++)], from position [i]
    on, over the entities that are left. *)
Fixpoint preloadLoop (script : nat -> StepScript) (i : nat) (rest : list Character)
  : P unit :=
  match rest with
  | [] => mret tt
  | character :: rest' =>
      flow ← preloadStep i character (script i);
      match flow with
      | Break => mret tt
      | Next => preloadLoop script (S i) rest'
      end
  end.

Definition preloadCharactersCache (script : nat -> StepScript) : M (bool * Run) :=
  w ← get;
  let idle := {| world := w; isCancelled := false; preloaded := []; errors := [];
                 statusMessage := None |} in
  if negb (inGroupChat w) then mret (false, idle)
  else
    match characters with
    | [] => mret (false, idle)
    | _ =>
        setPreloadingMode true;;
        w1 ← get;
        let started :=
          {| world := w1; isCancelled := false; preloaded := []; errors := [];
             statusMessage :=
               Some (formatPreloadStatus 0 (length characters) [] [] None None
                                         false None) |} in
        let '(_, r) :=
          (preloadLoop script 0 characters;;
           r ← getRun;
           editMessageUsingUpdate
             (formatPreloadStatus
                (if isCancelled r then length (preloaded r) else length characters)
                (length characters) (preloaded r) (errors r) None None
                (isCancelled r) statusMessageId)) started in
        modify (fun _ => world r);;
        setPreloadingMode false;;
        w2 ← get;
        mret (negb (length (preloaded r) =? 0),
              {| world := w2; isCancelled := isCancelled r; preloaded := preloaded r;
                 errors := errors r; statusMessage := statusMessage r |})
    end.

End Batch.
End Preload.

(** ** utils/utils.js: the timestamp of a date, trimming *)

Module Timestamps.
Import JsString.

(** What the getters of a valid [Date] return, in local time: the month
    counts from 0. *)
Record JsDate := {
  getFullYear : Z;
  getMonth : nat;
  getDate : nat;
  getHours : nat;
  getMinutes : nat;
  getSeconds : nat;
}.

(** [String(n)] and [`${n}`] for an integer. *)
Definition integerToString (n : Z) : string :=
  NilEmpty.string_of_int (Z.to_int n).

Fixpoint repeatString (pad : string) (count : nat) : string :=
  match count with
  | O => EmptyString
  | S count' => pad +:+ repeatString pad count'
  end.

(** [s.padStart(targetLength, padString)]: the filler is [padString]
    repeated and cut to the missing length. *)
Definition padStart (targetLength : nat) (padString : string) (s : string) : string :=
  if targetLength <=? String.length s then s
  else if isEmpty padString then s
  else
    let fillLen := targetLength - String.length s in
    takeChars fillLen (repeatString padString fillLen) +:+ s.

Definition formatTimestamp (date : JsDate) : string :=
  let year := getFullYear date in
  let month := padStart 2 "0" (integerToString (Z.of_nat (getMonth date + 1))) in
  let day := padStart 2 "0" (integerToString (Z.of_nat (getDate date))) in
  let hour := padStart 2 "0" (integerToString (Z.of_nat (getHours date))) in
  let minute := padStart 2 "0" (integerToString (Z.of_nat (getMinutes date))) in
  let second := padStart 2 "0" (integerToString (Z.of_nat (getSeconds date))) in
  integerToString year +:+ month +:+ day +:+ hour +:+ minute +:+ second.

(** White space and line terminators among the 8-bit code units: TAB, LF,
    VT, FF, CR, SP and NBSP. *)
Definition isWhiteSpace (c : ascii) : bool :=
  between 9 13 c || (codeUnit c =? 32) || (codeUnit c =? 160).

Fixpoint trimStart (s : string) : string :=
  match s with
  | EmptyString => EmptyString
  | String c s' => if isWhiteSpace c then trimStart s' else s
  end.

Fixpoint trimEnd (s : string) : string :=
  match s with
  | EmptyString => EmptyString
  | String c s' =>
      match trimEnd s' with
      | EmptyString => if isWhiteSpace c then EmptyString else String c EmptyString
      | rest => String c rest
      end
  end.

(** [s.trim()] *)
Definition trim (s : string) : string := trimEnd (trimStart s).

End Timestamps.

(** ** utils/character-utils.js *)

Module CharacterUtils.
Import JsString Utils CacheOperations Preload.

(** [if (v)] *)
Definition truthy (v : JsValue) : bool :=
  match v with
  | JsUndefined | JsNull => false
  | JsBoolean b => b
  | JsNumber n => negb (n =? 0)
  | JsStr s => negb (isEmpty s)
  | JsObject => true
  end.

(** The data of a message event: the fields [char] and [name], each
    [undefined] when absent.  A truthy value that is no object reads as
    one without these fields. *)
Record EventData := {
  data_char : JsValue;
  data_name : JsValue;
}.

(** [data] is [None] when it is falsy. *)
Definition getNormalizedCharacterNameFromData (data : option EventData) : option string :=
  match data with
  | None => None
  | Some data =>
      let characterName :=
        if truthy (data_char data) then data_char data
        else if truthy (data_name data) then data_name data
        else JsNull in
      match characterName with
      | JsStr s => if isEmpty s then None else Some (normalizeCharacterName s)
      | _ => None
      end
  end.

(** A member of the group, as [getGroupMembers] gives it. *)
Record Member := {
  member_name : JsValue;
  member_avatar : string;
}.

Record Group := {
  group_id : string;
  (** [undefined] when the group has no such field *)
  disabled_members : option (list string);
}.

(** What the function reads of SillyTavern: [getContext()] with its
    [groupId] and [characters], [getGroupMembers()], [groups] and
    [selected_group].  An entry of [characters] is the name of the
    character at that index, [None] for an entry that is falsy or whose
    name is not a string. *)
Record Host := {
  context_present : bool;
  context_groupId : option string;
  context_characters : option (list (option string));
  groupMembers : option (list (option Member));
  groups : option (list Group);
  selected_group : option string;
}.

Record ChatCharacter := {
  chr_name : string;
  chr_normalizedName : string;
  chr_characterId : option nat;
  chr_avatar : string;
  chr_isMuted : bool;
}.

(** [Object.entries(characters).find(([id, char]) => char && char.name === name)],
    then [Number(id)]: the first index that holds the name. *)
Fixpoint findCharacterEntry (name : string) (characters : list (option string))
  : option nat :=
  match characters with
  | [] => None
  | entry :: rest =>
      match entry with
      | Some n => if String.eqb n name then Some 0 else S <$> findCharacterEntry name rest
      | None => S <$> findCharacterEntry name rest
      end
  end.

(** [member && member.name && typeof member.name === 'string'] *)
Definition namedMember (member : option Member) : option (string * string) :=
  match member with
  | Some m =>
      match member_name m with
      | JsStr s => if isEmpty s then None else Some (s, member_avatar m)
      | _ => None
      end
  | None => None
  end.

Definition getChatCharactersWithMutedStatus (host : Host) : list ChatCharacter :=
  if negb (context_present host) then []
  else
    match context_groupId host with
    | None => []
    | Some _ =>
        match groupMembers host with
        | None | Some [] => []
        | Some members =>
            let group :=
              match groups host, selected_group host with
              | Some gs, Some selected =>
                  List.find (fun x => String.eqb (group_id x) selected) gs
              | _, _ => None
              end in
            let disabledMembers :=
              match group with
              | Some g => default [] (disabled_members g)
              | None => []
              end in
            omap (fun member =>
                    match namedMember member with
                    | Some (name, avatar) =>
                        Some {| chr_name := name;
                                chr_normalizedName := normalizeCharacterName name;
                                chr_characterId :=
                                  match context_characters host with
                                  | Some characters => findCharacterEntry name characters
                                  | None => None
                                  end;
                                chr_avatar := avatar;
                                chr_isMuted :=
                                  existsb (String.eqb avatar) disabledMembers |}
                    | None => None
                    end) members
        end
    end.

(** The fields of a character that [preloadCharactersCache] reads. *)
Definition toPreload (c : ChatCharacter) : Character :=
  {| ch_name := chr_name c; ch_normalizedName := chr_normalizedName c;
     ch_characterId := chr_characterId c |}.

End CharacterUtils.

(** ** core/cache-operations.js: saving every slot *)

Module CacheOperationsAll.
Import JsString Utils FileNames State FileManager SlotManager CacheOperations
  GenerationInterceptor Timestamps.

(** [slotsState.forEach]: the slots whose [characterName] is a string
    that is not empty, with their indices. *)
Definition charactersInSlots (slots : list Slot) : list (string * nat) :=
  omap (fun '(slotIndex, slot) =>
          match truthyName (characterName slot) with
          | Some characterName => Some (characterName, slotIndex)
          | None => None
          end)
       (imap pair slots).

Section WithBackend.
Context (env : Backend).

(** One turn of the loop of [saveAllSlotsCache]: [slotsState[i]] is
    read when the turn starts. *)
Definition saveSlotIfUsed (i : nat) : M unit :=
  w ← get;
  match slotsState w !! i with
  | Some slot =>
      match truthyName (characterName slot) with
      | Some currentCharacter =>
          let usageCount := usage slot in
          if MIN_USAGE_FOR_SAVE (settings w) <=? usageCount then
            _ ← saveCharacterCache env (JsStr currentCharacter) (Some i); mret tt
          else mret tt
      | None => mret tt
      end
  | None => mret tt
  end.

Definition saveAllSlotsCache : M unit :=
  w ← get;
  let totalSlots := length (slotsState w) in
  forEach saveSlotIfUsed (seq 0 totalSlots).

(** One turn of the loop of [saveCache]; the result is
    [successfullySaved]. *)
Definition saveOne (chatId : string) (tag : option string)
    (successfullySaved : list string) (entry : string * nat) : M (list string) :=
  let '(characterName, slotIndex) := entry in
  if isEmpty characterName then mret successfullySaved
  else
    w ← get;
    let timestamp := clock env (trace w) in
    let filename := generateSaveFilename chatId timestamp characterName tag in
    saved ← saveSlotCache env slotIndex filename characterName;
    if (saved : bool) then
      match truthyTag tag with
      | None => rotateCharacterFiles env characterName
      | Some _ => mret tt
      end;;
      mret (successfullySaved ++ [characterName])
    else mret successfullySaved.

Fixpoint saveEach (chatId : string) (tag : option string)
    (successfullySaved : list string) (charactersToSave : list (string * nat))
  : M (list string) :=
  match charactersToSave with
  | [] => mret successfullySaved
  | entry :: rest =>
      successfullySaved ← saveOne chatId tag successfullySaved entry;
      saveEach chatId tag successfullySaved rest
  end.

(** [popup] is what [showTagInputPopup] resolves to when it is asked:
    [null] when the user dismisses it, the text otherwise. *)
Definition saveCache (requestTag : bool) (popup : option string) : M bool :=
  match (if requestTag
         then match popup with
              | None => None
              | Some tag => Some (Some (trim tag))
              end
         else Some None) with
  | None => mret false
  | Some tag =>
      w ← get;
      let chatId := getNormalizedChatId w in
      let charactersToSave := charactersInSlots (slotsState w) in
      match charactersToSave with
      | [] => mret false
      | _ =>
          successfullySaved ← saveEach chatId tag [] charactersToSave;
          mret (0 <? length successfullySaved)
      end
  end.

End WithBackend.
End CacheOperationsAll.

(** ** core/auto-save.js: the counters and the indicator *)

Module AutoSaveCounters.
Import JsString Utils State AutoSave CharacterUtils Preload.


Definition resetChatCounters (chatId : string)
    (messageCounters : gmap string (gmap string nat)) : gmap string (gmap string nat) :=
  match messageCounters !! chatId with
  | Some chatCounters => <[chatId := (fun _ => 0) <$> chatCounters]> messageCounters
  | None => messageCounters
  end.

(** The loop of [updateNextSaveIndicator] over the characters of the
    conversation: [minRemaining], where [None] is [Infinity], and
    [hasCounters]. *)
Definition scanCounters (interval : nat) (chatCounters : gmap string nat)
  : option nat * bool :=
  map_fold (fun _ count '(minRemaining, hasCounters) =>
              let remaining := interval - count in
              (match minRemaining with
               | Some least => if remaining <? least then Some remaining else Some least
               | None => Some remaining
               end, true))
           (None, false) chatCounters.

(** [minRemaining] once the loop is over and the case without counters
    is settled. *)
Definition minRemaining (interval : nat) (chatCounters : gmap string nat) : option nat :=
  let '(minRemaining, hasCounters) := scanCounters interval chatCounters in
  if (hasCounters : bool) then minRemaining else Some interval.

Definition numberText (n : option nat) : string :=
  match n with
  | Some k => decimal k
  | None => "Infinity"
  end.

(** What [updateNextSaveIndicator] writes into the indicator of the
    settings panel and into the title of the drawer; [None] for an
    element that is not in the page. *)
Record Indicator := {
  indicator : option string;
  headerTitle : option string;
}.

Definition updateNextSaveIndicator (hasIndicator hasHeaderTitle : bool)
    (messageCounters : gmap string (gmap string nat)) (w : World) : Indicator :=
  let shown (present : bool) (text : string) :=
    if present then Some text else None in
  if negb (enabled (settings w)) then
    {| indicator := shown hasIndicator "Автосохранение отключено";
       headerTitle := shown hasHeaderTitle "KV Cache Manager" |}
  else
    let chatId := getNormalizedChatId w in
    let chatCounters := default ∅ (messageCounters !! chatId) in
    let interval := saveInterval (settings w) in
    let minRemaining := minRemaining interval chatCounters in
    {| indicator :=
         shown hasIndicator
           (match minRemaining with
            | Some 0 => "Следующее сохранение при следующем сообщении"
            | _ =>
                let messageWord :=
                  match minRemaining with
                  | Some 1 => "сообщение"
                  | Some k => if k <? 5 then "сообщения" else "сообщений"
                  | None => "сообщений"
                  end in
                "Следующее сохранение через: " +:+ numberText minRemaining
                  +:+ " " +:+ messageWord
            end);
       headerTitle :=
         shown hasHeaderTitle ("[" +:+ numberText minRemaining +:+ "] KV Cache Manager") |}.

Section WithSave.
Context (save : string -> nat -> M (Completion bool)).

End WithSave.

End AutoSaveCounters.

(** ** ui/hidden-message.js *)

Module HiddenMessage.

Record Message := {
  msg_name : string;
  is_user : bool;
  is_system : bool;
  send_date : string;
  mes : string;
  gen_id : nat;
  isSmallSys : bool;
}.

(** What the two functions ask of SillyTavern besides the [chat] array. *)
Inductive Effect :=
| AddOneMessage (message : Message)
| SaveChatConditional
| EmitMessageSent (messageId : nat)
| EmitUserMessageRendered (messageId : nat)
| UpdateMessageBlock (messageId : nat) (message : Message).

(** The [chat] array, whose entries may be falsy, and the requests so
    far.  Nothing else touches the array while a function awaits. *)
Record Chat := {
  chat : list (option Message);
  effects : list Effect;
}.

Definition setText (newText : string) (message : Message) : Message :=
  {| msg_name := msg_name message; is_user := is_user message;
     is_system := is_system message; send_date := send_date message;
     mes := newText; gen_id := gen_id message; isSmallSys := isSmallSys message |}.

(** [humanizedDateTime] and [now] are what [context.humanizedDateTime()]
    and [Date.now()] return. *)
Definition createHiddenMessage (humanizedDateTime : string) (now : nat)
    (text : string) (isSmallSys : bool) (name : string) (c : Chat) : nat * Chat :=
  let message :=
    {| msg_name := name; is_user := false; is_system := true;
       send_date := humanizedDateTime; mes := text; gen_id := now;
       isSmallSys := isSmallSys |} in
  let pushed := chat c ++ [Some message] in
  let messageId := length pushed - 1 in
  (messageId,
   {| chat := pushed;
      effects := effects c ++ [AddOneMessage message; SaveChatConditional;
                               EmitMessageSent messageId;
                               EmitUserMessageRendered messageId] |}).

(** [messageId] is an integer; the program passes ids that
    [createHiddenMessage] returned. *)
Definition editMessageUsingUpdate (messageId : Z) (newText : string) (c : Chat) : Chat :=
  if ((messageId <? 0) || (Z.of_nat (length (chat c)) <=? messageId))%Z then c
  else
    match chat c !! Z.to_nat messageId with
    | Some (Some message) =>
        let message := setText newText message in
        {| chat := <[Z.to_nat messageId := Some message]> (chat c);
           effects := effects c ++ [UpdateMessageBlock (Z.to_nat messageId) message;
                                    SaveChatConditional] |}
    | _ => c
    end.

End HiddenMessage.

(** ** api/llama-api.js and api/file-plugin-api.js *)

Module LlamaApi.
Import JsString.

(** [_buildUrl(path)], with [baseUrl] what [_getBaseUrl()] returns. *)
Definition buildUrl (baseUrl path : string) : string :=
  let base := if endsWith "/" baseUrl then baseUrl else baseUrl +:+ "/" in
  let cleanPath := if startsWith "/" path then dropChars 1 path else path in
  base +:+ cleanPath.

End LlamaApi.

Module FilePluginApi.
Import JsString.

(** The requests of the client, with the header [X-CSRF-Token] of a
    deletion. *)
Inductive Request :=
| GetCsrfToken
| GetFiles
| DeleteFile (url : string) (csrfHeader : option string).

(** The answers of the server: to [/csrf-token], [None] when the request
    fails or the answer has no [token]; to a deletion, whether it
    succeeds. *)
Record Server := {
  tokenResponse : list Request -> option string;
  deleteResponse : list Request -> string -> bool;
}.

(** The instance: [_csrfTokenCache], and the requests sent so far. *)
Record Client := {
  csrfTokenCache : option string;
  sent : list Request;
}.

Definition truthyToken (token : option string) : option string :=
  match token with
  | Some t => if isEmpty t then None else Some t
  | None => None
  end.

Section WithServer.
Context (server : Server).

Definition getCsrfToken (client : Client) : option string * Client :=
  match truthyToken (csrfTokenCache client) with
  | Some token => (Some token, client)
  | None =>
      let asked := sent client ++ [GetCsrfToken] in
      match truthyToken (tokenResponse server (sent client)) with
      | Some token => (Some token, {| csrfTokenCache := Some token; sent := asked |})
      | None => (None, {| csrfTokenCache := csrfTokenCache client; sent := asked |})
      end
  end.

(** [true] when the request succeeds; the function throws otherwise. *)
Definition deleteFile (filename : string) (client : Client) : bool * Client :=
  let url := "/api/plugins/kv-cache-manager/files/" +:+ filename in
  let '(csrfToken, client) := getCsrfToken client in
  (deleteResponse server (sent client) url,
   {| csrfTokenCache := csrfTokenCache client;
      sent := sent client ++ [DeleteFile url csrfToken] |}).

End WithServer.
End FilePluginApi.

(** ** interceptors/generation-interceptor.js: the slot of a generation *)

Module GenerationSlot.
Import State CacheOperations GenerationInterceptor.

(** [params] is the object of the generation settings, of which the
    function sets ["id_slot"]. *)
Definition setSlotForGeneration (params : gmap string JsValue)
  : M (gmap string JsValue) :=
  slot ← getCurrentSlot;
  match slot with
  | Some slot => mret (<["id_slot" := JsNumber slot]> params)
  | None => mret params
  end.

End GenerationSlot.

(** ** ui/preload-popup.js: the selection of the characters to preload *)

Module PreloadPopup.
Import JsString CharacterUtils.

(** [selectedCharacters.add(x)]: a [Set] keeps its elements in the order
    in which they were first added. *)
Definition setAdd (x : string) (selected : list string) : list string :=
  if existsb (String.eqb x) selected then selected else selected ++ [x].

(** The selection the popup opens with: the characters that are not
    muted. *)
Definition initialSelection (characters : list ChatCharacter) : list string :=
  foldl (fun selected char =>
           if chr_isMuted char then selected
           else setAdd (chr_normalizedName char) selected)
        [] characters.

(** [POPUP_RESULT.AFFIRMATIVE], or any other result. *)
Inductive PopupResult := Affirmative | Dismissed.

(** [popup] is what [callGenericPopup] and the handlers of the popup come
    to: the result, and the strings in [selectedCharacters] when the
    popup closes, given the characters shown and the selection it opens
    with. *)
Definition openPreloadPopup (host : Host)
    (popup : list ChatCharacter -> list string -> PopupResult * list string)
  : option (list ChatCharacter) :=
  let characters := getChatCharactersWithMutedStatus host in
  match characters with
  | [] => None
  | _ =>
      let '(result, selectedCharacters) := popup characters (initialSelection characters) in
      match result with
      | Affirmative =>
          Some (omap (fun normalizedName =>
                        List.find (fun c => String.eqb (chr_normalizedName c) normalizedName)
                                  characters)
                     selectedCharacters)
      | Dismissed => None
      end
  end.

End PreloadPopup.

(** ** core/file-manager.js: the files by chat and character *)

Module FileGroups.
Import JsString Utils FileNames FileManager.








End FileGroups.
(** * Properties *)

Import JsString Utils FileNames State FileManager SlotManager CacheOperations
  SlotAllocation GenerationInterceptor AutoSave Preload.

#[local] Arguments String.append !s1 s2.

(** ** Vocabulary of the statements *)

(** A relation between the world before and after that every step of a
    computation keeps. *)
Definition keeps {A} (R : World -> World -> Prop) (m : M A) : Prop :=
  forall w, R w (m w).2.

(** The requests that drive a generation, as opposed to those for files
    and slots. *)
Definition isControl (e : Event) : bool :=
  match e with
  | EvGenerate _ | EvStopGeneration | EvCancelClick => true
  | _ => false
  end.

Definition controlEvents (tr : list Event) : list Event := List.filter isControl tr.

(** What the file operations leave alone: everything but the disk and the
    file and slot requests in the trace. *)
Record fileStep (w w' : World) : Prop := {
  fs_slots : slotsState w' = slotsState w;
  fs_chat : currentChatId w' = currentChatId w;
  fs_context : contextCharacter w' = contextCharacter w;
  fs_group : inGroupChat w' = inGroupChat w;
  fs_settings : settings w' = settings w;
  fs_currentSlot : currentSlot w' = currentSlot w;
  fs_preloading : isPreloading w' = isPreloading w;
  fs_pinned : currentPreloadCharacter w' = currentPreloadCharacter w;
  fs_control : controlEvents (trace w') = controlEvents (trace w);
}.

(** What a slot operation leaves alone on top of that: it may change the
    registry. *)
Record slotStep (w w' : World) : Prop := {
  ss_chat : currentChatId w' = currentChatId w;
  ss_context : contextCharacter w' = contextCharacter w;
  ss_group : inGroupChat w' = inGroupChat w;
  ss_settings : settings w' = settings w;
  ss_preloading : isPreloading w' = isPreloading w;
  ss_pinned : currentPreloadCharacter w' = currentPreloadCharacter w;
  ss_control : controlEvents (trace w') = controlEvents (trace w);
}.

(** [pat] starts at a position inside [x] when [x +:+ y] is searched. *)
Fixpoint earlyMatch (pat x y : string) : bool :=
  match x with
  | EmptyString => false
  | String _ x' => startsWith pat (x +:+ y) || earlyMatch pat x' y
  end.

(** Every way [p] can run from the end of a text into [y], it can also run
    into [y']. *)
Fixpoint tailsImply (p y y' : string) : bool :=
  implb (startsWith p y) (startsWith p y')
  && match p with
     | EmptyString => true
     | String _ p' => tailsImply p' y y'
     end.

Definition notChar (d : ascii) (c : ascii) : bool := negb (Ascii.eqb c d).
Definition notLineTerminator (c : ascii) : bool := negb (isLineTerminator c).
Definition normalizeChar (c : ascii) : ascii := if isSafeChar c then c else "_"%char.

(** Fourteen digits. *)
Definition isTimestamp (ts : string) : bool :=
  (String.length ts =? 14) && allChars isDigit ts.

Definition stampOf {A} (timestampOf : A -> option string) (x : A) : string :=
  default "" (timestampOf x).

(** The item carries a timestamp that is not empty. *)
Definition stamped {A} (timestampOf : A -> option string) (x : A) : Prop :=
  exists t, timestampOf x = Some t /\ t <> "".

(** [x] is at least as recent as [y]. *)
Definition notOlder {A} (timestampOf : A -> option string) (x y : A) : Prop :=
  String.le (stampOf timestampOf y) (stampOf timestampOf x).

(** A listed file counts for a character in a conversation: its name
    parses, the chat id is the conversation's, and the parsed character
    name normalizes to the character's, or the file name contains the
    character's name, normalized or as given. *)
Definition countsFor (characterName chat : string) (file : ListedFile) (p : ParsedName)
  : Prop :=
  parseSaveFilename (lf_name file) = Some p
  /\ p_chatId p = chat
  /\ (normalizeCharacterName (p_characterName p) = normalizeCharacterName characterName
      \/ includes (normalizeCharacterName characterName) (lf_name file) = true
      \/ includes characterName (lf_name file) = true).

Definition candidateFor (filename : string) (p : ParsedName) : CacheCandidate :=
  {| cc_filename := filename; cc_timestamp := p_timestamp p; cc_chatId := p_chatId p |}.

(** One turn of the loop of [getLastCacheForCharacter] when it looks in
    the current conversation only. *)
Definition collectIn (characterName chat : string)
  : list CacheCandidate -> ParsedFile -> list CacheCandidate :=
  collectCharacterFile characterName (normalizeCharacterName characterName) true
                       (Some chat).

(** The cap [rotateFiles] applies: [maxFiles || 10]. *)
Definition rotationCap (w : World) : nat :=
  match maxFiles (settings w) with O => 10 | S _ as n => n end.

(** The auto-saves of a character in the current conversation, as
    [rotateCharacterFiles] sees and orders them. *)
Definition autoSavesOf (env : Backend) (cn : string) (w : World) : list ParsedFile :=
  sortByTimestamp parsedTimestamp
    (List.filter (isAutoSaveOf (getNormalizedChatId w) (normalizeCharacterName cn))
                 (parseFilesList (getFilesList env w).1 parseSaveFilename))
    true.

Definition deleteRequests (files : list ParsedFile) : list Event :=
  List.map (fun f => EvDeleteFile (pf_name f)) files.

Definition isNamedIn (files : list ParsedFile) (f : FileEntry) : bool :=
  existsb (String.eqb (name f)) (List.map pf_name files).

Definition noClick (evs : list Event) : Prop := EvCancelClick ∉ evs.

Definition noGenerate (evs : list Event) : Prop := forall id, EvGenerate id ∉ evs.

(** The control requests of a batch, by its cancellation flag: without a
    click while the flag is down; with the flag up, a first click, the
    abort right behind it, and no generation after that. *)
Definition cancelShape (cancelled : bool) (evs : list Event) : Prop :=
  if cancelled then
    exists before after,
      evs = before ++ EvCancelClick :: EvStopGeneration :: after
      /\ noClick before /\ noGenerate after
  else noClick evs.

(** The batch has added control requests of that shape to those it
    started from. *)
Definition runShape (start : list Event) (r : Run) : Prop :=
  exists evs,
    controlEvents (trace (world r)) = start ++ evs
    /\ cancelShape (isCancelled r) evs.

(** A property of the run that a step of the batch keeps. *)
Definition preserves {A} (J : Run -> Prop) (m : P A) : Prop :=
  forall r, J r -> J (m r).2.

(** A step in which the user does not click. *)
Definition quietScript (outcome : RaceOutcome) (hit : bool) : StepScript :=
  {| clickWhileStatus := false; intercepted := hit; clickWhileGenerating := false;
     raceOutcome := outcome; clickWhileSaving := false; clickWhileProgress := false |}.





(** The generations a trace has issued, by character id. *)
Definition generationsOf (tr : list Event) : list nat :=
  omap (fun e => match e with EvGenerate id => Some id | _ => None end) tr.


Definition triple {A} (Pre : Run -> Prop) (m : P A) (Post : A -> Run -> Prop) : Prop :=
  forall r, Pre r -> Post (m r).1 (m r).2.

(** *** A server and a conversation to run the code on *)

Definition twoDigits (n : nat) : string :=
  (if n <? 10 then "0" else "") +:+ decimal n.

(** A server that accepts every request and writes files of 5000 bytes;
    the clock shows the number of requests so far as its seconds. *)
Definition helpfulServer : Backend :=
  {| saveSlotResponse := fun _ _ _ => Some 5000;
     restoreSlotResponse := fun _ _ _ => true;
     listFilesResponse := fun _ => true;
     deleteFileResponse := fun _ _ => true;
     clock := fun h => "202401010000" +:+ twoDigits (length h) |}.

(** The same server with a file plugin that refuses to delete. *)
Definition stubbornServer : Backend :=
  {| saveSlotResponse := saveSlotResponse helpfulServer;
     restoreSlotResponse := restoreSlotResponse helpfulServer;
     listFilesResponse := listFilesResponse helpfulServer;
     deleteFileResponse := fun _ _ => false;
     clock := clock helpfulServer |}.

Definition exampleSettings (cap : nat) : Settings :=
  {| enabled := true; saveInterval := 1; maxFiles := cap; showNotifications := true;
     preloadTimeout := 5; MIN_USAGE_FOR_SAVE := 2; MIN_FILE_SIZE_BYTES := 1000 |}.

Definition freeSlot : Slot :=
  {| characterName := None; usage := 0; cacheLoaded := false; generationType := None |}.

Definition warmSlot (resident : string) : Slot :=
  {| characterName := Some resident; usage := 3; cacheLoaded := true;
     generationType := Some "normal" |}.

Definition snapshot (filename : string) : FileEntry :=
  {| name := filename; size := 5000; isDirectory := false |}.

Definition exampleWorld (slots : list Slot) (files : list FileEntry) (cap : nat) : World :=
  {| slotsState := slots; disk := files; currentChatId := "chat";
     contextCharacter := Some "Bob"; inGroupChat := true;
     settings := exampleSettings cap; trace := [];
     currentSlot := None; isPreloading := false; currentPreloadCharacter := None |}.

Definition alice : Character :=
  {| ch_name := "Alice"; ch_normalizedName := "Alice"; ch_characterId := Some 1 |}.
Definition bob : Character :=
  {| ch_name := "Bob"; ch_normalizedName := "Bob"; ch_characterId := Some 2 |}.
Definition carol : Character :=
  {| ch_name := "Carol"; ch_normalizedName := "Carol"; ch_characterId := Some 3 |}.


(** Three auto-saves of Bob and a tagged snapshot older than all of them. *)
Definition bobsFiles : list FileEntry :=
  [snapshot "chat_20240101000001_character_Bob.bin";
   snapshot "chat_20240101000002_character_Bob.bin";
   snapshot "chat_20240101000003_character_Bob.bin";
   snapshot "chat_20230101000000_tag_keep_character_Bob.bin"].


Import Timestamps CharacterUtils CacheOperationsAll AutoSaveCounters GenerationSlot
  PreloadPopup FileGroups.

(** *** Dates and their timestamps *)

(** A date of the calendar with a year of four digits. *)
Definition calendarDate (d : Timestamps.JsDate) : Prop :=
  (1000 <= Timestamps.getFullYear d <= 9999)%Z
  /\ Timestamps.getMonth d < 12
  /\ 1 <= Timestamps.getDate d <= 31
  /\ Timestamps.getHours d < 24
  /\ Timestamps.getMinutes d < 60
  /\ Timestamps.getSeconds d < 60.

(** The first difference decides. *)
Definition lexicographic (c1 c2 : comparison) : comparison :=
  match c1 with Eq => c2 | _ => c1 end.

(** The order of two dates in time. *)
Definition compareDates (a b : Timestamps.JsDate) : comparison :=
  lexicographic (Timestamps.getFullYear a ?= Timestamps.getFullYear b)%Z
    (lexicographic (Timestamps.getMonth a ?= Timestamps.getMonth b)
       (lexicographic (Timestamps.getDate a ?= Timestamps.getDate b)
          (lexicographic (Timestamps.getHours a ?= Timestamps.getHours b)
             (lexicographic (Timestamps.getMinutes a ?= Timestamps.getMinutes b)
                (Timestamps.getSeconds a ?= Timestamps.getSeconds b))))).

Definition digitChar (n : nat) : ascii := ascii_of_nat (48 + n).

(** The two decimal digits of a number below 100. *)
Definition pairDigits (n : nat) : string :=
  String (digitChar (n / 10)) (String (digitChar (n mod 10)) EmptyString).

Definition sameComparison (c1 c2 : comparison) : bool :=
  match c1, c2 with
  | Eq, Eq | Lt, Lt | Gt, Gt => true
  | _, _ => false
  end.

(** *** Saving every slot *)

(** The slots a trace asks the server to save, in the order of the
    requests. *)
Definition savedSlots (tr : list Event) : list nat :=
  omap (fun e => match e with EvSaveSlot slotId _ => Some slotId | _ => None end) tr.

Definition isFileRequest (e : Event) : bool :=
  match e with
  | EvListFiles | EvDeleteFile _ => true
  | _ => false
  end.

(** A step that adds nothing to the trace but listings and deletions. *)
Definition tidying (w w' : World) : Prop :=
  exists evs, trace w' = trace w ++ evs /\ forallb isFileRequest evs = true.

(** The slot holds a character and has been used often enough to be worth
    a save. *)
Definition isDue (minUsage : nat) (slot : Slot) : bool :=
  bool_decide (is_Some (truthyName (characterName slot))) && (minUsage <=? usage slot).


(** Every deletion the events ask for is of a file that they also ask the
    server to write. *)
Definition ownDeletes (evs : list Event) : Prop :=
  forall filename, EvDeleteFile filename ∈ evs -> exists slotId, EvSaveSlot slotId filename ∈ evs.

Definition dueAt (minUsage : nat) (slots : list Slot) (i : nat) : bool :=
  match slots !! i with
  | Some slot => isDue minUsage slot
  | None => false
  end.

Definition slotsDue (minUsage : nat) (slots : list Slot) : list nat :=
  List.filter (dueAt minUsage slots) (seq 0 (length slots)).

(** The slot is as it was, or only its usage is back to 0 after it was
    due for a save. *)
Definition savedOrKept (minUsage : nat) (slot slot' : Slot) : Prop :=
  characterName slot' = characterName slot
  /\ cacheLoaded slot' = cacheLoaded slot
  /\ generationType slot' = generationType slot
  /\ (usage slot' = usage slot \/ (usage slot' = 0 /\ isDue minUsage slot = true)).

(** *** What a preload batch books *)

(** The id of a character when [!characterId] is false: a number other
    than 0. *)
Definition usableId (c : Character) : option nat :=
  match ch_characterId c with
  | Some (S k) => Some (S k)
  | _ => None
  end.

(** The names of the characters that have such an id. *)
Definition namesWithId (cs : list Character) : list string :=
  omap (fun c => match usableId c with
                 | Some _ => Some (ch_name c)
                 | None => None
                 end) cs.

(** The generations a run has issued and its two lists. *)
Definition ledger (gens : list nat) (done failed : list string) (r : Run) : Prop :=
  generationsOf (trace (world r)) = gens /\ preloaded r = done /\ errors r = failed.

(** What the step of a character may add to the three: nothing or one
    error; or the generation of its id, and with it nothing, one error, or
    its name among the preloaded. *)
Definition stepEntries (c : Character) (gens : list nat) (done failed : list string)
  : Prop :=
  (gens = [] /\ done = [] /\ length failed <= 1)
  \/ (exists id, usableId c = Some id /\ gens = [id]
                 /\ ((done = [] /\ length failed <= 1)
                     \/ (done = [ch_name c] /\ failed = []))).

(** The same with the flag of the batch down. *)
Definition calm (gens : list nat) (done failed : list string) (r : Run) : Prop :=
  isCancelled r = false /\ ledger gens done failed r.

(** Around this step the user does not click. *)
Definition unclicked (script : StepScript) : Prop :=
  clickWhileStatus script = false
  /\ clickWhileGenerating script = false
  /\ clickWhileSaving script = false
  /\ clickWhileProgress script = false
  /\ raceOutcome script <> CancelPolled.

Definition idNotFound (c : Character) : string :=
  ch_name c +:+ ": не найден ID персонажа".

(** *** Calls of the file plugin's client, one after the other *)

(** Deleting the files of a list in turn, whatever each deletion comes
    to. *)
Definition deleteInTurn (server : FilePluginApi.Server) (filenames : list string)
    (client : FilePluginApi.Client) : FilePluginApi.Client :=
  foldl (fun client filename => (FilePluginApi.deleteFile server filename client).2)
        client filenames.

Definition deletionUrl (filename : string) : string :=
  "/api/plugins/kv-cache-manager/files/" +:+ filename.

(** *** More examples to run the code on *)

Definition newYear : JsDate :=
  {| getFullYear := 2024; getMonth := 0; getDate := 1;
     getHours := 0; getMinutes := 0; getSeconds := 5 |}.

Definition christmas : JsDate :=
  {| getFullYear := 2023; getMonth := 11; getDate := 25;
     getHours := 18; getMinutes := 30; getSeconds := 0 |}.

(** A server that writes files of 10 bytes. *)
Definition stingyServer : Backend :=
  {| saveSlotResponse := fun _ _ _ => Some 10;
     restoreSlotResponse := restoreSlotResponse helpfulServer;
     listFilesResponse := listFilesResponse helpfulServer;
     deleteFileResponse := deleteFileResponse helpfulServer;
     clock := clock helpfulServer |}.

(** A conversation that is saved every five messages. *)
Definition patientWorld : World :=
  {| slotsState := [warmSlot "Bob"]; disk := []; currentChatId := "chat";
     contextCharacter := Some "Bob"; inGroupChat := true;
     settings :=
       {| enabled := true; saveInterval := 5; maxFiles := 10; showNotifications := true;
          preloadTimeout := 5; MIN_USAGE_FOR_SAVE := 2; MIN_FILE_SIZE_BYTES := 1000 |};
     trace := []; currentSlot := Some 0; isPreloading := false;
     currentPreloadCharacter := None |}.

(** A group of Alice and Bob, of whom Bob is muted; Alice is the first
    character of the context. *)
Definition exampleHost : Host :=
  {| context_present := true;
     context_groupId := Some "group";
     context_characters := Some [Some "Alice"; Some "Bob"];
     groupMembers :=
       Some [Some {| member_name := JsStr "Alice"; member_avatar := "alice.png" |};
             Some {| member_name := JsStr "Bob"; member_avatar := "bob.png" |}];
     groups := Some [{| group_id := "group"; disabled_members := Some ["bob.png"] |}];
     selected_group := Some "group" |}.

Definition aliceOfGroup : ChatCharacter :=
  {| chr_name := "Alice"; chr_normalizedName := "Alice"; chr_characterId := Some 0;
     chr_avatar := "alice.png"; chr_isMuted := false |}.

Definition bobOfGroup : ChatCharacter :=
  {| chr_name := "Bob"; chr_normalizedName := "Bob"; chr_characterId := Some 1;
     chr_avatar := "bob.png"; chr_isMuted := true |}.

(** Every generation completes and nobody clicks. *)
Definition allComplete (_ : nat) : StepScript := quietScript GenerationCompleted true.

Definition bobsAutoSave : ParsedName :=
  {| p_chatId := "chat"; p_timestamp := "20240101000001"; p_tag := None;
     p_characterName := "Bob" |}.

(** *** The popup *)

(** A popup that the user confirms without touching the selection. *)
Definition confirmedAtOnce (_ : list ChatCharacter) (selected : list string)
  : PopupResult * list string :=
  (Affirmative, selected).

Definition notMuted (c : ChatCharacter) : bool := negb (chr_isMuted c).

(** *** The files by chat and character *)






(** ** Reasoning about the state monad *)

Lemma bind_run {A B} (m : M A) (k : A -> M B) (w : World) :
  (m ≫= k) w = k (m w).1 (m w).2.
Proof. unfold mbind, M_bind. destruct (m w); reflexivity. Qed.

Lemma ret_run {A} (a : A) (w : World) : (mret a : M A) w = (a, w).
Proof. reflexivity. Qed.


Section Keeps.
Context (R : World -> World -> Prop) `{!Reflexive R} `{!Transitive R}.

Lemma keeps_ret {A} (a : A) : keeps R (mret a : M A).
Proof. intros w; simpl; reflexivity. Qed.

Lemma keeps_bind {A B} (m : M A) (k : A -> M B) :
  keeps R m -> (forall a, keeps R (k a)) -> keeps R (m ≫= k).
Proof.
  intros Hm Hk w. rewrite bind_run.
  etransitivity; [apply Hm | apply Hk].
Qed.

Lemma keeps_get : keeps R get.
Proof. intros w; simpl; reflexivity. Qed.

Lemma keeps_modify (f : World -> World) :
  (forall w, R w (f w)) -> keeps R (modify f).
Proof. intros Hf w; simpl; apply Hf. Qed.

Lemma keeps_forEach {A} (body : A -> M unit) (xs : list A) :
  (forall x, keeps R (body x)) -> keeps R (forEach body xs).
Proof.
  intros Hb. induction xs as [|x xs IH]; simpl.
  - apply keeps_ret.
  - apply keeps_bind; auto.
Qed.

Lemma keeps_if {A} (b : bool) (m1 m2 : M A) :
  keeps R m1 -> keeps R m2 -> keeps R (if b then m1 else m2).
Proof. destruct b; auto. Qed.
End Keeps.



#[local] Instance fileStep_refl : Reflexive fileStep.
Proof. intros w; split; reflexivity. Qed.

#[local] Instance fileStep_trans : Transitive fileStep.
Proof.
  intros a b c [] []; split; etransitivity; eassumption.
Qed.


#[local] Instance slotStep_refl : Reflexive slotStep.
Proof. intros w; split; reflexivity. Qed.

#[local] Instance slotStep_trans : Transitive slotStep.
Proof.
  intros a b c [] []; split; etransitivity; eassumption.
Qed.

Lemma fileStep_slotStep w w' : fileStep w w' -> slotStep w w'.
Proof. intros []; split; assumption. Qed.

Lemma controlEvents_app tr1 tr2 :
  controlEvents (tr1 ++ tr2) = controlEvents tr1 ++ controlEvents tr2.
Proof. apply List.filter_app. Qed.

Lemma fileStep_emit e : isControl e = false -> keeps fileStep (emit e).
Proof.
  intros He w; split; simpl; try reflexivity.
  rewrite controlEvents_app; simpl. rewrite He. apply app_nil_r.
Qed.

Lemma fileStep_setDisk f : keeps fileStep (modify (fun w => setDisk (f w) w)).
Proof. intros w; split; reflexivity. Qed.

Create HintDb keeps.

Ltac keeps_step :=
  first
    [ solve [auto 1 with keeps nocore]
    | apply keeps_ret; tc_solve
    | apply keeps_get; tc_solve
    | apply keeps_bind; [tc_solve | | intros ?]
    | apply keeps_if
    | apply keeps_forEach; [tc_solve | tc_solve | intros ?]
    | apply fileStep_emit; reflexivity
    | apply fileStep_setDisk ].

Lemma fileStep_getFilesList env : keeps fileStep (getFilesList env).
Proof. unfold getFilesList. repeat keeps_step. Qed.
#[local] Hint Resolve fileStep_getFilesList : keeps.

Lemma fileStep_deleteFile env filename : keeps fileStep (deleteFile env filename).
Proof. unfold deleteFile. repeat keeps_step. Qed.
#[local] Hint Resolve fileStep_deleteFile : keeps.

Lemma fileStep_rotateFiles env filterFn : keeps fileStep (rotateFiles env filterFn).
Proof. unfold rotateFiles. repeat keeps_step. Qed.
#[local] Hint Resolve fileStep_rotateFiles : keeps.

Lemma fileStep_rotateCharacterFiles env cn :
  keeps fileStep (rotateCharacterFiles env cn).
Proof. unfold rotateCharacterFiles. repeat keeps_step. Qed.
#[local] Hint Resolve fileStep_rotateCharacterFiles : keeps.

Lemma fileStep_validateCacheFile env filename :
  keeps fileStep (validateCacheFile env filename).
Proof.
  unfold validateCacheFile. repeat keeps_step.
  destruct (List.find _ _); repeat keeps_step.
Qed.
#[local] Hint Resolve fileStep_validateCacheFile : keeps.

Lemma fileStep_saveSlotCache env slotId filename cn :
  keeps fileStep (saveSlotCache env slotId filename cn).
Proof.
  unfold saveSlotCache. repeat keeps_step.
  destruct (saveSlotResponse _ _ _ _); repeat keeps_step.
Qed.
#[local] Hint Resolve fileStep_saveSlotCache : keeps.

Lemma fileStep_getLastCacheForCharacter env cn b :
  keeps fileStep (getLastCacheForCharacter env cn b).
Proof.
  unfold getLastCacheForCharacter. repeat keeps_step.
  destruct a; repeat keeps_step.
  destruct (sortByTimestamp _ _ _); repeat keeps_step.
Qed.
#[local] Hint Resolve fileStep_getLastCacheForCharacter : keeps.

(** ** The registry mutators *)

Lemma resetSlotUsage_lookup i j slots :
  resetSlotUsage i slots !! j =
    if decide (i = j)
    then (fun s => {| characterName := characterName s; usage := 0;
                      cacheLoaded := cacheLoaded s;
                      generationType := generationType s |}) <$> slots !! j
    else slots !! j.
Proof.
  unfold resetSlotUsage. rewrite list_lookup_alter.
  destruct (decide (i = j)) as [->|Hne]; reflexivity.
Qed.


Lemma findSlot_resident p slots i :
  findSlot p slots = Some i -> exists s, slots !! i = Some s /\ p s = true.
Proof.
  revert i. induction slots as [|s rest IH]; intros i; simpl; [discriminate|].
  destruct (p s) eqn:Hp.
  - intros [= <-]. exists s; auto.
  - destruct (findSlot p rest) as [j|]; simpl; [|discriminate].
    intros [= <-]. simpl. apply IH; reflexivity.
Qed.

(** ** How the cache operations run *)


Lemma saveCharacterCache_run env cn slotIndex w :
  cn <> "" ->
  let filename :=
    generateSaveFilename (getNormalizedChatId w) (clock env (trace w)) cn None in
  let saved := saveSlotCache env slotIndex filename cn w in
  saveCharacterCache env (JsStr cn) (Some slotIndex) w =
    if saved.1 then
      let w2 := (rotateCharacterFiles env cn saved.2).2 in
      (true, setSlotsState (resetSlotUsage slotIndex (slotsState w2)) w2)
    else (false, saved.2).
Proof.
  intros Hcn filename saved. unfold saveCharacterCache.
  destruct cn as [|c cn']; [congruence|].
  change (isEmpty (String c cn')) with false. cbv iota.
  unfold mbind, M_bind, get. cbv beta iota. subst saved filename.
  destruct (saveSlotCache env slotIndex _ (String c cn') w) as [[] w1]; simpl.
  - destruct (rotateCharacterFiles env (String c cn') w1) as [[] w2]. reflexivity.
  - reflexivity.
Qed.

Lemma saveCharacterCache_slots env cn slotIndex w :
  cn <> "" ->
  let r := saveCharacterCache env (JsStr cn) (Some slotIndex) w in
  slotsState r.2 =
    if r.1 then resetSlotUsage slotIndex (slotsState w) else slotsState w.
Proof.
  intros Hcn. cbv zeta. rewrite saveCharacterCache_run by assumption.
  cbv zeta.
  pose proof (fileStep_saveSlotCache env slotIndex
                (generateSaveFilename (getNormalizedChatId w) (clock env (trace w)) cn None)
                cn w) as Hs.
  destruct (saveSlotCache env slotIndex _ cn w) as [ok w1] eqn:E. simpl in *.
  destruct ok; simpl.
  - pose proof (fileStep_rotateCharacterFiles env cn w1) as Hr.
    rewrite (fs_slots _ _ Hr), (fs_slots _ _ Hs). reflexivity.
  - apply (fs_slots _ _ Hs).
Qed.

(** C10: when [characterName] is missing or not a string, or [slotIndex] is
    [null] or [undefined], [saveCharacterCache] returns [false] and nothing
    has happened: no request to the server or the file plugin, no rotation,
    no usage reset; the world is the one it was called in. *)
Theorem saveCharacterCache_guards env characterName slotIndex w :
  (forall s, characterName <> JsStr s) \/ slotIndex = None ->
  saveCharacterCache env characterName slotIndex w = (false, w).
Proof.
  intros [Hname | ->].
  - destruct characterName; try reflexivity. exfalso; eapply Hname; reflexivity.
  - destruct characterName; try reflexivity. simpl.
    destruct (isEmpty s); reflexivity.
Qed.

(** C9: a generation of type [impersonate], and one of type [quiet] while
    no preload is running, leaves the interceptor at once: no slot is
    acquired, nothing is requested, no slot and not the current-slot
    variable changes; the world is the one it was called in. *)
Theorem interceptor_skips_impersonate_and_idle_quiet env type w :
  type = "impersonate" \/ (type = "quiet" /\ isPreloading w = false) ->
  KVCacheManagerInterceptor env type w = (tt, w).
Proof.
  intros [-> | [-> Hidle]]; unfold KVCacheManagerInterceptor; simpl.
  - reflexivity.
  - rewrite bind_run; simpl. rewrite Hidle. reflexivity.
Qed.


(** ** The interceptor *)

Lemma interceptor_run env type w cn :
  String.eqb type "impersonate" = false ->
  String.eqb type "quiet" && negb (isPreloading w) = false ->
  requestingCharacter type w = Some cn ->
  KVCacheManagerInterceptor env type w =
    let acquired := acquireSlot env cn (MIN_USAGE_FOR_SAVE (settings w)) w in
    match acquired.1 with
    | None => (tt, setCurrentSlot None acquired.2)
    | Some slot =>
        let w1 := setCurrentSlot (Some slot) acquired.2 in
        let w2 :=
          if cacheNotLoaded (slotsState w1) slot then
            let found := getLastCacheForCharacter env cn true w1 in
            match found.1 with
            | Some filename => (loadSlotCache env slot filename found.2).2
            | None => found.2
            end
          else w1 in
        (tt, setSlotsState (setGenerationType slot type (slotsState w2)) w2)
    end.
Proof.
  intros Htype Hquiet Hcn. unfold KVCacheManagerInterceptor.
  rewrite Htype. unfold mbind, M_bind, get. cbv beta iota.
  rewrite Hquiet, Hcn. cbv beta iota zeta.
  destruct (acquireSlot env cn (MIN_USAGE_FOR_SAVE (settings w)) w) as [[slot|] wa];
    simpl; [|reflexivity].
  destruct (cacheNotLoaded (slotsState wa) slot); simpl; [|reflexivity].
  destruct (getLastCacheForCharacter env cn true (setCurrentSlot (Some slot) wa))
    as [[filename|] wl]; simpl; [|reflexivity].
  destruct (loadSlotCache env slot filename wl) as [b wr]; reflexivity.
Qed.

Lemma acquireSlot_owner env cn minUsage w i :
  findCharacterSlotIndex cn (slotsState w) = Some i ->
  acquireSlot env cn minUsage w = (Some i, w).
Proof.
  intros Hfind. unfold acquireSlot, mbind, M_bind, get. cbv beta iota.
  rewrite Hfind. reflexivity.
Qed.

(** C3: when the slot that [acquireSlot] hands to a generation request
    already has [cacheLoaded = true], the interceptor performs no restore:
    neither the lookup of the last snapshot nor [loadSlotCache] is reached.
    After the acquisition nothing is requested, the disk is untouched, and
    the registry only takes the generation type. *)
Theorem no_restore_when_cache_loaded env type w cn slot s :
  String.eqb type "impersonate" = false ->
  String.eqb type "quiet" && negb (isPreloading w) = false ->
  requestingCharacter type w = Some cn ->
  let acquired := acquireSlot env cn (MIN_USAGE_FOR_SAVE (settings w)) w in
  acquired.1 = Some slot ->
  slotsState acquired.2 !! slot = Some s ->
  cacheLoaded s = true ->
  let w' := (KVCacheManagerInterceptor env type w).2 in
  trace w' = trace acquired.2
  /\ disk w' = disk acquired.2
  /\ slotsState w' = setGenerationType slot type (slotsState acquired.2)
  /\ currentSlot w' = Some slot.
Proof.
  intros Htype Hquiet Hcn acquired Hslot Hs Hloaded w'. subst w'.
  rewrite (interceptor_run env type w cn Htype Hquiet Hcn). cbv zeta.
  fold acquired. rewrite Hslot.
  unfold cacheNotLoaded. simpl slotsState. rewrite Hs, Hloaded. simpl.
  repeat split.
Qed.

(** The same for an entity that holds its slot when the request arrives:
    the acquisition returns that slot as it is, and the request leaves no
    trace at all. *)
Lemma no_restore_for_resident_with_cache env type w cn slot s :
  String.eqb type "impersonate" = false ->
  String.eqb type "quiet" && negb (isPreloading w) = false ->
  requestingCharacter type w = Some cn ->
  findCharacterSlotIndex cn (slotsState w) = Some slot ->
  slotsState w !! slot = Some s ->
  cacheLoaded s = true ->
  let w' := (KVCacheManagerInterceptor env type w).2 in
  trace w' = trace w /\ disk w' = disk w
  /\ slotsState w' = setGenerationType slot type (slotsState w)
  /\ currentSlot w' = Some slot.
Proof.
  intros Htype Hquiet Hcn Hfind Hs Hloaded w'. subst w'.
  rewrite (interceptor_run env type w cn Htype Hquiet Hcn). cbv zeta.
  rewrite (acquireSlot_owner env cn _ w slot Hfind). simpl.
  unfold cacheNotLoaded. simpl. rewrite Hs, Hloaded. simpl. repeat split.
Qed.

(** ** The message counters *)




(** ** Strings *)

Lemma append_assoc (a b c : string) : (a +:+ b) +:+ c = a +:+ (b +:+ c).
Proof. induction a as [|x a IH]; simpl; [reflexivity | rewrite IH; reflexivity]. Qed.

Lemma append_empty_r (a : string) : a +:+ "" = a.
Proof. induction a as [|x a IH]; simpl; [reflexivity | rewrite IH; reflexivity]. Qed.

Lemma length_append (a b : string) :
  String.length (a +:+ b) = String.length a + String.length b.
Proof. induction a as [|x a IH]; simpl; [reflexivity | rewrite IH; reflexivity]. Qed.

Lemma takeChars_append (a b : string) : takeChars (String.length a) (a +:+ b) = a.
Proof. induction a as [|x a IH]; simpl; [reflexivity | rewrite IH; reflexivity]. Qed.

Lemma dropChars_append (a b : string) : dropChars (String.length a) (a +:+ b) = b.
Proof. induction a as [|x a IH]; simpl; [reflexivity | exact IH]. Qed.

Lemma startsWith_append (a b : string) : startsWith a (a +:+ b) = true.
Proof.
  induction a as [|x a IH]; simpl; [reflexivity|].
  rewrite Ascii.eqb_refl. exact IH.
Qed.

Lemma sliceOffEnd_append (pre m : string) :
  m <> "" -> sliceOffEnd (pre +:+ m) (String.length m) = pre.
Proof.
  intros Hm. unfold sliceOffEnd.
  destruct (String.length m) eqn:Hlen; [destruct m; [congruence | discriminate]|].
  rewrite <- Hlen, length_append.
  replace (String.length pre + String.length m - String.length m)
    with (String.length pre) by lia.
  apply takeChars_append.
Qed.

Lemma replaceBinExt_append (s : string) : replaceBinExt (s +:+ ".bin") = s.
Proof.
  induction s as [|c s IH]; [reflexivity|].
  simpl append. unfold replaceBinExt; fold replaceBinExt.
  destruct (String.eqb_spec (String c (s +:+ ".bin")) ".bin") as [Heq|_].
  - apply (f_equal String.length) in Heq. simpl in Heq.
    rewrite length_append in Heq. simpl in Heq. lia.
  - rewrite IH. reflexivity.
Qed.

Lemma allChars_impl (p q : ascii -> bool) (s : string) :
  (forall c, p c = true -> q c = true) -> allChars p s = true -> allChars q s = true.
Proof.
  intros Hpq. induction s as [|c s IH]; simpl; [reflexivity|].
  intros [Hc Hs]%andb_true_iff. rewrite (Hpq c Hc), (IH Hs). reflexivity.
Qed.

Lemma allChars_normalized (s : string) : allChars isSafeChar (mapChars normalizeChar s) = true.
Proof.
  induction s as [|c s IH]; simpl; [reflexivity|].
  rewrite IH, andb_true_r. unfold normalizeChar.
  destruct (isSafeChar c) eqn:Hc; [exact Hc | reflexivity].
Qed.

Lemma safe_notLineTerminator (c : ascii) : isSafeChar c = true -> notLineTerminator c = true.
Proof.
  destruct c as [[] [] [] [] [] [] [] []]; vm_compute; congruence.
Qed.

(** *** Searching for a pattern that ends in [$] *)

Lemma matchToEnd_skip (here : string -> option string) (pre rest : string) :
  (forall p1 p2, pre = p1 +:+ p2 -> p2 <> "" -> here (p2 +:+ rest) = None) ->
  matchToEnd here (pre +:+ rest) = matchToEnd here rest.
Proof.
  induction pre as [|c pre IH]; intros Hnone; [reflexivity|].
  pose proof (Hnone "" (String c pre) eq_refl ltac:(discriminate)) as Hhere.
  simpl in Hhere |- *. rewrite Hhere.
  apply IH. intros p1 p2 -> Hp2. apply (Hnone (String c p1) p2); [reflexivity | assumption].
Qed.

Lemma earlyMatch_false (pat pre rest : string) :
  earlyMatch pat pre rest = false ->
  forall p1 p2, pre = p1 +:+ p2 -> p2 <> "" -> startsWith pat (p2 +:+ rest) = false.
Proof.
  revert rest. induction pre as [|c pre IH]; intros rest Hearly p1 p2 Hsplit Hp2.
  - destruct p1, p2; simpl in Hsplit; congruence.
  - simpl in Hearly. apply orb_false_iff in Hearly as [Hhere Hlater].
    destruct p1 as [|c1 p1]; simpl in Hsplit.
    + subst p2. exact Hhere.
    + injection Hsplit as -> ->. eapply IH; eauto.
Qed.

Lemma matchToEnd_literal_skip (pat pre rest : string) :
  earlyMatch pat pre rest = false ->
  matchToEnd (literalThenRest pat) (pre +:+ rest) = matchToEnd (literalThenRest pat) rest.
Proof.
  intros Hearly. apply matchToEnd_skip. intros p1 p2 Hsplit Hp2.
  unfold literalThenRest. rewrite (earlyMatch_false _ _ _ Hearly p1 p2 Hsplit Hp2).
  reflexivity.
Qed.

Lemma matchToEnd_literal_hit (pat rest : string) :
  rest <> "" -> allChars notLineTerminator rest = true ->
  matchToEnd (literalThenRest pat) (pat +:+ rest) = Some (pat +:+ rest, rest).
Proof.
  intros Hrest Hchars. destruct pat as [|a pat].
  - simpl append. destruct rest as [|c rest]; [congruence|].
    unfold matchToEnd, literalThenRest. simpl startsWith. simpl dropChars.
    cbv iota beta. change (isEmpty (String c rest)) with false.
    fold notLineTerminator. rewrite Hchars. reflexivity.
  - simpl append. unfold matchToEnd.
    unfold literalThenRest.
    change (String a (pat +:+ rest)) with (String a pat +:+ rest).
    rewrite startsWith_append, dropChars_append.
    destruct rest as [|c rest]; [congruence|].
    change (isEmpty (String c rest)) with false.
    fold notLineTerminator. rewrite Hchars. reflexivity.
Qed.

Lemma matchToEnd_literal_none (a : ascii) (pat s : string) :
  allChars (notChar a) s = true ->
  matchToEnd (literalThenRest (String a pat)) s = None.
Proof.
  induction s as [|c s IH]; intros Hs; [reflexivity|].
  simpl in Hs. apply andb_true_iff in Hs as [Hc Hs].
  unfold matchToEnd; fold matchToEnd. unfold literalThenRest.
  simpl startsWith. unfold notChar in Hc. apply negb_true_iff in Hc.
  rewrite Ascii.eqb_sym, Hc. simpl. apply IH, Hs.
Qed.

Lemma earlyMatch_append (pat x1 x2 y : string) :
  earlyMatch pat (x1 +:+ x2) y = earlyMatch pat x1 (x2 +:+ y) || earlyMatch pat x2 y.
Proof.
  induction x1 as [|c x1 IH]; [reflexivity|].
  simpl. rewrite IH, append_assoc, orb_assoc. reflexivity.
Qed.

Lemma earlyMatch_other_head (a : ascii) (pat x y : string) :
  allChars (notChar a) x = true -> earlyMatch (String a pat) x y = false.
Proof.
  induction x as [|c x IH]; intros Hx; [reflexivity|].
  simpl in Hx. apply andb_true_iff in Hx as [Hc Hx].
  simpl. unfold notChar in Hc. apply negb_true_iff in Hc.
  rewrite Ascii.eqb_sym, Hc. simpl. apply IH, Hx.
Qed.

(** A code unit that [pat] does not contain stops every occurrence. *)
Lemma startsWith_separator (d : ascii) (pat x y : string) :
  allChars (notChar d) pat = true ->
  startsWith pat (x +:+ String d y) = startsWith pat x.
Proof.
  revert x. induction pat as [|a pat IH]; intros x Hpat; [reflexivity|].
  simpl in Hpat. apply andb_true_iff in Hpat as [Ha Hpat].
  destruct x as [|b x]; simpl.
  - unfold notChar in Ha. apply negb_true_iff in Ha. rewrite Ha. reflexivity.
  - rewrite IH by assumption. reflexivity.
Qed.

Lemma earlyMatch_separator (d a : ascii) (pat x y : string) :
  allChars (notChar d) (String a pat) = true ->
  earlyMatch (String a pat) x (String d y) = includes (String a pat) x.
Proof.
  intros Hpat. induction x as [|c x IH]; [reflexivity|].
  cbn [earlyMatch includes]. rewrite IH.
  rewrite (startsWith_separator d (String a pat) (String c x) y Hpat). reflexivity.
Qed.

Lemma startsWith_tails (p x y y' : string) :
  tailsImply p y y' = true ->
  startsWith p (x +:+ y) = true -> startsWith p (x +:+ y') = true.
Proof.
  revert p. induction x as [|b x IH]; intros p Htails.
  - simpl append. intros Hy. destruct p as [|a p]; [reflexivity|].
    cbn [tailsImply] in Htails. apply andb_true_iff in Htails as [Himp _].
    rewrite Hy in Himp. exact Himp.
  - destruct p as [|a p]; [reflexivity|].
    cbn [tailsImply] in Htails. apply andb_true_iff in Htails as [_ Htails].
    simpl. intros [Hab Hrest]%andb_true_iff. rewrite Hab. simpl.
    apply IH; assumption.
Qed.

Lemma earlyMatch_straddle (a : ascii) (p x y y' : string) :
  tailsImply p y y' = true ->
  earlyMatch (String a p) x y = true -> includes (String a p) (x +:+ y') = true.
Proof.
  intros Htails. induction x as [|c x IH]; [discriminate|].
  cbn [earlyMatch]. intros [Hhere | Hlater]%orb_true_iff.
  - simpl append. cbn [includes]. apply orb_true_iff. left.
    simpl in Hhere |- *. apply andb_true_iff in Hhere as [Hac Hrest].
    rewrite Hac. simpl. eapply startsWith_tails; eassumption.
  - simpl append. cbn [includes]. apply orb_true_iff. right. apply IH, Hlater.
Qed.

(** *** The three patterns of [parseSaveFilename] *)

Lemma digit_notChar_underscore (d : ascii) : isDigit d = true -> notChar "_" d = true.
Proof. destruct d as [[] [] [] [] [] [] [] []]; vm_compute; congruence. Qed.

Lemma digit_not_in_character (d : ascii) :
  isDigit d = true -> allChars (notChar d) "_character_" = true.
Proof. destruct d as [[] [] [] [] [] [] [] []]; vm_compute; congruence. Qed.

Lemma digit_not_in_tag (d : ascii) :
  isDigit d = true -> allChars (notChar d) "_tag_" = true.
Proof. destruct d as [[] [] [] [] [] [] [] []]; vm_compute; congruence. Qed.

Lemma isTimestamp_inv (ts : string) :
  isTimestamp ts = true ->
  exists d ts', ts = String d ts' /\ isDigit d = true
                /\ allChars (notChar "_") ts = true
                /\ String.length ts = 14 /\ allChars isDigit ts = true.
Proof.
  unfold isTimestamp. intros [Hlen Hdigits]%andb_true_iff.
  apply Nat.eqb_eq in Hlen.
  destruct ts as [|d ts']; [discriminate|]. exists d, ts'.
  pose proof Hdigits as Hall. simpl in Hdigits.
  apply andb_true_iff in Hdigits as [Hd _].
  repeat split; try assumption.
  eapply allChars_impl; [|exact Hall]. apply digit_notChar_underscore.
Qed.

Lemma matchToEnd_timestamp (c ts : string) :
  isTimestamp ts = true ->
  matchToEnd underscoreThen14Digits (c +:+ String "_" ts) = Some (String "_" ts, ts).
Proof.
  intros Hts. destruct (isTimestamp_inv ts Hts) as (d & ts' & -> & _ & _ & Hlen & Hdigits).
  rewrite matchToEnd_skip.
  - unfold matchToEnd, underscoreThen14Digits.
    rewrite Hlen, Hdigits. reflexivity.
  - intros p1 p2 _ Hp2. destruct p2 as [|a r]; [congruence|].
    simpl. rewrite length_append. simpl String.length in *.
    replace (String.length r + S (S (String.length ts')) =? 14) with false
      by (symmetry; apply Nat.eqb_neq; lia).
    rewrite andb_false_r. reflexivity.
Qed.

(** Before the timestamp only the chat id counts. *)
Lemma earlyMatch_before_timestamp (a : ascii) (pat c ts rest : string) :
  a = "_"%char ->
  (forall d, isDigit d = true -> allChars (notChar d) (String a pat) = true) ->
  includes (String a pat) (c +:+ "_") = false ->
  isTimestamp ts = true ->
  earlyMatch (String a pat) (c +:+ String "_" ts) rest = false.
Proof.
  intros -> Hpat Hchat Hts.
  destruct (isTimestamp_inv ts Hts) as (d & ts' & -> & Hd & Hnot & _ & _).
  change (c +:+ String "_" (String d ts')) with (c +:+ ("_" +:+ String d ts')).
  rewrite <- append_assoc, earlyMatch_append. apply orb_false_iff. split.
  - simpl append. rewrite earlyMatch_separator by (apply Hpat, Hd). exact Hchat.
  - apply earlyMatch_other_head. exact Hnot.
Qed.

Lemma matchToEnd_no_tag (c ts : string) :
  includes "_tag_" (c +:+ "_") = false ->
  isTimestamp ts = true ->
  matchToEnd (literalThenRest "_tag_") (c +:+ String "_" ts) = None.
Proof.
  intros Hchat Hts.
  destruct (isTimestamp_inv ts Hts) as (d & ts' & Heq & Hd & Hnot & _ & _).
  change (c +:+ String "_" ts) with (c +:+ ("_" +:+ ts)).
  rewrite <- append_assoc, matchToEnd_literal_skip.
  - apply matchToEnd_literal_none. exact Hnot.
  - rewrite Heq. rewrite earlyMatch_separator by (apply digit_not_in_tag, Hd).
    exact Hchat.
Qed.

Lemma matchToEnd_tag (c ts t : string) :
  includes "_tag_" (c +:+ "_") = false ->
  isTimestamp ts = true ->
  t <> "" -> allChars notLineTerminator t = true ->
  matchToEnd (literalThenRest "_tag_") ((c +:+ String "_" ts) +:+ "_tag_" +:+ t)
  = Some ("_tag_" +:+ t, t).
Proof.
  intros Hchat Hts Ht Hchars.
  rewrite matchToEnd_literal_skip.
  - apply matchToEnd_literal_hit; assumption.
  - apply earlyMatch_before_timestamp; auto using digit_not_in_tag.
Qed.

Lemma matchToEnd_character (before n : string) :
  earlyMatch "_character_" before ("_character_" +:+ n) = false ->
  n <> "" -> allChars notLineTerminator n = true ->
  matchToEnd (literalThenRest "_character_") (before +:+ "_character_" +:+ n)
  = Some ("_character_" +:+ n, n).
Proof.
  intros Hearly Hn Hchars. rewrite matchToEnd_literal_skip by assumption.
  apply matchToEnd_literal_hit; assumption.
Qed.

Lemma earlyMatch_character_after_tag (t n : string) :
  includes "_character_" ("_" +:+ t +:+ "_") = false ->
  earlyMatch "_character_" ("_tag_" +:+ t) ("_character_" +:+ n) = false.
Proof.
  intros Htag. apply not_true_is_false. intros Hearly.
  apply (earlyMatch_straddle _ _ _ _ "_") in Hearly; [|reflexivity].
  rewrite append_assoc in Hearly.
  change (includes "_character_" ("_tag_" +:+ t +:+ "_"))
    with (includes "_character_" ("_" +:+ t +:+ "_")) in Hearly.
  congruence.
Qed.

(** *** The file name and its parse *)

Lemma parse_generated (before n : string) (tag : option string) (c ts : string) :
  n <> "" -> allChars notLineTerminator n = true ->
  isTimestamp ts = true ->
  earlyMatch "_character_" before ("_character_" +:+ n) = false ->
  matchToEnd (literalThenRest "_tag_") before
  = match tag with
    | Some t => Some ("_tag_" +:+ t, t)
    | None => None
    end ->
  before = match tag with
           | Some t => (c +:+ String "_" ts) +:+ "_tag_" +:+ t
           | None => c +:+ String "_" ts
           end ->
  parseSaveFilename (before +:+ "_character_" +:+ n +:+ ".bin")
  = Some {| p_chatId := c; p_timestamp := ts; p_tag := tag; p_characterName := n |}.
Proof.
  intros Hn Hchars Hts Hearly Htag Hbefore. unfold parseSaveFilename.
  replace (before +:+ "_character_" +:+ n +:+ ".bin")
    with ((before +:+ "_character_" +:+ n) +:+ ".bin")
    by (rewrite !append_assoc; reflexivity).
  cbv zeta. rewrite replaceBinExt_append, matchToEnd_character by assumption.
  cbv beta iota. rewrite sliceOffEnd_append by discriminate.
  rewrite Htag. destruct tag as [t|]; cbv beta iota.
  - rewrite Hbefore. rewrite sliceOffEnd_append by discriminate.
    rewrite matchToEnd_timestamp by assumption. cbv beta iota.
    rewrite (sliceOffEnd_append c (String "_" ts)) by discriminate. reflexivity.
  - rewrite Hbefore. rewrite matchToEnd_timestamp by assumption. cbv beta iota.
    rewrite (sliceOffEnd_append c (String "_" ts)) by discriminate. reflexivity.
Qed.

Lemma normalizeString_nonempty (t : string) :
  t <> "" ->
  normalizeString t "" <> ""
  /\ allChars notLineTerminator (normalizeString t "") = true.
Proof.
  intros Ht. destruct t as [|a t]; [congruence|]. unfold normalizeString.
  change (isEmpty (String a t)) with false. cbv iota. split; [discriminate|].
  eapply allChars_impl; [apply safe_notLineTerminator|].
  apply (allChars_normalized (String a t)).
Qed.

(** C7, amended: the name [generateSaveFilename] builds parses back to the
    normalized chat id, the timestamp, the normalized tag ([null] when
    there is none) and the character name as given, for every 14-digit
    timestamp and every character name that is not empty and holds no line
    terminator, when the normalized chat id followed by [_] contains neither
    [_character_] nor [_tag_], and the normalized tag between two [_] does
    not contain [_character_]. *)
Theorem parse_of_generated_filename (chatId ts n : string) (tag : option string) :
  isTimestamp ts = true ->
  n <> "" ->
  allChars notLineTerminator n = true ->
  includes "_character_" (normalizeChatId chatId +:+ "_") = false ->
  includes "_tag_" (normalizeChatId chatId +:+ "_") = false ->
  (forall t, truthyTag tag = Some t ->
             includes "_character_" ("_" +:+ normalizeString t "" +:+ "_") = false) ->
  parseSaveFilename (generateSaveFilename chatId ts n tag)
  = Some {| p_chatId := normalizeChatId chatId;
            p_timestamp := ts;
            p_tag := (fun t => normalizeString t "") <$> truthyTag tag;
            p_characterName := n |}.
Proof.
  intros Hts Hn Hchars Hchat1 Hchat2 Htag. unfold generateSaveFilename.
  set (c := normalizeChatId chatId) in *.
  destruct (truthyTag tag) as [t|] eqn:Htruthy; simpl fmap.
  - assert (Ht : t <> "").
    { destruct tag as [t0|]; simpl in Htruthy; [|discriminate].
      destruct t0; simpl in Htruthy; congruence. }
    destruct (normalizeString_nonempty t Ht) as [Hne Hsafe].
    set (t' := normalizeString t "") in *.
    replace (c +:+ "_" +:+ ts +:+ "_tag_" +:+ t' +:+ "_character_" +:+ n +:+ ".bin")
      with (((c +:+ String "_" ts) +:+ "_tag_" +:+ t') +:+ "_character_" +:+ n +:+ ".bin")
      by (rewrite !append_assoc; reflexivity).
    apply (parse_generated _ n (Some t') c ts); auto.
    + rewrite earlyMatch_append. apply orb_false_iff. split.
      * apply earlyMatch_before_timestamp; auto using digit_not_in_character.
      * apply earlyMatch_character_after_tag. apply Htag. reflexivity.
    + apply matchToEnd_tag; assumption.
  - replace (c +:+ "_" +:+ ts +:+ "_character_" +:+ n +:+ ".bin")
      with ((c +:+ String "_" ts) +:+ "_character_" +:+ n +:+ ".bin")
      by (rewrite !append_assoc; reflexivity).
    apply (parse_generated _ n None c ts); auto.
    + apply earlyMatch_before_timestamp; auto using digit_not_in_character.
    + apply matchToEnd_no_tag; assumption.
Qed.

(** ** Sorting by timestamp *)


Section SortingFacts.
Context {A : Type} (timestampOf : A -> option string).

Lemma compare_stamped (x y : A) :
  stamped timestampOf x -> stamped timestampOf y ->
  compareTimestamps true (timestampOf x) (timestampOf y)
  = String.compare (stampOf timestampOf y) (stampOf timestampOf x).
Proof.
  intros (a & Ha & Hane) (b & Hb & Hbne). unfold compareTimestamps, stampOf.
  rewrite Ha, Hb. simpl.
  destruct a; [congruence|]. destruct b; [congruence|]. reflexivity.
Qed.

Lemma le_of_compare (a b : string) :
  String.compare a b <> Gt <-> String.le a b.
Proof.
  unfold String.le, String.leb. destruct (String.compare a b); simpl; split;
    intros H; try congruence; try exact I; try (exfalso; exact H).
Qed.

Lemma gt_le (a b : string) : String.compare a b = Gt -> String.le b a.
Proof.
  intros H. destruct (total String.le a b) as [Hab|Hba]; [|exact Hba].
  apply le_of_compare in Hab. congruence.
Qed.

Lemma insert_perm (x : A) (l : list A) :
  insertByTimestamp timestampOf true x l ≡ₚ x :: l.
Proof.
  induction l as [|y l IH]; simpl; [reflexivity|].
  destruct (compareTimestamps _ _ _); try reflexivity.
  rewrite IH. apply Permutation_swap.
Qed.

Lemma sort_perm (l : list A) : sortByTimestamp timestampOf l true ≡ₚ l.
Proof.
  unfold sortByTimestamp. induction l as [|x l IH]; simpl; [reflexivity|].
  rewrite insert_perm, IH. reflexivity.
Qed.

Lemma insert_sorted (x : A) (l : list A) :
  stamped timestampOf x -> Forall (stamped timestampOf) l ->
  StronglySorted (notOlder timestampOf) l ->
  StronglySorted (notOlder timestampOf) (insertByTimestamp timestampOf true x l).
Proof.
  intros Hx Hl Hsorted. induction Hsorted as [|y l Hs IH Hy]; simpl.
  - repeat constructor.
  - apply Forall_cons in Hl as [Hys Hl].
    rewrite compare_stamped by assumption.
    destruct (String.compare (stampOf timestampOf y) (stampOf timestampOf x)) eqn:Hc.
    + constructor; [constructor; assumption|].
      assert (Hxy : notOlder timestampOf x y).
      { unfold notOlder. apply le_of_compare. congruence. }
      constructor; [exact Hxy|].
      eapply Forall_impl; [exact Hy|]. intros z Hz. unfold notOlder in *.
      etransitivity; eassumption.
    + constructor; [constructor; assumption|].
      assert (Hxy : notOlder timestampOf x y).
      { unfold notOlder. apply le_of_compare. congruence. }
      constructor; [exact Hxy|].
      eapply Forall_impl; [exact Hy|]. intros z Hz. unfold notOlder in *.
      etransitivity; eassumption.
    + constructor; [apply IH, Hl|].
      rewrite insert_perm. constructor; [|exact Hy].
      unfold notOlder. apply gt_le, Hc.
Qed.

Lemma sort_stamped (l : list A) :
  Forall (stamped timestampOf) l ->
  Forall (stamped timestampOf) (sortByTimestamp timestampOf l true).
Proof. intros H. rewrite sort_perm. exact H. Qed.

Lemma sort_sorted (l : list A) :
  Forall (stamped timestampOf) l ->
  StronglySorted (notOlder timestampOf) (sortByTimestamp timestampOf l true).
Proof.
  intros Hl. induction Hl as [|x l Hx Hl IH].
  - constructor.
  - change (sortByTimestamp timestampOf (x :: l) true)
      with (insertByTimestamp timestampOf true x (sortByTimestamp timestampOf l true)).
    apply insert_sorted; [assumption | apply sort_stamped, Hl | exact IH].
Qed.

Lemma sort_head_most_recent (l : list A) (x : A) (rest : list A) :
  Forall (stamped timestampOf) l ->
  sortByTimestamp timestampOf l true = x :: rest ->
  x ∈ l /\ forall y, y ∈ l -> notOlder timestampOf x y.
Proof.
  intros Hl Hsort. pose proof (sort_sorted l Hl) as Hs.
  pose proof (sort_perm l) as Hp. rewrite Hsort in Hs, Hp.
  split.
  - rewrite <- Hp. left.
  - intros y Hy. rewrite <- Hp in Hy. apply elem_of_cons in Hy as [->|Hy].
    + unfold notOlder. reflexivity.
    + apply StronglySorted_inv in Hs as [_ Hall].
      rewrite Forall_forall in Hall. apply Hall. exact Hy.
Qed.

Lemma sort_nil_inv (l : list A) : sortByTimestamp timestampOf l true = [] -> l = [].
Proof.
  intros H. pose proof (sort_perm l) as Hp. rewrite H in Hp.
  symmetry in Hp. apply Permutation_nil_r in Hp. exact Hp.
Qed.

(** In a list sorted most recent first, what lies behind a cut is not
    more recent than what lies before it. *)
Lemma sorted_cut (n : nat) (l : list A) :
  StronglySorted (notOlder timestampOf) l ->
  forall x y, x ∈ take n l -> y ∈ drop n l -> notOlder timestampOf x y.
Proof.
  intros Hs. revert n. induction Hs as [|z l Hs IH Hz]; intros n x y Hx Hy.
  - rewrite take_nil in Hx. inversion Hx.
  - destruct n as [|n]; [inversion Hx|]. simpl in Hx, Hy.
    apply elem_of_cons in Hx as [->|Hx].
    + rewrite Forall_forall in Hz. apply Hz. eapply subseteq_drop. exact Hy.
    + eapply IH; eassumption.
Qed.

Lemma sorted_drop (n : nat) (l : list A) :
  StronglySorted (notOlder timestampOf) l ->
  StronglySorted (notOlder timestampOf) (drop n l).
Proof.
  intros Hs. revert n. induction Hs as [|z l Hs IH Hz]; intros n.
  - rewrite drop_nil. constructor.
  - destruct n; simpl; [constructor; assumption | apply IH].
Qed.
End SortingFacts.

(** ** The last snapshot of a character *)


Lemma matchToEnd_timestamp_inv (x m0 g : string) :
  matchToEnd underscoreThen14Digits x = Some (m0, g) -> isTimestamp g = true.
Proof.
  induction x as [|c x IH]; simpl; [discriminate|].
  destruct (Ascii.eqb c "_" && (String.length x =? 14) && allChars isDigit x) eqn:Hc.
  - intros [= <- <-]. apply andb_true_iff in Hc as [Hc Hd].
    apply andb_true_iff in Hc as [_ Hl]. unfold isTimestamp. rewrite Hl, Hd. reflexivity.
  - exact IH.
Qed.

Lemma parse_timestamp (s : string) (p : ParsedName) :
  parseSaveFilename s = Some p -> isTimestamp (p_timestamp p) = true.
Proof.
  unfold parseSaveFilename. cbv zeta.
  destruct (matchToEnd (literalThenRest "_character_") (replaceBinExt s)) as [[m0 m1]|];
    [|discriminate].
  destruct (matchToEnd (literalThenRest "_tag_") _) as [[t0 t1]|].
  - destruct (matchToEnd underscoreThen14Digits _) as [[s0 s1]|] eqn:Hts; [|discriminate].
    intros [= <-]. simpl. eapply matchToEnd_timestamp_inv, Hts.
  - destruct (matchToEnd underscoreThen14Digits _) as [[s0 s1]|] eqn:Hts; [|discriminate].
    intros [= <-]. simpl. eapply matchToEnd_timestamp_inv, Hts.
Qed.

Lemma timestamp_nonempty (ts : string) : isTimestamp ts = true -> ts <> "".
Proof. intros H ->. discriminate. Qed.

Lemma includes_empty (s : string) : includes "" s = true.
Proof. destruct s; reflexivity. Qed.

Lemma getFilesList_run env w :
  getFilesList env w =
    (if listFilesResponse env (trace w)
     then List.map (fun f => {| lf_name := name f; lf_size := size f |})
                   (List.filter isBinFile (disk w))
     else [],
     logEvent EvListFiles w).
Proof.
  unfold getFilesList, mbind, M_bind, get, emit, modify. cbv beta iota.
  destruct (listFilesResponse env (trace w)); reflexivity.
Qed.

Section Collect.
Context (cn chat : string).

Lemma collect_spec (acc : list CacheCandidate) (file : ListedFile) :
  (forall c, c ∈ acc ->
     exists p, parseSaveFilename (cc_filename c) = Some p
               /\ c = candidateFor (cc_filename c) p) ->
  forall c,
    c ∈ collectIn cn chat acc {| pf_name := lf_name file; pf_size := lf_size file;
                       parsed := parseSaveFilename (lf_name file) |}
    <-> c ∈ acc
        \/ exists p, countsFor cn chat file p /\ c = candidateFor (lf_name file) p.
Proof.
  intros Hwf c. unfold collectIn, collectCharacterFile, countsFor. simpl.
  destruct (parseSaveFilename (lf_name file)) as [p|] eqn:Hparse.
  2:{ split; [auto|]. intros [H|(p & (Hp & _) & _)]; [exact H | discriminate]. }
  fold (candidateFor (lf_name file) p).
  destruct (String.eqb_spec (p_chatId p) chat) as [Hchat|Hchat]; simpl.
  2:{ split; [auto|]. intros [H|(p' & (Hp & Hc & _) & _)]; [exact H|].
      congruence. }
  destruct (negb (isEmpty (p_characterName p))
            && String.eqb (normalizeCharacterName (p_characterName p))
                          (normalizeCharacterName cn)) eqn:Hname.
  { rewrite elem_of_app, list_elem_of_singleton.
    apply andb_true_iff in Hname as [_ Hname]. apply String.eqb_eq in Hname.
    split.
    - intros [H| ->]; [auto|]. right. exists p. repeat split; auto.
    - intros [H|(p' & (Hp & _) & ->)]; [auto|]. right. congruence. }
  destruct (includes (normalizeCharacterName cn) (lf_name file)
            || includes cn (lf_name file)) eqn:Hinc.
  - assert (Hcounts : countsFor cn chat file p).
    { unfold countsFor. rewrite Hparse. repeat split; auto.
      apply orb_true_iff in Hinc. tauto. }
    destruct (existsb _ acc) eqn:Hdup.
    + split; [auto|]. intros [H|(p' & (Hp & _) & ->)]; [exact H|].
      apply existsb_exists in Hdup as (c0 & Hc0 & Heq).
      apply String.eqb_eq in Heq. apply list_elem_of_In in Hc0.
      destruct (Hwf c0 Hc0) as (p0 & Hp0 & Hc0eq).
      rewrite Heq in Hp0, Hc0eq. rewrite Hc0eq in Hc0.
      replace p' with p0 by congruence. exact Hc0.
    + rewrite elem_of_app, list_elem_of_singleton. split.
      * intros [H| ->]; [auto|]. right. exists p. split; [|reflexivity].
        unfold countsFor in Hcounts. rewrite Hparse in Hcounts. exact Hcounts.
      * intros [H|(p' & (Hp & _) & ->)]; [auto|]. right. congruence.
  - split; [auto|]. intros [H|(p' & (Hp & _ & Hor) & _)]; [exact H|].
    exfalso. apply orb_false_iff in Hinc as [Hi1 Hi2].
    replace p' with p in Hor by congruence.
    destruct Hor as [Hn|[Hn|Hn]]; try congruence.
    destruct (p_characterName p) eqn:Hpn.
    + change (normalizeCharacterName "") with "" in Hn.
      rewrite <- Hn, includes_empty in Hi1. discriminate.
    + change (negb (isEmpty (String a s))) with true in Hname.
      rewrite andb_true_l in Hname. apply String.eqb_neq in Hname. congruence.
Qed.

Lemma collect_wf (acc : list CacheCandidate) (file : ListedFile) :
  (forall c, c ∈ acc ->
     exists p, parseSaveFilename (cc_filename c) = Some p
               /\ c = candidateFor (cc_filename c) p) ->
  forall c,
    c ∈ collectIn cn chat acc {| pf_name := lf_name file; pf_size := lf_size file;
                       parsed := parseSaveFilename (lf_name file) |} ->
    exists p, parseSaveFilename (cc_filename c) = Some p
              /\ c = candidateFor (cc_filename c) p.
Proof.
  intros Hwf c Hc. apply (collect_spec acc file Hwf) in Hc as [Hc|(p & (Hp & _) & ->)].
  - apply Hwf, Hc.
  - exists p. simpl. auto.
Qed.

Lemma collect_all (files : list ListedFile) (acc : list CacheCandidate) :
  (forall c, c ∈ acc ->
     exists p, parseSaveFilename (cc_filename c) = Some p
               /\ c = candidateFor (cc_filename c) p) ->
  forall c,
    c ∈ fold_left (collectIn cn chat) (parseFilesList files parseSaveFilename) acc
    <-> c ∈ acc
        \/ exists file p, file ∈ files /\ countsFor cn chat file p
                          /\ c = candidateFor (lf_name file) p.
Proof.
  revert acc. induction files as [|file files IH]; intros acc Hwf c; simpl.
  - split; [auto|]. intros [H|(f & p & Hf & _)]; [exact H | inversion Hf].
  - rewrite IH by (apply collect_wf, Hwf). rewrite (collect_spec acc file Hwf). split.
    + intros [[H|(p & Hp & ->)]|(f & p & Hf & Hp & ->)]; auto.
      * right. exists file, p. split; [left|]. auto.
      * right. exists f, p. split; [right; exact Hf|]. auto.
    + intros [H|(f & p & Hf & Hp & ->)]; auto.
      apply elem_of_cons in Hf as [->|Hf].
      * left. right. exists p. auto.
      * right. exists f, p. auto.
Qed.
End Collect.

Lemma getLastCacheForCharacter_run env cn w :
  let listing := (getFilesList env w).1 in
  let candidates :=
    fold_left (collectCharacterFile cn (normalizeCharacterName cn) true
                                    (Some (getNormalizedChatId w)))
              (parseFilesList listing parseSaveFilename) [] in
  getLastCacheForCharacter env cn true w =
    (match sortByTimestamp candidateTimestamp candidates true with
     | [] => None
     | lastFile :: _ => Some (cc_filename lastFile)
     end, logEvent EvListFiles w).
Proof.
  cbv zeta. unfold getLastCacheForCharacter, mbind, M_bind.
  rewrite getFilesList_run. cbn [fst snd].
  destruct (if listFilesResponse env (trace w) then _ else []) as [|f files] eqn:Hl.
  - reflexivity.
  - unfold get. cbv beta iota zeta.
    change (getNormalizedChatId (logEvent EvListFiles w)) with (getNormalizedChatId w).
    destruct (sortByTimestamp _ _ _); reflexivity.
Qed.

(** C8, amended: among the listed files that count for the character in the
    current conversation, [getLastCacheForCharacter] returns one of greatest
    timestamp, and [null] exactly when no listed file counts. *)
Theorem last_cache_is_most_recent env cn w :
  let listing := (getFilesList env w).1 in
  let chat := getNormalizedChatId w in
  let result := (getLastCacheForCharacter env cn true w).1 in
  (result = None <-> forall file p, file ∈ listing -> ~ countsFor cn chat file p)
  /\ (forall filename, result = Some filename ->
        exists file p,
          file ∈ listing /\ lf_name file = filename /\ countsFor cn chat file p
          /\ forall file' p', file' ∈ listing -> countsFor cn chat file' p' ->
                              String.le (p_timestamp p') (p_timestamp p)).
Proof.
  intros listing chat result. subst result.
  rewrite getLastCacheForCharacter_run. cbv zeta. fold listing. fold chat. cbn [fst].
  set (candidates := fold_left _ _ []).
  assert (Hmem : forall c, c ∈ candidates <->
            exists file p, file ∈ listing /\ countsFor cn chat file p
                           /\ c = candidateFor (lf_name file) p).
  { intros c. unfold candidates. fold (collectIn cn chat). rewrite collect_all.
    - split; [intros [H|H]; [inversion H | exact H] | auto].
    - intros c0 H0. inversion H0. }
  assert (Hstamped : Forall (stamped candidateTimestamp) candidates).
  { apply Forall_forall. intros c Hc. apply Hmem in Hc as (f & p & _ & (Hp & _) & ->).
    exists (p_timestamp p). split; [reflexivity|].
    apply timestamp_nonempty, (parse_timestamp _ _ Hp). }
  destruct (sortByTimestamp candidateTimestamp candidates true) as [|c rest] eqn:Hsort.
  - apply sort_nil_inv in Hsort. split; [|discriminate]. split; [|reflexivity].
    intros _ file p Hf Hcounts.
    assert (Hin : candidateFor (lf_name file) p ∈ candidates) by (apply Hmem; eauto).
    rewrite Hsort in Hin. inversion Hin.
  - destruct (sort_head_most_recent _ _ _ _ Hstamped Hsort) as [Hc Hmax].
    split.
    + split; [discriminate|]. intros Hnone. exfalso.
      apply Hmem in Hc as (f & p & Hf & Hcounts & _). eapply Hnone; eassumption.
    + intros filename [= <-]. apply Hmem in Hc as (f & p & Hf & Hcounts & ->).
      exists f, p. split; [exact Hf|]. split; [reflexivity|]. split; [exact Hcounts|].
      intros f' p' Hf' Hcounts'.
      apply (Hmax (candidateFor (lf_name f') p')). apply Hmem. eauto.
Qed.

(** ** Rotation *)


Lemma deleteFile_run env fn w :
  deleteFile env fn w =
    (deleteFileResponse env (trace w) fn,
     if deleteFileResponse env (trace w) fn
     then setDisk (List.filter (fun f => negb (String.eqb (name f) fn)) (disk w))
                  (logEvent (EvDeleteFile fn) w)
     else logEvent (EvDeleteFile fn) w).
Proof.
  unfold deleteFile, mbind, M_bind, get, emit, modify. cbv beta iota.
  destruct (deleteFileResponse env (trace w) fn); reflexivity.
Qed.

Lemma isNamedIn_cons (x : ParsedFile) (files : list ParsedFile) (f : FileEntry) :
  isNamedIn (x :: files) f = String.eqb (name f) (pf_name x) || isNamedIn files f.
Proof. reflexivity. Qed.

Lemma isNamedIn_false (files : list ParsedFile) (f : FileEntry) :
  name f ∉ List.map pf_name files -> isNamedIn files f = false.
Proof.
  intros Hnot. unfold isNamedIn. apply not_true_is_false. intros Hex.
  apply existsb_exists in Hex as (n & Hn & Heq). apply String.eqb_eq in Heq.
  apply Hnot. rewrite Heq. apply list_elem_of_In, Hn.
Qed.

Lemma forEach_delete env (files : list ParsedFile) (w : World) :
  let w' := (forEach (fun file => _ ← deleteFile env (pf_name file); mret tt) files w).2 in
  trace w' = trace w ++ deleteRequests files
  /\ (forall f, f ∈ disk w' -> f ∈ disk w)
  /\ (forall f, f ∈ disk w -> isNamedIn files f = false -> f ∈ disk w')
  /\ ((forall h fn, deleteFileResponse env h fn = true) ->
      disk w' = List.filter (fun f => negb (isNamedIn files f)) (disk w)).
Proof.
  revert w. induction files as [|x files IH]; intros w; cbv zeta.
  - simpl. rewrite app_nil_r. repeat split; auto.
    intros _. induction (disk w) as [|f l IHl]; simpl; [reflexivity|].
    f_equal. exact IHl.
  - cbn [forEach]. rewrite bind_run, bind_run, deleteFile_run. cbn [fst snd].
    set (w1 := if deleteFileResponse env (trace w) (pf_name x) then _ else _).
    change ((mret tt : M unit) w1).2 with w1.
    destruct (IH w1) as (Htrace & Hsub & Hkeep & Hall).
    assert (Htrace1 : trace w1 = trace w ++ [EvDeleteFile (pf_name x)]).
    { subst w1. destruct (deleteFileResponse _ _ _); reflexivity. }
    assert (Hsub1 : forall f, f ∈ disk w1 -> f ∈ disk w).
    { subst w1. destruct (deleteFileResponse _ _ _); simpl; [|auto].
      intros f Hf. apply list_elem_of_In, filter_In in Hf as [Hf _].
      apply list_elem_of_In, Hf. }
    assert (Hkeep1 : forall f, f ∈ disk w -> String.eqb (name f) (pf_name x) = false ->
                               f ∈ disk w1).
    { subst w1. destruct (deleteFileResponse _ _ _); simpl; [|auto].
      intros f Hf Hne. apply list_elem_of_In, filter_In. split.
      - apply list_elem_of_In, Hf.
      - rewrite Hne. reflexivity. }
    split; [|split; [|split]].
    + rewrite Htrace, Htrace1, <- app_assoc. reflexivity.
    + auto.
    + intros f Hf Hnot. rewrite isNamedIn_cons in Hnot.
      apply orb_false_iff in Hnot as [Hne Hrest]. auto.
    + intros Hok. rewrite (Hall Hok). subst w1. rewrite Hok. simpl.
      clear. induction (disk w) as [|f l IHl]; simpl; [reflexivity|].
      rewrite isNamedIn_cons.
      destruct (String.eqb (name f) (pf_name x)); simpl; [exact IHl|].
      destruct (isNamedIn files f); simpl; [exact IHl | f_equal; exact IHl].
Qed.

Lemma rotateCharacterFiles_run env cn w :
  cn <> "" ->
  (rotateCharacterFiles env cn w).2 =
    (forEach (fun file => _ ← deleteFile env (pf_name file); mret tt)
             (drop (rotationCap w) (autoSavesOf env cn w))
             (logEvent EvListFiles w)).2.
Proof.
  intros Hcn. unfold rotateCharacterFiles. destruct cn as [|c cn']; [congruence|].
  change (isEmpty (String c cn')) with false. cbv iota.
  unfold mbind at 1. unfold M_bind, get. cbv beta iota.
  unfold rotateFiles. unfold mbind at 1. unfold M_bind, get. cbv beta iota.
  rewrite bind_run. unfold autoSavesOf, rotationCap.
  rewrite getFilesList_run. cbn [fst snd].
  set (sorted := sortByTimestamp _ _ _).
  set (cap := match maxFiles (settings w) with 0 => 10 | S _ as n => n end).
  destruct (cap <? length sorted) eqn:Hlt.
  - reflexivity.
  - apply Nat.ltb_ge in Hlt. rewrite drop_ge by exact Hlt. reflexivity.
Qed.

Lemma literalThenRest_inv (lit s g : string) :
  literalThenRest lit s = Some g -> g <> "".
Proof.
  unfold literalThenRest. destruct (startsWith lit s); [|discriminate].
  destruct (dropChars (String.length lit) s) as [|d r]; simpl; [discriminate|].
  destruct (allChars _ r); [|rewrite andb_false_r; discriminate].
  rewrite andb_true_r. destruct (negb (isLineTerminator d)); [|discriminate].
  intros [= <-]. discriminate.
Qed.

Lemma matchToEnd_literal_inv (lit x m0 g : string) :
  matchToEnd (literalThenRest lit) x = Some (m0, g) -> g <> "".
Proof.
  induction x as [|c x IH]; cbn [matchToEnd].
  - destruct (literalThenRest lit "") as [g0|] eqn:Hhere; [|discriminate].
    intros [= <- <-]. eapply literalThenRest_inv, Hhere.
  - destruct (literalThenRest lit (String c x)) as [g0|] eqn:Hhere; [|exact IH].
    intros [= <- <-]. eapply literalThenRest_inv, Hhere.
Qed.

Lemma parse_tag (s : string) (p : ParsedName) (t : string) :
  parseSaveFilename s = Some p -> p_tag p = Some t -> t <> "".
Proof.
  unfold parseSaveFilename. cbv zeta.
  destruct (matchToEnd (literalThenRest "_character_") (replaceBinExt s)) as [[m0 m1]|];
    [|discriminate].
  destruct (matchToEnd (literalThenRest "_tag_") _) as [[t0 t1]|] eqn:Htag.
  - destruct (matchToEnd underscoreThen14Digits _) as [[s0 s1]|]; [|discriminate].
    intros [= <-]. simpl. intros [= <-]. eapply matchToEnd_literal_inv, Htag.
  - destruct (matchToEnd underscoreThen14Digits _) as [[s0 s1]|]; [|discriminate].
    intros [= <-]. simpl. discriminate.
Qed.

Lemma isAutoSaveOf_inv (chat n : string) (files : list ListedFile) (f : ParsedFile) :
  f ∈ List.filter (isAutoSaveOf chat n) (parseFilesList files parseSaveFilename) ->
  exists p, parseSaveFilename (pf_name f) = Some p /\ parsed f = Some p
            /\ p_tag p = None /\ p_chatId p = chat
            /\ normalizeCharacterName (p_characterName p) = n.
Proof.
  intros Hf. apply list_elem_of_In, filter_In in Hf as [Hin Hauto].
  unfold parseFilesList in Hin. apply in_map_iff in Hin as (lf & <- & _).
  unfold isAutoSaveOf in Hauto. simpl in Hauto |- *.
  destruct (parseSaveFilename (lf_name lf)) as [p|] eqn:Hp; [|discriminate].
  apply andb_true_iff in Hauto as [Hauto Htag].
  apply andb_true_iff in Hauto as [Hchat Hname].
  apply String.eqb_eq in Hchat, Hname. exists p. repeat split; auto.
  destruct (p_tag p) as [t|] eqn:Ht; [|reflexivity].
  exfalso. apply (parse_tag _ _ _ Hp Ht). destruct t; [reflexivity | discriminate].
Qed.

(** C6, amended: after a successful auto-save, rotation lists the files
    once and asks for the deletion of the untagged snapshots of the
    character in the current conversation that come after the first
    [maxFiles] (10 when [maxFiles] is 0) in the order most recent first,
    one request each in that order; nothing else leaves the disk, so a
    snapshot whose parsed name has a tag stays whatever its age; and when
    every deletion succeeds exactly the files so named are gone. *)
Theorem rotation_removes_excess_autosaves env cn w :
  cn <> "" ->
  let chat := getNormalizedChatId w in
  let n := normalizeCharacterName cn in
  let autosaves := autoSavesOf env cn w in
  let excess := drop (rotationCap w) autosaves in
  let w' := (rotateCharacterFiles env cn w).2 in
  autosaves ≡ₚ List.filter (isAutoSaveOf chat n)
                           (parseFilesList (getFilesList env w).1 parseSaveFilename)
  /\ StronglySorted (notOlder parsedTimestamp) autosaves
  /\ (forall kept gone, kept ∈ take (rotationCap w) autosaves -> gone ∈ excess ->
                        notOlder parsedTimestamp kept gone)
  /\ trace w' = trace w ++ EvListFiles :: deleteRequests excess
  /\ (forall f, f ∈ excess ->
        exists p, parseSaveFilename (pf_name f) = Some p /\ p_tag p = None
                  /\ p_chatId p = chat
                  /\ normalizeCharacterName (p_characterName p) = n)
  /\ (forall f, f ∈ disk w' -> f ∈ disk w)
  /\ (forall f, f ∈ disk w -> isNamedIn excess f = false -> f ∈ disk w')
  /\ ((forall h fn, deleteFileResponse env h fn = true) ->
      disk w' = List.filter (fun f => negb (isNamedIn excess f)) (disk w)).
Proof.
  intros Hcn chat n autosaves excess w'.
  assert (Hperm : autosaves ≡ₚ List.filter (isAutoSaveOf chat n)
                    (parseFilesList (getFilesList env w).1 parseSaveFilename))
    by apply sort_perm.
  assert (Hinv : forall f, f ∈ autosaves ->
            exists p, parseSaveFilename (pf_name f) = Some p /\ parsed f = Some p
                      /\ p_tag p = None /\ p_chatId p = chat
                      /\ normalizeCharacterName (p_characterName p) = n).
  { intros f Hf. rewrite Hperm in Hf. eapply isAutoSaveOf_inv, Hf. }
  assert (Hsorted : StronglySorted (notOlder parsedTimestamp) autosaves).
  { apply sort_sorted. apply Forall_forall. intros f Hf.
    apply isAutoSaveOf_inv in Hf as (p & Hp & Hparsed & _).
    exists (p_timestamp p). unfold parsedTimestamp. rewrite Hparsed.
    split; [reflexivity|]. apply timestamp_nonempty, (parse_timestamp _ _ Hp). }
  destruct (forEach_delete env excess (logEvent EvListFiles w))
    as (Htrace & Hsub & Hkeep & Hall).
  subst w'. rewrite rotateCharacterFiles_run by assumption. fold autosaves excess.
  split; [exact Hperm|]. split; [exact Hsorted|].
  split; [intros kept gone; apply sorted_cut; exact Hsorted|].
  split; [rewrite Htrace; simpl; rewrite <- app_assoc; reflexivity|].
  split.
  { intros f Hf. apply subseteq_drop in Hf.
    destruct (Hinv f Hf) as (p & Hp & _ & Htag & Hchat & Hname). eauto. }
  split; [exact Hsub|]. split; [exact Hkeep | exact Hall].
Qed.

(** ** Slot operations leave the control requests alone *)

Lemma slotStep_modify_slots (f : World -> list Slot) :
  keeps slotStep (modify (fun w => setSlotsState (f w) w)).
Proof. intros w; split; reflexivity. Qed.

Lemma slotStep_of_fileStep {A} (m : M A) : keeps fileStep m -> keeps slotStep m.
Proof. intros H w. apply fileStep_slotStep, H. Qed.

Lemma slotStep_emit e : isControl e = false -> keeps slotStep (emit e).
Proof. intros He. apply slotStep_of_fileStep, fileStep_emit, He. Qed.

Lemma slotStep_saveCharacterCache env v i : keeps slotStep (saveCharacterCache env v i).
Proof.
  unfold saveCharacterCache. destruct v as [| | | |s|]; try (apply keeps_ret; tc_solve).
  destruct (isEmpty s); [apply keeps_ret; tc_solve|].
  destruct i as [i|]; [|apply keeps_ret; tc_solve].
  apply keeps_bind; [tc_solve | apply keeps_get; tc_solve | intros w].
  apply keeps_bind; [tc_solve | apply slotStep_of_fileStep, fileStep_saveSlotCache |].
  intros []; [|apply keeps_ret; tc_solve].
  apply keeps_bind; [tc_solve | apply slotStep_of_fileStep, fileStep_rotateCharacterFiles |].
  intros _. apply keeps_bind; [tc_solve | | intros; apply keeps_ret; tc_solve].
  apply (slotStep_modify_slots (fun w' => resetSlotUsage i (slotsState w'))).
Qed.

Lemma slotStep_loadSlotCache env i fn : keeps slotStep (loadSlotCache env i fn).
Proof.
  unfold loadSlotCache.
  apply keeps_bind; [tc_solve | apply keeps_get; tc_solve | intros w].
  apply keeps_bind; [tc_solve | apply slotStep_emit; reflexivity | intros _].
  destruct (restoreSlotResponse _ _ _ _); [|apply keeps_ret; tc_solve].
  apply keeps_bind; [tc_solve | | intros _].
  { apply (slotStep_modify_slots (fun w' => resetSlotUsage i (slotsState w'))). }
  apply keeps_bind; [tc_solve | | intros _; apply keeps_ret; tc_solve].
  apply (slotStep_modify_slots (fun w' => setSlotCacheLoaded i true (slotsState w'))).
Qed.

Lemma slotStep_acquireSlot env cn minUsage : keeps slotStep (acquireSlot env cn minUsage).
Proof.
  unfold acquireSlot.
  apply keeps_bind; [tc_solve | apply keeps_get; tc_solve | intros w].
  destruct (findCharacterSlotIndex _ _); [apply keeps_ret; tc_solve|].
  destruct (findSlot _ _) as [i|].
  { apply keeps_bind; [tc_solve | | intros _; apply keeps_ret; tc_solve].
    apply (slotStep_modify_slots (fun w' => bindSlot i cn (slotsState w'))). }
  destruct (selectVictim _) as [[i victim]|]; [|apply keeps_ret; tc_solve].
  apply keeps_bind; [tc_solve | | intros _].
  { destruct (_ <=? _); [|apply keeps_ret; tc_solve].
    apply keeps_bind; [tc_solve | apply slotStep_saveCharacterCache |].
    intros _. apply keeps_ret; tc_solve. }
  apply keeps_bind; [tc_solve | | intros _; apply keeps_ret; tc_solve].
  apply (slotStep_modify_slots (fun w' => bindSlot i cn (slotsState w'))).
Qed.

Lemma slotStep_interceptor env type : keeps slotStep (KVCacheManagerInterceptor env type).
Proof.
  unfold KVCacheManagerInterceptor.
  destruct (String.eqb type "impersonate"); [apply keeps_ret; tc_solve|].
  apply keeps_bind; [tc_solve | apply keeps_get; tc_solve | intros w].
  destruct (_ && _); [apply keeps_ret; tc_solve|].
  destruct (requestingCharacter type w) as [cn|]; [|apply keeps_ret; tc_solve].
  apply keeps_bind; [tc_solve | apply slotStep_acquireSlot | intros slot].
  apply keeps_bind; [tc_solve | | intros _].
  { intros w'; split; reflexivity. }
  destruct slot as [cs|]; [|apply keeps_ret; tc_solve].
  apply keeps_bind; [tc_solve | apply keeps_get; tc_solve | intros w1].
  apply keeps_bind; [tc_solve | | intros _].
  { destruct (cacheNotLoaded _ _); [|apply keeps_ret; tc_solve].
    apply keeps_bind; [tc_solve | apply slotStep_of_fileStep, fileStep_getLastCacheForCharacter |].
    intros [fn|]; [|apply keeps_ret; tc_solve].
    apply keeps_bind; [tc_solve | apply slotStep_loadSlotCache |].
    intros _. apply keeps_ret; tc_solve. }
  apply (slotStep_modify_slots (fun w' => setGenerationType cs type (slotsState w'))).
Qed.

(** ** The preload batch *)


Lemma bindP_run {A B} (m : P A) (k : A -> P B) (r : Run) :
  (m ≫= k) r = k (m r).1 (m r).2.
Proof. unfold mbind, P_bind. destruct (m r); reflexivity. Qed.

Section Preserves.
Context (J : Run -> Prop).

Lemma preserves_ret {A} (a : A) : preserves J (mret a : P A).
Proof. intros r Hr; exact Hr. Qed.

Lemma preserves_bind {A B} (m : P A) (k : A -> P B) :
  preserves J m -> (forall a, preserves J (k a)) -> preserves J (m ≫= k).
Proof. intros Hm Hk r Hr. rewrite bindP_run. apply Hk, Hm, Hr. Qed.

Lemma preserves_getRun : preserves J getRun.
Proof. intros r Hr; exact Hr. Qed.

Lemma preserves_if {A} (b : bool) (m1 m2 : P A) :
  preserves J m1 -> preserves J m2 -> preserves J (if b then m1 else m2).
Proof. destruct b; auto. Qed.
End Preserves.

Lemma cancelShape_app_quiet (b : bool) (evs : list Event) (e : Event) :
  e <> EvCancelClick -> (b = true -> forall id, e <> EvGenerate id) ->
  cancelShape b evs -> cancelShape b (evs ++ [e]).
Proof.
  intros Hclick Hgen. destruct b; simpl.
  - intros (before & after & -> & Hb & Ha).
    exists before, (after ++ [e]). split; [|split; [exact Hb|]].
    + rewrite <- app_assoc. reflexivity.
    + intros id Hin. apply elem_of_app in Hin as [Hin|Hin]; [eapply Ha, Hin|].
      apply list_elem_of_singleton in Hin. eapply Hgen; eauto.
  - unfold noClick. intros Hno Hin. apply elem_of_app in Hin as [Hin|Hin]; [auto|].
    apply list_elem_of_singleton in Hin. congruence.
Qed.

Section Shape.
Context (env : Backend) (characters : list Character) (start : list Event).

Lemma shape_inWorld {A} (m : M A) :
  keeps slotStep m -> preserves (runShape start) (inWorld m).
Proof.
  intros Hm r (evs & Htrace & Hshape). unfold inWorld.
  pose proof (ss_control _ _ (Hm (world r))) as Hc.
  destruct (m (world r)) as [a w']. simpl in *.
  exists evs. simpl. rewrite Hc. auto.
Qed.

Lemma shape_setCurrentPreloadCharacter n :
  preserves (runShape start) (inWorld (setCurrentPreloadCharacter n)).
Proof. intros r (evs & Htrace & Hshape). exists evs. auto. Qed.

Lemma shape_getCurrentSlot : preserves (runShape start) (inWorld getCurrentSlot).
Proof. intros r (evs & Htrace & Hshape). exists evs. auto. Qed.

Lemma shape_stopGeneration : preserves (runShape start) stopGeneration.
Proof.
  intros r (evs & Htrace & Hshape). exists (evs ++ [EvStopGeneration]). simpl.
  rewrite controlEvents_app, Htrace, <- app_assoc. split; [reflexivity|].
  apply cancelShape_app_quiet; [discriminate | discriminate | exact Hshape].
Qed.

Lemma shape_edit st : preserves (runShape start) (editMessageUsingUpdate st).
Proof. intros r Hr. exact Hr. Qed.

Lemma shape_pushError e : preserves (runShape start) (pushError e).
Proof. intros r Hr. exact Hr. Qed.

Lemma shape_pushPreloaded n : preserves (runShape start) (pushPreloaded n).
Proof. intros r Hr. exact Hr. Qed.

Lemma shape_click b : preserves (runShape start) (click characters b).
Proof.
  destruct b; [|apply preserves_ret]. intros r (evs & Htrace & Hshape).
  unfold click. rewrite bindP_run. unfold handleCancel. rewrite bindP_run.
  simpl. destruct (isCancelled r) eqn:Hc; simpl.
  - exists (evs ++ [EvCancelClick]). simpl.
    rewrite ?Hc, controlEvents_app, Htrace, <- app_assoc.
    split; [reflexivity|]. simpl in Hshape.
    destruct Hshape as (before & after & -> & Hb & Ha).
    exists before, (after ++ [EvCancelClick]). split; [|split; [exact Hb|]].
    + rewrite <- app_assoc. reflexivity.
    + intros id Hin. apply elem_of_app in Hin as [Hin|Hin]; [eapply Ha, Hin|].
      apply list_elem_of_singleton in Hin. discriminate.
  - exists (evs ++ [EvCancelClick; EvStopGeneration]). simpl.
    rewrite !controlEvents_app, Htrace, <- !app_assoc.
    split; [reflexivity|]. simpl. exists evs, []. split; [reflexivity|].
    split; [exact Hshape|]. intros id Hin. inversion Hin.
Qed.

Lemma shape_generate n id (r : Run) :
  isCancelled r = false -> runShape start r ->
  runShape start
    ((inWorld (setCurrentPreloadCharacter n);; inWorld (emit (EvGenerate id)) : P unit) r).2.
Proof.
  intros Hc (evs & Htrace & Hshape). rewrite bindP_run. simpl.
  exists (evs ++ [EvGenerate id]). simpl.
  rewrite Hc, controlEvents_app, Htrace, <- app_assoc.
  split; [reflexivity|]. rewrite Hc in Hshape.
  apply (cancelShape_app_quiet false); [discriminate | discriminate | exact Hshape].
Qed.

Ltac shape_step :=
  lazymatch goal with
  | |- preserves _ (mret _) => apply preserves_ret
  | |- preserves _ getRun => apply preserves_getRun
  | |- preserves _ stopGeneration => apply shape_stopGeneration
  | |- preserves _ (click _ _) => apply shape_click
  | |- preserves _ (editMessageUsingUpdate _) => apply shape_edit
  | |- preserves _ (pushError _) => apply shape_pushError
  | |- preserves _ (pushPreloaded _) => apply shape_pushPreloaded
  | |- preserves _ (inWorld (setCurrentPreloadCharacter _)) =>
      apply shape_setCurrentPreloadCharacter
  | |- preserves _ (inWorld getCurrentSlot) => apply shape_getCurrentSlot
  | |- preserves _ (inWorld (KVCacheManagerInterceptor _ _)) =>
      apply shape_inWorld, slotStep_interceptor
  | |- preserves _ (inWorld (saveCharacterCache _ _ _)) =>
      apply shape_inWorld, slotStep_saveCharacterCache
  | |- preserves _ (generationBlock _ _ _ _ _) => fail
  | |- preserves _ (_ ≫= _) => apply preserves_bind; [|intros ?]
  | |- preserves _ (match ?x with _ => _ end) => destruct x
  end.

Lemma shape_generationBlock character id script :
  preserves (runShape start) (generationBlock env characters character id script).
Proof.
  intros r Hr. unfold generationBlock. rewrite bindP_run.
  change (getRun r) with (r, r). cbn [fst snd].
  destruct (isCancelled r) eqn:Hc.
  - revert r Hr Hc. intros r Hr _. revert r Hr.
    change (preserves (runShape start)
              (inWorld (setCurrentPreloadCharacter None);; mret (inl Break)
               : P (Flow + option string))).
    repeat shape_step.
  - rewrite bindP_run. rewrite bindP_run.
    pose proof (shape_generate (Some (ch_normalizedName character)) id r Hc Hr) as Hgen.
    rewrite bindP_run in Hgen.
    set (r2 := (inWorld (emit (EvGenerate id))
                  (inWorld (setCurrentPreloadCharacter
                              (Some (ch_normalizedName character))) r).2).2) in *.
    revert Hgen. generalize r2. clear. intros r Hr. revert r Hr.
    match goal with
    | |- forall r, runShape start r -> runShape start (?m r).2 =>
        change (preserves (runShape start) m)
    end.
    repeat shape_step.
Qed.

Lemma shape_preloadStep i character script :
  preserves (runShape start) (preloadStep env characters i character script).
Proof.
  unfold preloadStep.
  apply preserves_bind; [apply preserves_getRun | intros r].
  destruct (isCancelled r); [apply preserves_ret|].
  destruct (ch_characterId character) as [[|id]|]; repeat shape_step.
  apply shape_generationBlock.
Qed.

Lemma shape_preloadLoop script i rest :
  preserves (runShape start) (preloadLoop env characters script i rest).
Proof.
  revert i. induction rest as [|character rest IH]; intros i; simpl.
  - apply preserves_ret.
  - apply preserves_bind; [apply shape_preloadStep | intros flow].
    destruct flow; [apply IH | apply preserves_ret].
Qed.
End Shape.

Lemma preloadCharactersCache_run env characters script w :
  inGroupChat w = true -> characters <> [] ->
  let started :=
    {| world := setPreloadFlags true (currentPreloadCharacter w) w;
       isCancelled := false; preloaded := []; errors := [];
       statusMessage :=
         Some (formatPreloadStatus 0 (length characters) [] [] None None false None) |} in
  let r := (preloadLoop env characters script 0 characters started).2 in
  let final :=
    formatPreloadStatus
      (if isCancelled r then length (preloaded r) else length characters)
      (length characters) (preloaded r) (errors r) None None (isCancelled r)
      statusMessageId in
  let w2 := setPreloadFlags false None (world r) in
  preloadCharactersCache env characters script w =
    ((negb (length (preloaded r) =? 0),
      {| world := w2; isCancelled := isCancelled r; preloaded := preloaded r;
         errors := errors r; statusMessage := Some final |}), w2).
Proof.
  intros Hgroup Hne. cbv zeta. destruct characters as [|c cs]; [congruence|].
  unfold preloadCharactersCache, setPreloadingMode, editMessageUsingUpdate.
  unfold mbind, M_bind, P_bind, get, getRun, modify, mret, M_ret, P_ret.
  rewrite Hgroup. change (negb true) with false. cbv beta iota.
  destruct (preloadLoop env (c :: cs) script 0 (c :: cs) _) as [[] r].
  reflexivity.
Qed.

(** C4: in every preload batch, whatever the user and the generations do,
    the control requests the batch adds are of one of two shapes.  Either
    there is no cancel click among them and the batch ends with the flag
    down; or the flag is up, the first click is followed at once by the
    abort of the generation in flight, no generation is issued after that
    click, and the final status message marks the operation cancelled. *)
Theorem cancel_ends_the_batch env characters script w :
  let finished := (preloadCharactersCache env characters script w).1.2 in
  exists evs,
    controlEvents (trace (world finished)) = controlEvents (trace w) ++ evs
    /\ if isCancelled finished then
         (exists before after,
            evs = before ++ EvCancelClick :: EvStopGeneration :: after
            /\ noClick before /\ noGenerate after)
         /\ (exists st, statusMessage finished = Some st /\ st_cancelled st = true)
       else noClick evs.
Proof.
  cbv zeta. destruct (inGroupChat w) eqn:Hgroup.
  2:{ unfold preloadCharactersCache, mbind, M_bind, get. cbv beta iota.
      rewrite Hgroup. simpl. exists []. rewrite app_nil_r. split; [reflexivity|].
      intros Hin. inversion Hin. }
  destruct characters as [|c cs] eqn:Hcs.
  { unfold preloadCharactersCache, mbind, M_bind, get. cbv beta iota.
    rewrite Hgroup. simpl. exists []. rewrite app_nil_r. split; [reflexivity|].
    intros Hin. inversion Hin. }
  rewrite <- Hcs.
  rewrite preloadCharactersCache_run; [|assumption|rewrite Hcs; discriminate].
  cbv zeta. cbn [fst snd world isCancelled statusMessage].
  set (started := {| world := setPreloadFlags true (currentPreloadCharacter w) w;
                     isCancelled := false; preloaded := []; errors := [];
                     statusMessage := _ |}).
  assert (Hstart : runShape (controlEvents (trace w)) started).
  { exists []. simpl. rewrite app_nil_r. split; [reflexivity|].
    intros Hin. inversion Hin. }
  apply (shape_preloadLoop env characters _ script 0 characters) in Hstart.
  destruct Hstart as (evs & Htrace & Hshape).
  exists evs. split; [exact Htrace|].
  destruct (isCancelled _) eqn:Hc; simpl in Hshape |- *.
  - split; [exact Hshape|]. eexists. split; [reflexivity|]. reflexivity.
  - exact Hshape.
Qed.

(** ** A batch in which a generation times out *)


Lemma isTimeout_timeoutMessage (minutes : nat) :
  isTimeout (timeoutMessage minutes) = true.
Proof. reflexivity. Qed.

Lemma triple_ret {A} (Pre : Run -> Prop) (a : A) (Post : A -> Run -> Prop) :
  (forall r, Pre r -> Post a r) -> triple Pre (mret a) Post.
Proof. intros H r Hr. apply H, Hr. Qed.

Lemma triple_bind {A B} (Pre : Run -> Prop) (Mid : A -> Run -> Prop)
    (Post : B -> Run -> Prop) (m : P A) (k : A -> P B) :
  triple Pre m Mid -> (forall a, triple (Mid a) (k a) Post) -> triple Pre (m ≫= k) Post.
Proof. intros Hm Hk r Hr. rewrite bindP_run. apply Hk, Hm, Hr. Qed.

Lemma triple_getRun {A} (Pre : Run -> Prop) (k : Run -> P A) (Post : A -> Run -> Prop) :
  (forall r0, Pre r0 -> triple (fun r => r = r0) (k r0) Post) ->
  triple Pre (getRun ≫= k) Post.
Proof. intros H r Hr. rewrite bindP_run. apply (H r Hr). reflexivity. Qed.

Lemma triple_pre {A} (Pre Pre' : Run -> Prop) (m : P A) (Post : A -> Run -> Prop) :
  triple Pre' m Post -> (forall r, Pre r -> Pre' r) -> triple Pre m Post.
Proof. intros Hm Himp r Hr. apply Hm, Himp, Hr. Qed.

Lemma triple_post {A} (Pre : Run -> Prop) (m : P A) (Post Post' : A -> Run -> Prop) :
  triple Pre m Post -> (forall a r, Post a r -> Post' a r) -> triple Pre m Post'.
Proof. intros Hm Himp r Hr. apply Himp, Hm, Hr. Qed.

Lemma triple_and_pre {A} (Q : Prop) (Pre : Run -> Prop) (m : P A)
    (Post : A -> Run -> Prop) :
  (Q -> triple Pre m Post) -> triple (fun r => Q /\ Pre r) m Post.
Proof. intros H r [HQ Hr]. apply (H HQ), Hr. Qed.

Lemma triple_exists_pre {A X} (Pre : X -> Run -> Prop) (m : P A)
    (Post : A -> Run -> Prop) :
  (forall x, triple (Pre x) m Post) -> triple (fun r => exists x, Pre x r) m Post.
Proof. intros H r [x Hr]. apply (H x), Hr. Qed.

Section QuietSteps.
Context (env : Backend) (characters : list Character).
Context (ctrl : list Event) (done failed : list string).





End QuietSteps.

Section QuietStep.
Context (env : Backend) (characters : list Character).



End QuietStep.


Lemma generationsOf_app (tr1 tr2 : list Event) :
  generationsOf (tr1 ++ tr2) = generationsOf tr1 ++ generationsOf tr2.
Proof. apply omap_app. Qed.

Lemma generationsOf_control (tr : list Event) :
  generationsOf (controlEvents tr) = generationsOf tr.
Proof.
  induction tr as [|e tr IH]; [reflexivity|].
  destruct e; simpl; rewrite ?IH; reflexivity.
Qed.


(** ** The statements at work *)




(** C6, counterexample: three auto-saves of Bob and a cap of 1.  The claim
    has the excess deleted oldest first, and exactly [maxFiles] auto-saves
    kept.  The code asks for the deletion of the newer excess file first;
    with a plugin that refuses to delete, all three stay; and with
    [maxFiles = 0] the cap is 10 and nothing is deleted. *)
Lemma rotation_is_newest_first_and_may_keep_more :
  trace (rotateCharacterFiles helpfulServer "Bob"
           (exampleWorld [] bobsFiles 1)).2
  = [EvListFiles;
     EvDeleteFile "chat_20240101000002_character_Bob.bin";
     EvDeleteFile "chat_20240101000001_character_Bob.bin"]
  /\ disk (rotateCharacterFiles stubbornServer "Bob"
             (exampleWorld [] bobsFiles 1)).2 = bobsFiles
  /\ disk (rotateCharacterFiles helpfulServer "Bob"
             (exampleWorld [] bobsFiles 0)).2 = bobsFiles.
Proof. vm_compute. repeat split. Qed.

(** C6, witness *)
Lemma rotation_example :
  disk (rotateCharacterFiles helpfulServer "Bob" (exampleWorld [] bobsFiles 1)).2
  = [snapshot "chat_20240101000003_character_Bob.bin";
     snapshot "chat_20230101000000_tag_keep_character_Bob.bin"].
Proof.
  pose proof (rotation_removes_excess_autosaves helpfulServer "Bob"
                (exampleWorld [] bobsFiles 1) ltac:(discriminate)) as H.
  cbv zeta in H. destruct H as (_ & _ & _ & _ & _ & _ & _ & Hall).
  rewrite Hall by reflexivity. reflexivity.
Defined.

(** C7, counterexample: a chat id that ends in [_tag], and a tag that
    contains [_character_].  The normalized chat id and character name
    contain neither [_character_] nor [_tag_], the timestamp has 14 digits;
    yet the first name does not parse, and the second parses to another
    tag and another character name. *)
Lemma roundtrip_fails_on_ambiguous_names :
  includes "_character_" (normalizeChatId "x_tag") = false
  /\ includes "_tag_" (normalizeChatId "x_tag") = false
  /\ includes "_character_" (normalizeCharacterName "Bob") = false
  /\ includes "_tag_" (normalizeCharacterName "Bob") = false
  /\ isTimestamp "20240101123000" = true
  /\ parseSaveFilename (generateSaveFilename "x_tag" "20240101123000" "Bob" None) = None
  /\ parseSaveFilename
       (generateSaveFilename "x" "20240101123000" "Bob" (Some "a_character_b"))
     = Some {| p_chatId := "x"; p_timestamp := "20240101123000"; p_tag := Some "a";
               p_characterName := "b_character_Bob" |}.
Proof. vm_compute. repeat split. Qed.

(** C7, witness *)
Lemma roundtrip_example :
  parseSaveFilename (generateSaveFilename "my chat" "20240101123000" "Bob" (Some "a tag"))
  = Some {| p_chatId := "my_chat"; p_timestamp := "20240101123000";
            p_tag := Some "a_tag"; p_characterName := "Bob" |}.
Proof.
  apply (parse_of_generated_filename "my chat" "20240101123000" "Bob" (Some "a tag"));
    try reflexivity; try discriminate.
  intros t [= <-]. reflexivity.
Defined.

(** C8, counterexample: the character [Al] has one snapshot, and there is a
    more recent one of [Alice].  The claim has [Al]'s snapshot returned;
    the code returns the one of [Alice], whose file name contains [Al].
    Asked for [Ali], who has no snapshot, it returns that one too, not
    [null]. *)
Lemma last_cache_may_be_of_another_character :
  (getLastCacheForCharacter helpfulServer "Al" true
     (exampleWorld []
        [snapshot "chat_20240101000000_character_Al.bin";
         snapshot "chat_20240102000000_character_Alice.bin"] 10)).1
  = Some "chat_20240102000000_character_Alice.bin"
  /\ (getLastCacheForCharacter helpfulServer "Ali" true
        (exampleWorld [] [snapshot "chat_20240102000000_character_Alice.bin"] 10)).1
     = Some "chat_20240102000000_character_Alice.bin".
Proof. vm_compute. repeat split. Qed.


(** C3, witness: Bob holds slot 0 with its cache loaded. *)
Lemma no_restore_example :
  trace (KVCacheManagerInterceptor helpfulServer "normal"
           (exampleWorld [warmSlot "Bob"] bobsFiles 10)).2 = [].
Proof.
  pose proof (no_restore_when_cache_loaded helpfulServer "normal"
                (exampleWorld [warmSlot "Bob"] bobsFiles 10) "Bob" 0 (warmSlot "Bob")
                eq_refl eq_refl eq_refl) as H.
  cbv zeta in H. specialize (H eq_refl eq_refl eq_refl).
  destruct H as (Htrace & _). exact Htrace.
Defined.


(** C9, witness *)
Lemma impersonate_example :
  KVCacheManagerInterceptor helpfulServer "impersonate"
    (exampleWorld [freeSlot] [] 10)
  = (tt, exampleWorld [freeSlot] [] 10).
Proof.
  apply interceptor_skips_impersonate_and_idle_quiet. left. reflexivity.
Defined.

(** C10, witness *)
Lemma save_without_slot_example :
  saveCharacterCache helpfulServer (JsStr "Bob") None (exampleWorld [freeSlot] [] 10)
  = (false, exampleWorld [freeSlot] [] 10).
Proof.
  apply saveCharacterCache_guards. right. reflexivity.
Defined.

(** ** Timestamps of dates *)

Lemma below_forallb (p : nat -> bool) (lo n : nat) :
  forallb p (seq lo n) = true -> forall k, lo <= k < lo + n -> p k = true.
Proof.
  intros Hall k Hk. rewrite forallb_forall in Hall. apply Hall, in_seq. exact Hk.
Qed.

Lemma sameComparison_eq (c1 c2 : comparison) : sameComparison c1 c2 = true -> c1 = c2.
Proof. destruct c1, c2; simpl; congruence. Qed.

Lemma padStart_pairDigits (n : nat) :
  n < 100 ->
  Timestamps.padStart 2 "0" (Timestamps.integerToString (Z.of_nat n)) = pairDigits n.
Proof.
  intros Hn.
  apply String.eqb_eq.
  apply (below_forallb
           (fun k => String.eqb (Timestamps.padStart 2 "0"
                                   (Timestamps.integerToString (Z.of_nat k)))
                                (pairDigits k)) 0 100); [|lia].
  vm_compute. reflexivity.
Qed.

Lemma year_pairDigits (y : Z) :
  (1000 <= y <= 9999)%Z ->
  Timestamps.integerToString y
  = pairDigits (Z.to_nat y / 100) +:+ pairDigits (Z.to_nat y mod 100).
Proof.
  intros Hy. rewrite <- (Z2Nat.id y) at 1 by lia.
  apply String.eqb_eq.
  apply (below_forallb
           (fun k => String.eqb (Timestamps.integerToString (Z.of_nat k))
                                (pairDigits (k / 100) +:+ pairDigits (k mod 100)))
           1000 (90 * 100)); [|lia].
  vm_compute. reflexivity.
Qed.

Lemma pairDigits_digits (n : nat) :
  n < 100 -> allChars isDigit (pairDigits n) = true.
Proof.
  intros Hn.
  apply (below_forallb (fun k => allChars isDigit (pairDigits k)) 0 100); [|lia].
  vm_compute. reflexivity.
Qed.

Lemma allChars_append (p : ascii -> bool) (a b : string) :
  allChars p (a +:+ b) = allChars p a && allChars p b.
Proof.
  induction a as [|c a IH]; simpl; [reflexivity|].
  rewrite IH, andb_assoc. reflexivity.
Qed.

Lemma compare_pairDigits (a b : nat) (s t : string) :
  a < 100 -> b < 100 ->
  String.compare (pairDigits a +:+ s) (pairDigits b +:+ t)
  = lexicographic (a ?= b) (String.compare s t).
Proof.
  intros Ha Hb.
  assert (Hcheck :
    forallb (fun i =>
      forallb (fun j =>
        sameComparison
          (lexicographic (Ascii.compare (digitChar (i / 10)) (digitChar (j / 10)))
                         (Ascii.compare (digitChar (i mod 10)) (digitChar (j mod 10))))
          (i ?= j))
        (seq 0 100)) (seq 0 100) = true) by (vm_compute; reflexivity).
  pose proof (below_forallb _ 0 100 Hcheck a ltac:(lia)) as Hrow. cbv beta in Hrow.
  pose proof (below_forallb _ 0 100 Hrow b ltac:(lia)) as Hlex. cbv beta in Hlex.
  apply sameComparison_eq in Hlex.
  unfold pairDigits. cbn [String.append String.compare].
  rewrite <- Hlex. unfold lexicographic.
  destruct (Ascii.compare (digitChar (a / 10)) (digitChar (b / 10))); try reflexivity.
  destruct (Ascii.compare (digitChar (a mod 10)) (digitChar (b mod 10))); reflexivity.
Qed.

Lemma formatTimestamp_digits (d : Timestamps.JsDate) :
  calendarDate d ->
  Timestamps.formatTimestamp d
  = pairDigits (Z.to_nat (Timestamps.getFullYear d) / 100)
    +:+ pairDigits (Z.to_nat (Timestamps.getFullYear d) mod 100)
    +:+ pairDigits (Timestamps.getMonth d + 1)
    +:+ pairDigits (Timestamps.getDate d)
    +:+ pairDigits (Timestamps.getHours d)
    +:+ pairDigits (Timestamps.getMinutes d)
    +:+ pairDigits (Timestamps.getSeconds d) +:+ "".
Proof.
  intros (Hy & Hm & Hd & Hh & Hmi & Hs). unfold Timestamps.formatTimestamp. cbv zeta.
  rewrite (year_pairDigits _ Hy), !padStart_pairDigits by lia.
  rewrite append_assoc, (append_empty_r (pairDigits (Timestamps.getSeconds d))).
  reflexivity.
Qed.

Lemma year_order (y1 y2 : Z) (c : comparison) :
  (1000 <= y1 <= 9999)%Z -> (1000 <= y2 <= 9999)%Z ->
  lexicographic (Z.to_nat y1 / 100 ?= Z.to_nat y2 / 100)
    (lexicographic (Z.to_nat y1 mod 100 ?= Z.to_nat y2 mod 100) c)
  = lexicographic (y1 ?= y2)%Z c.
Proof.
  intros H1 H2.
  pose proof (Nat.div_mod_eq (Z.to_nat y1) 100) as E1.
  pose proof (Nat.div_mod_eq (Z.to_nat y2) 100) as E2.
  pose proof (Nat.mod_upper_bound (Z.to_nat y1) 100 ltac:(lia)) as B1.
  pose proof (Nat.mod_upper_bound (Z.to_nat y2) 100 ltac:(lia)) as B2.
  destruct (Nat.compare_spec (Z.to_nat y1 / 100) (Z.to_nat y2 / 100)) as [Hq|Hq|Hq];
    destruct (Nat.compare_spec (Z.to_nat y1 mod 100) (Z.to_nat y2 mod 100)) as [Hr|Hr|Hr];
    destruct (Z.compare_spec y1 y2) as [Hc|Hc|Hc]; simpl; try reflexivity; exfalso; lia.
Qed.

(** X1: the timestamp of a date of the calendar with a four-digit year is
    made of fourteen digits, which is what [parseSaveFilename] looks for in
    a file name. *)
Theorem formatTimestamp_fourteen_digits (d : Timestamps.JsDate) :
  calendarDate d -> isTimestamp (Timestamps.formatTimestamp d) = true.
Proof.
  intros Hd. rewrite (formatTimestamp_digits d Hd).
  destruct Hd as (Hy & Hm & Hd & Hh & Hmi & Hs).
  unfold isTimestamp. apply andb_true_iff. split.
  - reflexivity.
  - rewrite !allChars_append, !pairDigits_digits; try reflexivity; try lia.
    + apply Nat.mod_upper_bound. lia.
    + apply Nat.Div0.div_lt_upper_bound. lia.
Qed.

(** X2: on dates of the calendar with four-digit years, the comparison of
    the timestamps that [sortByTimestamp] makes is the order of the dates
    in time. *)
Theorem timestamps_order_as_dates (a b : Timestamps.JsDate) :
  calendarDate a -> calendarDate b ->
  localeCompare (Timestamps.formatTimestamp a) (Timestamps.formatTimestamp b)
  = compareDates a b.
Proof.
  intros Ha Hb. unfold localeCompare.
  rewrite (formatTimestamp_digits a Ha), (formatTimestamp_digits b Hb).
  destruct Ha as (Hya & Hma & Hda & Hha & Hmia & Hsa).
  destruct Hb as (Hyb & Hmb & Hdb & Hhb & Hmib & Hsb).
  rewrite !compare_pairDigits; try lia;
    try (apply Nat.mod_upper_bound; lia);
    try (apply Nat.Div0.div_lt_upper_bound; lia).
  rewrite year_order by assumption. unfold compareDates.
  rewrite !Nat.add_1_r, Nat.compare_succ.
  change (String.compare "" "") with Eq.
  destruct (Timestamps.getSeconds a ?= Timestamps.getSeconds b); reflexivity.
Qed.

(** ** Normalized names and parsed names *)

Lemma normalizeChar_safe (c : ascii) : isSafeChar (normalizeChar c) = true.
Proof. unfold normalizeChar. destruct (isSafeChar c) eqn:Hc; [exact Hc | reflexivity]. Qed.

Lemma mapChars_safe (s : string) :
  allChars isSafeChar s = true -> mapChars normalizeChar s = s.
Proof.
  induction s as [|c s IH]; simpl; [reflexivity|].
  intros [Hc Hs]%andb_true_iff. rewrite (IH Hs). unfold normalizeChar. rewrite Hc.
  reflexivity.
Qed.

Lemma length_mapChars (f : ascii -> ascii) (s : string) :
  String.length (mapChars f s) = String.length s.
Proof. induction s as [|c s IH]; simpl; [reflexivity | rewrite IH; reflexivity]. Qed.

Lemma normalizeString_safe (s d : string) :
  allChars isSafeChar d = true -> allChars isSafeChar (normalizeString s d) = true.
Proof.
  intros Hd. unfold normalizeString. destruct (isEmpty s); [exact Hd|].
  apply allChars_normalized.
Qed.

Lemma normalizeString_fixed (s d : string) :
  s <> "" -> allChars isSafeChar s = true -> normalizeString s d = s.
Proof.
  intros Hs Hsafe. unfold normalizeString. destruct s; [congruence|].
  change (isEmpty (String a s)) with false. cbv iota.
  apply (mapChars_safe (String a s) Hsafe).
Qed.

(** X3: normalizing a character name or a chat id gives a string over
    [[a-zA-Z0-9_-]] that normalizing again leaves as it is, so the second
    normalization that [rotateCharacterFiles], [getLastCacheForCharacter]
    and [incrementMessageCounter] apply to a name that is already
    normalized changes nothing; a name that is not empty keeps its
    length. *)
Theorem normalization_is_idempotent (s : string) :
  normalizeCharacterName (normalizeCharacterName s) = normalizeCharacterName s
  /\ normalizeChatId (normalizeChatId s) = normalizeChatId s
  /\ allChars isSafeChar (normalizeCharacterName s) = true
  /\ allChars isSafeChar (normalizeChatId s) = true
  /\ (s <> "" ->
      String.length (normalizeCharacterName s) = String.length s
      /\ String.length (normalizeChatId s) = String.length s).
Proof.
  assert (Hname : allChars isSafeChar (normalizeCharacterName s) = true)
    by (apply normalizeString_safe; reflexivity).
  assert (Hchat : allChars isSafeChar (normalizeChatId s) = true)
    by (apply normalizeString_safe; reflexivity).
  repeat split; try assumption.
  - unfold normalizeCharacterName at 1 3. destruct s as [|c s]; [reflexivity|].
    apply normalizeString_fixed; [|exact Hname].
    unfold normalizeCharacterName, normalizeString. simpl. discriminate.
  - unfold normalizeChatId at 1 3. destruct s as [|c s]; [reflexivity|].
    apply normalizeString_fixed; [|exact Hchat].
    unfold normalizeChatId, normalizeString. simpl. discriminate.
  - destruct s as [|c s]; [congruence|].
    apply (length_mapChars _ (String c s)).
  - destruct s as [|c s]; [congruence|].
    apply (length_mapChars _ (String c s)).
Qed.

(** *** What a match tells about the text *)

Lemma matchToEnd_inv (here : string -> option string) (s m0 g : string) :
  matchToEnd here s = Some (m0, g) ->
  exists pre, s = pre +:+ m0 /\ here m0 = Some g.
Proof.
  induction s as [|c s IH]; cbn [matchToEnd].
  - destruct (here "") as [g0|] eqn:Hhere; [|discriminate].
    intros [= <- <-]. exists "". split; [reflexivity | exact Hhere].
  - destruct (here (String c s)) as [g0|] eqn:Hhere.
    + intros [= <- <-]. exists "". split; [reflexivity | exact Hhere].
    + intros Hm. destruct (IH Hm) as (pre & -> & Hg).
      exists (String c pre). split; [reflexivity | exact Hg].
Qed.

Lemma startsWith_inv (p s : string) :
  startsWith p s = true -> s = p +:+ dropChars (String.length p) s.
Proof.
  revert s. induction p as [|a p IH]; intros s; simpl; [reflexivity|].
  destruct s as [|b s]; [discriminate|].
  intros [Hab Hp]%andb_true_iff. apply Ascii.eqb_eq in Hab as ->.
  rewrite <- (IH s Hp). reflexivity.
Qed.

Lemma literalThenRest_shape (lit s g : string) :
  literalThenRest lit s = Some g ->
  s = lit +:+ g /\ g <> "" /\ allChars notLineTerminator g = true.
Proof.
  unfold literalThenRest. destruct (startsWith lit s) eqn:Hstart; [|discriminate].
  destruct (negb (isEmpty _) && allChars _ _) eqn:Hrest; [|discriminate].
  intros [= <-]. apply andb_true_iff in Hrest as [Hne Hall].
  split; [apply startsWith_inv, Hstart|]. split; [|exact Hall].
  intros Hempty. rewrite Hempty in Hne. discriminate.
Qed.

Lemma underscoreThen14Digits_shape (s g : string) :
  underscoreThen14Digits s = Some g -> s = String "_" g.
Proof.
  destruct s as [|c rest]; simpl; [discriminate|].
  destruct (Ascii.eqb c "_") eqn:Hc; simpl; [|discriminate].
  destruct ((String.length rest =? 14) && allChars isDigit rest); [|discriminate].
  intros [= <-]. apply Ascii.eqb_eq in Hc as ->. reflexivity.
Qed.

Lemma includes_append (p pre rest : string) :
  startsWith p rest = true -> includes p (pre +:+ rest) = true.
Proof.
  intros Hstart. induction pre as [|c pre IH]; simpl.
  - destruct rest; simpl in *; rewrite Hstart; reflexivity.
  - rewrite IH. apply orb_true_r.
Qed.

(** The text of a parsed name before the extension. *)
Lemma parse_shape (filename : string) (p : ParsedName) :
  parseSaveFilename filename = Some p ->
  replaceBinExt filename
  = p_chatId p +:+ "_" +:+ p_timestamp p
    +:+ match p_tag p with Some t => "_tag_" +:+ t | None => "" end
    +:+ "_character_" +:+ p_characterName p
  /\ p_characterName p <> ""
  /\ allChars notLineTerminator (p_characterName p) = true.
Proof.
  unfold parseSaveFilename. cbv zeta.
  destruct (matchToEnd (literalThenRest "_character_") (replaceBinExt filename))
    as [[c0 c1]|] eqn:Hc; [|discriminate].
  apply matchToEnd_inv in Hc as (before & Hname & Hc).
  apply literalThenRest_shape in Hc as (-> & Hne & Hall).
  rewrite Hname. rewrite sliceOffEnd_append by discriminate.
  destruct (matchToEnd (literalThenRest "_tag_") before) as [[t0 t1]|] eqn:Ht.
  - apply matchToEnd_inv in Ht as (before' & -> & Ht).
    apply literalThenRest_shape in Ht as (-> & _ & _).
    rewrite sliceOffEnd_append by discriminate.
    destruct (matchToEnd underscoreThen14Digits before') as [[s0 s1]|] eqn:Hs;
      [|discriminate].
    apply matchToEnd_inv in Hs as (chat & -> & Hs).
    apply underscoreThen14Digits_shape in Hs as ->.
    rewrite sliceOffEnd_append by discriminate.
    intros [= <-]. cbn [p_chatId p_timestamp p_tag p_characterName].
    split; [|split; assumption].
    rewrite !append_assoc. reflexivity.
  - destruct (matchToEnd underscoreThen14Digits before) as [[s0 s1]|] eqn:Hs;
      [|discriminate].
    apply matchToEnd_inv in Hs as (chat & -> & Hs).
    apply underscoreThen14Digits_shape in Hs as ->.
    rewrite sliceOffEnd_append by discriminate.
    intros [= <-]. cbn [p_chatId p_timestamp p_tag p_characterName].
    split; [|split; assumption].
    rewrite !append_assoc. reflexivity.
Qed.

Lemma replaceBinExt_cases (s : string) :
  (replaceBinExt s = s /\ endsWith ".bin" s = false)
  \/ (s = replaceBinExt s +:+ ".bin" /\ endsWith ".bin" s = true).
Proof.
  induction s as [|c s IH]; [left; split; reflexivity|].
  unfold replaceBinExt; fold replaceBinExt.
  destruct (String.eqb_spec (String c s) ".bin") as [Heq|Hne].
  - right. rewrite Heq. split; reflexivity.
  - assert (Hends : endsWith ".bin" (String c s) = endsWith ".bin" s).
    { unfold endsWith. cbn [String.length].
      destruct (String.length s) as [|[|[|[|n]]]] eqn:Hlen.
      - reflexivity.
      - reflexivity.
      - reflexivity.
      - cbn [Nat.leb Nat.sub dropChars andb].
        destruct (String.eqb_spec (String c s) ".bin") as [Heq|_]; [congruence|].
        reflexivity.
      - change (4 <=? S (S (S (S (S n))))) with true.
        change (4 <=? S (S (S (S n)))) with true.
        replace (S (S (S (S (S n)))) - 4) with (S n) by lia.
        replace (S (S (S (S n))) - 4) with n by lia. reflexivity. }
    rewrite Hends. destruct IH as [[IH He]|[IH He]].
    + left. rewrite IH. split; [reflexivity | exact He].
    + right. split; [|exact He]. cbn [String.append]. rewrite <- IH. reflexivity.
Qed.

Lemma includes_prefix (p a b : string) :
  includes p a = true -> includes p (a +:+ b) = true.
Proof.
  assert (Hstart : forall q x, startsWith q x = true -> startsWith q (x +:+ b) = true).
  { induction q as [|c q IHq]; intros x; simpl; [reflexivity|].
    destruct x as [|d x]; [discriminate|]. simpl.
    intros [Hc Hq]%andb_true_iff. rewrite Hc, (IHq x Hq). reflexivity. }
  induction a as [|c a IH].
  - simpl. rewrite orb_false_r. intros H. destruct p; [|discriminate].
    apply includes_empty.
  - change (includes p (String c a))
      with (startsWith p (String c a) || includes p a).
    change (includes p (String c a +:+ b))
      with (startsWith p (String c a +:+ b) || includes p (a +:+ b)).
    intros [H|H]%orb_true_iff.
    + rewrite (Hstart _ (String c a) H). reflexivity.
    + rewrite (IH H). apply orb_true_r.
Qed.

(** X4: whatever name [parseSaveFilename] accepts, the timestamp it
    returns is made of fourteen digits, the character name is not empty and
    holds no line terminator, and the tag is never the empty string: it is
    [null] or a text.  So the default ['Unknown'] of
    [groupFilesByChatAndCharacter] is never taken, and [!file.parsed.tag]
    holds exactly for the names without a tag. *)
Theorem parsed_fields_are_well_formed (filename : string) (p : ParsedName) :
  parseSaveFilename filename = Some p ->
  isTimestamp (p_timestamp p) = true
  /\ p_characterName p <> ""
  /\ allChars notLineTerminator (p_characterName p) = true
  /\ p_tag p <> Some "".
Proof.
  intros Hp. split; [eapply parse_timestamp, Hp|].
  destruct (parse_shape _ _ Hp) as (_ & Hne & Hall).
  split; [exact Hne|]. split; [exact Hall|].
  intros Htag. exact (parse_tag _ _ _ Hp Htag eq_refl).
Qed.

(** X5: parsing loses nothing.  The name without its extension is the
    parsed chat id, [_], the timestamp, [_tag_] and the tag when there is
    one, [_character_] and the character name; and when the name ends in
    [.bin] and the parsed chat id and tag are normalized already,
    [generateSaveFilename] builds the very same name from the parsed
    fields. *)
Theorem parsed_name_regenerates (filename : string) (p : ParsedName) :
  parseSaveFilename filename = Some p ->
  replaceBinExt filename
  = p_chatId p +:+ "_" +:+ p_timestamp p
    +:+ match p_tag p with Some t => "_tag_" +:+ t | None => "" end
    +:+ "_character_" +:+ p_characterName p
  /\ (endsWith ".bin" filename = true ->
      normalizeChatId (p_chatId p) = p_chatId p ->
      (forall t, p_tag p = Some t -> normalizeString t "" = t) ->
      generateSaveFilename (p_chatId p) (p_timestamp p) (p_characterName p) (p_tag p)
      = filename).
Proof.
  intros Hp. destruct (parse_shape _ _ Hp) as (Hshape & _ & _).
  split; [exact Hshape|]. intros Hbin Hchat Htag.
  destruct (replaceBinExt_cases filename) as [[_ Hno]|[Hname _]]; [congruence|].
  rewrite Hname, Hshape. unfold generateSaveFilename. cbv zeta.
  rewrite Hchat. destruct (p_tag p) as [t|] eqn:Ht; cbn [truthyTag].
  - destruct t as [|a t]; [exfalso; exact (parse_tag _ _ _ Hp Ht eq_refl)|].
    change (isEmpty (String a t)) with false. cbv iota.
    rewrite (Htag _ eq_refl). rewrite !append_assoc. reflexivity.
  - rewrite !append_assoc. reflexivity.
Qed.

(** X6: a name that does not contain [_character_] is not parsed, with or
    without the extension; the names of the old format,
    [{chatId}_{timestamp}_slot{slotId}.bin], are among them. *)
Theorem unmarked_name_is_rejected (filename : string) :
  includes "_character_" filename = false -> parseSaveFilename filename = None.
Proof.
  intros Hno. destruct (parseSaveFilename filename) as [p|] eqn:Hp; [|reflexivity].
  exfalso. destruct (parse_shape _ _ Hp) as (Hshape & _ & _).
  assert (Hin : includes "_character_" (replaceBinExt filename) = true).
  { rewrite Hshape.
    rewrite <- (append_assoc (p_chatId p) "_"), <- (append_assoc _ (p_timestamp p)).
    rewrite <- append_assoc.
    apply includes_append, startsWith_append. }
  destruct (replaceBinExt_cases filename) as [[Hsame _]|[Hname _]].
  - rewrite Hsame in Hin. congruence.
  - rewrite Hname in Hno. rewrite (includes_prefix _ _ _ Hin) in Hno. discriminate.
Qed.

(** ** Writing and validating a snapshot *)

Lemma validateCacheFile_run env filename w :
  validateCacheFile env filename w =
    let w1 := logEvent EvListFiles w in
    match List.find (fun file => String.eqb (lf_name file) filename)
                    (getFilesList env w).1 with
    | Some savedFile =>
        if lf_size savedFile <? MIN_FILE_SIZE_BYTES (settings w)
        then (false, (deleteFile env filename w1).2)
        else (true, w1)
    | None => (true, w1)
    end.
Proof.
  unfold validateCacheFile. rewrite bind_run. rewrite getFilesList_run.
  cbn [fst snd]. unfold mbind at 1. unfold M_bind, get. cbv beta iota zeta.
  change (settings (logEvent EvListFiles w)) with (settings w).
  destruct (List.find _ _) as [savedFile|]; [|reflexivity].
  destruct (lf_size savedFile <? _); [|reflexivity].
  rewrite bind_run. reflexivity.
Qed.

Lemma saveSlotCache_run env slotId filename cn w :
  saveSlotCache env slotId filename cn w =
    match saveSlotResponse env (trace w) slotId filename with
    | Some bytes =>
        validateCacheFile env filename
          (setDisk (writeFile filename bytes (disk w))
                   (logEvent (EvSaveSlot slotId filename) w))
    | None => (false, logEvent (EvSaveSlot slotId filename) w)
    end.
Proof.
  unfold saveSlotCache. unfold mbind at 1. unfold M_bind, get. cbv beta iota.
  rewrite bind_run. cbn [fst snd emit modify].
  destruct (saveSlotResponse env (trace w) slotId filename) as [bytes|]; [|reflexivity].
  rewrite bind_run. cbn [fst snd modify]. rewrite bind_run.
  destruct (validateCacheFile env filename _) as [[] w2]; reflexivity.
Qed.

Lemma find_written (filename : string) (bytes : nat) (files : list FileEntry) :
  endsWith ".bin" filename = true ->
  List.find (fun file => String.eqb (lf_name file) filename)
    (List.map (fun f => {| lf_name := name f; lf_size := size f |})
       (List.filter isBinFile (writeFile filename bytes files)))
  = Some {| lf_name := filename; lf_size := bytes |}.
Proof.
  intros Hbin. unfold writeFile.
  induction files as [|f files IH]; simpl.
  - unfold isBinFile. simpl. rewrite Hbin. simpl. rewrite String.eqb_refl. reflexivity.
  - destruct (String.eqb (name f) filename) eqn:Hname; simpl; [exact IH|].
    destruct (isBinFile f); simpl; [|exact IH]. rewrite Hname. exact IH.
Qed.


(** X7: when the server has written a file that ends in [.bin] and is
    smaller than the minimum, and the listing answers, [saveSlotCache]
    reports failure after three requests: the save, one listing and the
    deletion of that file.  When the deletion succeeds no file of that
    name is left, not even one that the save has overwritten, and the
    other files are as they were. *)
Theorem undersized_snapshot_is_removed env slotId filename cn w bytes :
  endsWith ".bin" filename = true ->
  saveSlotResponse env (trace w) slotId filename = Some bytes ->
  bytes < MIN_FILE_SIZE_BYTES (settings w) ->
  listFilesResponse env (trace w ++ [EvSaveSlot slotId filename]) = true ->
  let r := saveSlotCache env slotId filename cn w in
  r.1 = false
  /\ trace r.2
     = trace w ++ [EvSaveSlot slotId filename; EvListFiles; EvDeleteFile filename]
  /\ (deleteFileResponse env
        (trace w ++ [EvSaveSlot slotId filename; EvListFiles]) filename = true ->
      disk r.2 = List.filter (fun f => negb (String.eqb (name f) filename)) (disk w)).
Proof.
  intros Hbin Hsave Hsmall Hlist. cbv zeta.
  rewrite saveSlotCache_run, Hsave, validateCacheFile_run. cbv zeta.
  rewrite getFilesList_run. cbn [fst snd].
  change (trace (setDisk _ (logEvent ?e w))) with (trace w ++ [e]).
  rewrite Hlist.
  change (disk (setDisk ?d _)) with d.
  rewrite (find_written filename bytes (disk w) Hbin). cbn [lf_size].
  change (settings (setDisk _ (logEvent _ w))) with (settings w).
  apply Nat.ltb_lt in Hsmall. rewrite Hsmall.
  rewrite deleteFile_run. cbn [fst snd].
  change (trace (logEvent EvListFiles (setDisk _ (logEvent ?e w))))
    with ((trace w ++ [e]) ++ [EvListFiles]).
  rewrite <- !app_assoc. cbn [app].
  split; [reflexivity|]. split.
  - destruct (deleteFileResponse env _ filename); simpl; rewrite <- !app_assoc;
      reflexivity.
  - intros Hdel. rewrite Hdel. simpl. unfold writeFile.
    rewrite List.filter_app. simpl. rewrite String.eqb_refl. simpl. rewrite app_nil_r.
    induction (disk w) as [|f files IH]; simpl; [reflexivity|].
    destruct (String.eqb (name f) filename) eqn:Hname; simpl; [exact IH|].
    rewrite Hname. simpl. rewrite IH. reflexivity.
Qed.


(** ** Saving every slot *)

#[local] Instance tidying_refl : Reflexive tidying.
Proof. intros w. exists []. split; [symmetry; apply app_nil_r | reflexivity]. Qed.

#[local] Instance tidying_trans : Transitive tidying.
Proof.
  intros a b c (e1 & H1 & F1) (e2 & H2 & F2). exists (e1 ++ e2). split.
  - rewrite H2, H1, app_assoc. reflexivity.
  - rewrite forallb_app, F1, F2. reflexivity.
Qed.

Lemma tidying_emit e : isFileRequest e = true -> keeps tidying (emit e).
Proof. intros He w. exists [e]. split; [reflexivity | simpl; rewrite He; reflexivity]. Qed.

Lemma tidying_setDisk f : keeps tidying (modify (fun w => setDisk (f w) w)).
Proof. intros w. exists []. split; [symmetry; apply app_nil_r | reflexivity]. Qed.

Create HintDb tidy.

Ltac tidy_step :=
  first
    [ solve [auto 1 with tidy nocore]
    | apply keeps_ret; tc_solve
    | apply keeps_get; tc_solve
    | apply keeps_bind; [tc_solve | | intros ?]
    | apply keeps_if
    | apply keeps_forEach; [tc_solve | tc_solve | intros ?]
    | apply tidying_emit; reflexivity
    | apply tidying_setDisk ].

Lemma tidying_getFilesList env : keeps tidying (getFilesList env).
Proof. unfold getFilesList. repeat tidy_step. Qed.
#[local] Hint Resolve tidying_getFilesList : tidy.

Lemma tidying_deleteFile env filename : keeps tidying (deleteFile env filename).
Proof. unfold deleteFile. repeat tidy_step. Qed.
#[local] Hint Resolve tidying_deleteFile : tidy.

Lemma tidying_rotateFiles env filterFn : keeps tidying (rotateFiles env filterFn).
Proof. unfold rotateFiles. repeat tidy_step. Qed.
#[local] Hint Resolve tidying_rotateFiles : tidy.

Lemma tidying_rotateCharacterFiles env cn : keeps tidying (rotateCharacterFiles env cn).
Proof. unfold rotateCharacterFiles. repeat tidy_step. Qed.
#[local] Hint Resolve tidying_rotateCharacterFiles : tidy.

Lemma tidying_validateCacheFile env filename : keeps tidying (validateCacheFile env filename).
Proof.
  unfold validateCacheFile. repeat tidy_step.
  destruct (List.find _ _); repeat tidy_step.
Qed.
#[local] Hint Resolve tidying_validateCacheFile : tidy.

Lemma savedSlots_app (tr1 tr2 : list Event) :
  savedSlots (tr1 ++ tr2) = savedSlots tr1 ++ savedSlots tr2.
Proof. apply omap_app. Qed.

Lemma savedSlots_tidy (evs : list Event) :
  forallb isFileRequest evs = true -> savedSlots evs = [].
Proof.
  induction evs as [|e evs IH]; [reflexivity|]. simpl.
  intros [He Hevs]%andb_true_iff. destruct e; try discriminate; exact (IH Hevs).
Qed.

(** The requests of one save: the save itself, then listings and
    deletions. *)
Lemma saveSlotCache_trace env slotId filename cn w :
  exists evs,
    trace (saveSlotCache env slotId filename cn w).2
    = trace w ++ EvSaveSlot slotId filename :: evs
    /\ forallb isFileRequest evs = true.
Proof.
  rewrite saveSlotCache_run.
  destruct (saveSlotResponse env (trace w) slotId filename) as [bytes|].
  - destruct (tidying_validateCacheFile env filename
                (setDisk (writeFile filename bytes (disk w))
                         (logEvent (EvSaveSlot slotId filename) w))) as (evs & Ht & Hf).
    exists evs. split; [|exact Hf]. rewrite Ht. simpl. rewrite <- app_assoc. reflexivity.
  - exists []. split; reflexivity.
Qed.

Lemma saveCharacterCache_trace env cn slotIndex w :
  cn <> "" ->
  exists filename evs,
    trace (saveCharacterCache env (JsStr cn) (Some slotIndex) w).2
    = trace w ++ EvSaveSlot slotIndex filename :: evs
    /\ forallb isFileRequest evs = true.
Proof.
  intros Hcn. rewrite saveCharacterCache_run by exact Hcn. cbv zeta.
  set (filename := generateSaveFilename _ _ cn None).
  destruct (saveSlotCache_trace env slotIndex filename cn w) as (evs & Ht & Hf).
  exists filename.
  destruct (saveSlotCache env slotIndex filename cn w) as [ok w1]. cbn [fst snd] in *.
  destruct ok.
  - destruct (tidying_rotateCharacterFiles env cn w1) as (evs2 & Ht2 & Hf2).
    exists (evs ++ evs2). cbn [snd trace setSlotsState]. split.
    + rewrite Ht2, Ht, <- app_assoc. reflexivity.
    + rewrite forallb_app, Hf, Hf2. reflexivity.
  - exists evs. split; assumption.
Qed.

Lemma truthyName_Some (n : option string) (s : string) :
  truthyName n = Some s -> n = Some s /\ s <> "".
Proof.
  destruct n as [t|]; simpl; [|discriminate].
  destruct t as [|c t]; simpl; [discriminate|]. intros [= <-]. split; [reflexivity|].
  discriminate.
Qed.

Lemma isDue_named (minUsage : nat) (slot : Slot) (cn : string) :
  truthyName (characterName slot) = Some cn ->
  isDue minUsage slot = (minUsage <=? usage slot).
Proof.
  intros Hname. unfold isDue. rewrite Hname.
  rewrite bool_decide_eq_true_2 by eauto. reflexivity.
Qed.

Lemma isDue_unnamed (minUsage : nat) (slot : Slot) :
  truthyName (characterName slot) = None -> isDue minUsage slot = false.
Proof.
  intros Hname. unfold isDue. rewrite Hname.
  rewrite bool_decide_eq_false_2; [reflexivity|]. intros [x Hx]. discriminate.
Qed.

Lemma saveSlotIfUsed_run env i w :
  (saveSlotIfUsed env i w).2 =
    match slotsState w !! i with
    | Some slot =>
        match truthyName (characterName slot) with
        | Some cn =>
            if MIN_USAGE_FOR_SAVE (settings w) <=? usage slot
            then (saveCharacterCache env (JsStr cn) (Some i) w).2
            else w
        | None => w
        end
    | None => w
    end.
Proof.
  unfold saveSlotIfUsed. unfold mbind at 1. unfold M_bind, get. cbv beta iota.
  destruct (slotsState w !! i) as [slot|]; [|reflexivity].
  destruct (truthyName (characterName slot)); [|reflexivity].
  destruct (_ <=? _); [|reflexivity]. rewrite bind_run. reflexivity.
Qed.

Lemma saveSlotIfUsed_spec env i w :
  let w' := (saveSlotIfUsed env i w).2 in
  let minUsage := MIN_USAGE_FOR_SAVE (settings w) in
  savedSlots (trace w')
  = savedSlots (trace w) ++ (if dueAt minUsage (slotsState w) i then [i] else [])
  /\ settings w' = settings w
  /\ controlEvents (trace w') = controlEvents (trace w)
  /\ (slotsState w' = slotsState w
      \/ (dueAt minUsage (slotsState w) i = true
          /\ slotsState w' = resetSlotUsage i (slotsState w))).
Proof.
  cbv zeta. rewrite saveSlotIfUsed_run. unfold dueAt.
  destruct (slotsState w !! i) as [slot|] eqn:Hslot;
    [|simpl; rewrite app_nil_r; auto].
  destruct (truthyName (characterName slot)) as [cn|] eqn:Hname.
  - rewrite (isDue_named _ _ _ Hname).
    destruct (MIN_USAGE_FOR_SAVE (settings w) <=? usage slot);
      [|simpl; rewrite app_nil_r; auto].
    apply truthyName_Some in Hname as [_ Hcn].
    destruct (saveCharacterCache_trace env cn i w Hcn) as (fn & evs & Ht & Hf).
    pose proof (saveCharacterCache_slots env cn i w Hcn) as Hs. cbv zeta in Hs.
    pose proof (slotStep_saveCharacterCache env (JsStr cn) (Some i) w) as Hstep.
    split; [|split; [apply (ss_settings _ _ Hstep)|split; [apply (ss_control _ _ Hstep)|]]].
    + rewrite Ht, savedSlots_app. simpl. rewrite (savedSlots_tidy evs Hf). reflexivity.
    + rewrite Hs. destruct (saveCharacterCache env (JsStr cn) (Some i) w).1; auto.
  - rewrite (isDue_unnamed _ _ Hname). simpl. rewrite app_nil_r. auto.
Qed.

Lemma savedOrKept_refl (minUsage : nat) (slot : Slot) : savedOrKept minUsage slot slot.
Proof. repeat split; auto. Qed.

Lemma savedOrKept_trans (minUsage : nat) (s1 s2 s3 : Slot) :
  savedOrKept minUsage s1 s2 -> savedOrKept minUsage s2 s3 -> savedOrKept minUsage s1 s3.
Proof.
  intros (Hn & Hc & Hg & Hu) (Hn' & Hc' & Hg' & Hu').
  split; [congruence|]. split; [congruence|]. split; [congruence|].
  destruct Hu as [Hu|[Hu Hdue]], Hu' as [Hu'|[Hu' Hdue']].
  - left. congruence.
  - right. split; [exact Hu'|]. unfold isDue in *. rewrite <- Hn, <- Hu. exact Hdue'.
  - right. split; [congruence | exact Hdue].
  - right. split; [exact Hu' | exact Hdue].
Qed.

Lemma forEach_saveSlotIfUsed env (indices : list nat) (w : World) :
  NoDup indices ->
  let w' := (forEach (saveSlotIfUsed env) indices w).2 in
  let minUsage := MIN_USAGE_FOR_SAVE (settings w) in
  savedSlots (trace w')
  = savedSlots (trace w) ++ List.filter (dueAt minUsage (slotsState w)) indices
  /\ settings w' = settings w
  /\ controlEvents (trace w') = controlEvents (trace w)
  /\ length (slotsState w') = length (slotsState w)
  /\ (forall j, j ∉ indices -> slotsState w' !! j = slotsState w !! j)
  /\ (forall j slot, slotsState w !! j = Some slot ->
        exists slot', slotsState w' !! j = Some slot' /\ savedOrKept minUsage slot slot').
Proof.
  intros Hnodup. revert w. induction Hnodup as [|i rest Hi Hrest IH]; intros w.
  - simpl. rewrite app_nil_r. repeat split; auto.
    intros j slot Hj. exists slot. split; [exact Hj | apply savedOrKept_refl].
  - cbv zeta. cbn [forEach]. rewrite bind_run.
    destruct (saveSlotIfUsed_spec env i w) as (Hsaved & Hset & Hctrl & Hslots).
    set (w1 := (saveSlotIfUsed env i w).2) in *.
    destruct (IH w1) as (Hsaved' & Hset' & Hctrl' & Hlen' & Hout' & Hin').
    set (w' := (forEach (saveSlotIfUsed env) rest w1).2) in *.
    rewrite Hset in *.
    assert (Hother : forall j, j <> i -> slotsState w1 !! j = slotsState w !! j).
    { intros j Hj. destruct Hslots as [->|[_ ->]]; [reflexivity|].
      rewrite resetSlotUsage_lookup. destruct (decide (i = j)); [congruence|reflexivity]. }
    assert (Hlen1 : length (slotsState w1) = length (slotsState w)).
    { destruct Hslots as [->|[_ ->]]; [reflexivity|].
      unfold resetSlotUsage. apply length_alter. }
    assert (Hstep : forall j slot, slotsState w !! j = Some slot ->
              exists slot1, slotsState w1 !! j = Some slot1
                            /\ savedOrKept (MIN_USAGE_FOR_SAVE (settings w)) slot slot1).
    { intros j slot Hj. destruct Hslots as [->|[Hdue ->]].
      - exists slot. split; [exact Hj | apply savedOrKept_refl].
      - rewrite resetSlotUsage_lookup. destruct (decide (i = j)) as [->|Hne].
        + rewrite Hj. simpl. eexists. split; [reflexivity|].
          unfold dueAt in Hdue. rewrite Hj in Hdue.
          repeat split; auto.
        + exists slot. split; [exact Hj | apply savedOrKept_refl]. }
    split.
    { rewrite Hsaved', Hsaved, <- app_assoc. f_equal. cbn [List.filter].
      assert (Hext : List.filter (dueAt (MIN_USAGE_FOR_SAVE (settings w)) (slotsState w1)) rest
                     = List.filter (dueAt (MIN_USAGE_FOR_SAVE (settings w)) (slotsState w)) rest).
      { apply List.filter_ext_in. intros j Hj. unfold dueAt. rewrite Hother; [reflexivity|].
        intros ->. apply Hi, list_elem_of_In, Hj. }
      rewrite Hext. destruct (dueAt _ (slotsState w) i); reflexivity. }
    split; [exact Hset'|]. split; [congruence|]. split; [congruence|]. split.
    { intros j Hj. apply not_elem_of_cons in Hj as [Hji Hjr].
      rewrite (Hout' j Hjr). apply Hother, Hji. }
    intros j slot Hj. destruct (Hstep j slot Hj) as (slot1 & Hj1 & Hk1).
    destruct (Hin' j slot1 Hj1) as (slot' & Hj' & Hk').
    exists slot'. split; [exact Hj'|]. eapply savedOrKept_trans; eassumption.
Qed.

(** X9: [saveAllSlotsCache] asks the server to save, in the order of the
    indices and once each, the slots that hold a character and whose usage
    has reached [MIN_USAGE_FOR_SAVE] when it starts, and no other slot.  It
    starts and stops no generation, and leaves every slot with its
    character, its loaded flag and its generation type; the usage of a slot
    is as it was, or 0 when the slot was due. *)
Theorem saveAllSlotsCache_saves_the_used_slots env w :
  let w' := (saveAllSlotsCache env w).2 in
  let minUsage := MIN_USAGE_FOR_SAVE (settings w) in
  savedSlots (trace w') = savedSlots (trace w) ++ slotsDue minUsage (slotsState w)
  /\ controlEvents (trace w') = controlEvents (trace w)
  /\ length (slotsState w') = length (slotsState w)
  /\ (forall j slot, slotsState w !! j = Some slot ->
        exists slot', slotsState w' !! j = Some slot' /\ savedOrKept minUsage slot slot').
Proof.
  cbv zeta. unfold saveAllSlotsCache. unfold mbind, M_bind, get. cbv beta iota.
  destruct (forEach_saveSlotIfUsed env (seq 0 (length (slotsState w))) w
              (NoDup_seq _ _))
    as (Hsaved & _ & Hctrl & Hlen & _ & Hin).
  split; [exact Hsaved|]. split; [exact Hctrl|]. split; [exact Hlen | exact Hin].
Qed.

(** *** The manual save *)

Lemma saveSlotCache_requests env slotId filename cn w :
  exists evs,
    trace (saveSlotCache env slotId filename cn w).2
    = trace w ++ EvSaveSlot slotId filename :: evs
    /\ Forall (fun e => e = EvListFiles \/ e = EvDeleteFile filename) evs.
Proof.
  rewrite saveSlotCache_run.
  destruct (saveSlotResponse env (trace w) slotId filename) as [bytes|].
  - rewrite validateCacheFile_run. cbv zeta.
    set (w1 := setDisk _ (logEvent (EvSaveSlot slotId filename) w)).
    destruct (List.find _ _) as [savedFile|].
    + destruct (lf_size savedFile <? _).
      * exists [EvListFiles; EvDeleteFile filename]. rewrite deleteFile_run. cbn [snd].
        split; [|constructor; [left|constructor; [right|constructor]]; reflexivity].
        destruct (deleteFileResponse env _ filename); simpl; rewrite <- !app_assoc;
          reflexivity.
      * exists [EvListFiles]. split; [simpl; rewrite <- app_assoc; reflexivity|].
        repeat constructor; auto.
    + exists [EvListFiles]. split; [simpl; rewrite <- app_assoc; reflexivity|].
      repeat constructor; auto.
  - exists []. split; [reflexivity | constructor].
Qed.

Lemma ownDeletes_app (evs1 evs2 : list Event) :
  ownDeletes evs1 -> ownDeletes evs2 -> ownDeletes (evs1 ++ evs2).
Proof.
  intros H1 H2 fn [Hin|Hin]%elem_of_app.
  - destruct (H1 fn Hin) as [i Hi]. exists i. apply elem_of_app. left. exact Hi.
  - destruct (H2 fn Hin) as [i Hi]. exists i. apply elem_of_app. right. exact Hi.
Qed.

Lemma ownDeletes_save (slotId : nat) (filename : string) (evs : list Event) :
  Forall (fun e => e = EvListFiles \/ e = EvDeleteFile filename) evs ->
  ownDeletes (EvSaveSlot slotId filename :: evs).
Proof.
  intros Hall fn Hin. apply elem_of_cons in Hin as [Hin|Hin]; [discriminate|].
  rewrite Forall_forall in Hall. destruct (Hall _ Hin) as [He|He]; [discriminate|].
  injection He as ->. exists slotId. apply elem_of_cons. left. reflexivity.
Qed.

Lemma saveOne_run env chatId tag acc cn i w :
  cn <> "" ->
  let filename := generateSaveFilename chatId (clock env (trace w)) cn tag in
  let saved := saveSlotCache env i filename cn w in
  saveOne env chatId tag acc (cn, i) w =
    if saved.1 then
      (acc ++ [cn],
       match truthyTag tag with
       | None => (rotateCharacterFiles env cn saved.2).2
       | Some _ => saved.2
       end)
    else (acc, saved.2).
Proof.
  intros Hcn. cbv zeta. unfold saveOne. destruct cn as [|c cn]; [congruence|].
  change (isEmpty (String c cn)) with false. cbv iota.
  unfold mbind at 1. unfold M_bind, get. cbv beta iota. rewrite bind_run.
  destruct (saveSlotCache env i _ (String c cn) w) as [[] w1]; cbn [fst snd];
    [|reflexivity].
  rewrite bind_run. destruct (truthyTag tag); reflexivity.
Qed.

Lemma charactersInSlots_named (slots : list Slot) (cn : string) (i : nat) :
  (cn, i) ∈ charactersInSlots slots <->
  exists slot, slots !! i = Some slot /\ truthyName (characterName slot) = Some cn.
Proof.
  unfold charactersInSlots. rewrite list_elem_of_omap. split.
  - intros ([j slot] & Hin & Hsome). apply elem_of_lookup_imap in Hin as (k & s & Heq & Hk).
    injection Heq as -> ->.
    destruct (truthyName (characterName s)) as [n|] eqn:Hn; [|discriminate].
    injection Hsome as -> ->. exists s. split; assumption.
  - intros (slot & Hi & Hn). exists (i, slot). split.
    + apply elem_of_lookup_imap. exists i, slot. split; [reflexivity | exact Hi].
    + rewrite Hn. reflexivity.
Qed.

Lemma fileStep_saveOne env chatId tag acc entry :
  keeps fileStep (saveOne env chatId tag acc entry).
Proof.
  unfold saveOne. destruct entry as [cn i].
  destruct (isEmpty cn); [apply keeps_ret; tc_solve|].
  apply keeps_bind; [tc_solve | apply keeps_get; tc_solve | intros w].
  apply keeps_bind; [tc_solve | apply fileStep_saveSlotCache | intros ok].
  destruct ok; [|apply keeps_ret; tc_solve].
  apply keeps_bind; [tc_solve | | intros _; apply keeps_ret; tc_solve].
  destruct (truthyTag tag);
    [apply keeps_ret; tc_solve | apply fileStep_rotateCharacterFiles].
Qed.

Lemma saveEach_spec env chatId tag (entries : list (string * nat)) acc w :
  Forall (fun entry => entry.1 <> "") entries ->
  let w' := (saveEach env chatId tag acc entries w).2 in
  fileStep w w'
  /\ savedSlots (trace w') = savedSlots (trace w) ++ entries.*2
  /\ (is_Some (truthyTag tag) ->
      exists evs, trace w' = trace w ++ evs /\ ownDeletes evs).
Proof.
  intros Hall. revert acc w.
  induction Hall as [|[cn i] entries Hcn Hall IH]; intros acc w.
  - simpl. split; [reflexivity|]. split; [rewrite app_nil_r; reflexivity|].
    intros _. exists []. split; [rewrite app_nil_r; reflexivity|].
    intros fn Hin. inversion Hin.
  - cbv zeta. cbn [saveEach]. rewrite bind_run.
    pose proof (fileStep_saveOne env chatId tag acc (cn, i) w) as Hstep1.
    pose proof (saveOne_run env chatId tag acc cn i w Hcn) as Hrun. cbv zeta in Hrun.
    set (filename := generateSaveFilename chatId (clock env (trace w)) cn tag) in *.
    destruct (saveSlotCache_requests env i filename cn w) as (evs & Ht & Hevs).
    assert (Hfile : forallb isFileRequest evs = true).
    { apply forallb_forall. intros e He. rewrite Forall_forall in Hevs.
      destruct (Hevs e (proj2 (list_elem_of_In _ _) He)) as [->| ->]; reflexivity. }
    set (one := saveOne env chatId tag acc (cn, i) w) in *.
    destruct (IH one.1 one.2) as (Hstep & Hsaved & Htagged).
    set (w' := (saveEach env chatId tag one.1 entries one.2).2) in *.
    assert (Hone : exists evs1,
               trace one.2 = trace w ++ EvSaveSlot i filename :: evs1
               /\ forallb isFileRequest evs1 = true
               /\ (is_Some (truthyTag tag) -> evs1 = evs)).
    { rewrite Hrun. destruct (saveSlotCache env i filename cn w) as [ok w1].
      cbn [fst snd] in *. destruct ok; cbn [snd].
      - destruct (truthyTag tag) as [t|].
        + exists evs. auto.
        + destruct (tidying_rotateCharacterFiles env cn w1) as (evs2 & Ht2 & Hf2).
          exists (evs ++ evs2). rewrite Ht2, Ht, <- app_assoc. split; [reflexivity|].
          split; [rewrite forallb_app, Hfile, Hf2; reflexivity|].
          intros [x Hx]. discriminate.
      - exists evs. auto. }
    destruct Hone as (evs1 & Ht1 & Hf1 & Heq1).
    split; [etransitivity; eassumption|]. split.
    + rewrite Hsaved, Ht1, savedSlots_app. simpl. rewrite (savedSlots_tidy evs1 Hf1).
      rewrite <- app_assoc. reflexivity.
    + intros Htag. destruct (Htagged Htag) as (rest & Hrest & Hown).
      exists ((EvSaveSlot i filename :: evs1) ++ rest). split.
      * rewrite Hrest, Ht1, <- app_assoc. reflexivity.
      * apply ownDeletes_app; [|exact Hown]. rewrite (Heq1 Htag).
        apply ownDeletes_save, Hevs.
Qed.

Lemma saveCache_run env (requestTag : bool) (popup tag : option string) w :
  (if requestTag
   then match popup with
        | None => None
        | Some t => Some (Some (trim t))
        end
   else Some None) = Some tag ->
  saveCache env requestTag popup w =
    match charactersInSlots (slotsState w) return bool * World with
    | [] => (false, w)
    | entries =>
        let r := saveEach env (getNormalizedChatId w) tag [] entries w in
        (0 <? length r.1, r.2)
    end.
Proof.
  intros Htag. unfold saveCache. rewrite Htag. unfold mbind at 1. unfold M_bind, get.
  cbv beta iota zeta. destruct (charactersInSlots (slotsState w)); [reflexivity|].
  rewrite bind_run. reflexivity.
Qed.

Lemma charactersInSlots_nonempty (slots : list Slot) :
  Forall (fun entry => entry.1 <> "") (charactersInSlots slots).
Proof.
  apply Forall_forall. intros [cn i] Hin.
  apply charactersInSlots_named in Hin as (slot & _ & Hname).
  apply truthyName_Some in Hname as [_ Hcn]. exact Hcn.
Qed.



(** X12: a manual save with a tag that is not empty once trimmed does not
    rotate: every deletion it asks for is of a file that this very call
    has asked the server to write, which is how a snapshot that turned out
    too small is removed. *)
Theorem tagged_save_never_rotates env (t : string) w :
  trim t <> "" ->
  let w' := (saveCache env true (Some t) w).2 in
  exists evs, trace w' = trace w ++ evs /\ ownDeletes evs.
Proof.
  intros Ht. cbv zeta.
  rewrite (saveCache_run env true (Some t) (Some (trim t)) w eq_refl).
  pose proof (charactersInSlots_nonempty (slotsState w)) as Hnamed.
  destruct (charactersInSlots (slotsState w)) as [|entry rest] eqn:Hcs.
  - exists []. split; [simpl; rewrite app_nil_r; reflexivity|].
    intros fn Hin. inversion Hin.
  - cbv zeta. cbn [snd].
    destruct (saveEach_spec env (getNormalizedChatId w) (Some (trim t))
                (entry :: rest) [] w Hnamed) as (_ & _ & Htagged).
    apply Htagged. destruct (trim t) as [|c s]; [congruence|]. simpl. eauto.
Qed.

Lemma saveEach_blank_tag env chatId (entries : list (string * nat)) acc w :
  saveEach env chatId (Some "") acc entries w = saveEach env chatId None acc entries w.
Proof.
  revert acc w. induction entries as [|entry rest IH]; intros acc w; [reflexivity|].
  cbn [saveEach]. rewrite !bind_run.
  change (saveOne env chatId (Some "") acc entry w)
    with (saveOne env chatId None acc entry w).
  apply IH.
Qed.

(** X26: a manual save whose tag is blank, empty or white space only, is
    an untagged save: the same requests, the same file names without
    [_tag_], the same rotation of the auto-saves, the same result. *)
Theorem blank_tag_is_no_tag env (t : string) w :
  trim t = "" ->
  saveCache env true (Some t) w = saveCache env false None w.
Proof.
  intros Ht.
  rewrite (saveCache_run env true (Some t) (Some (trim t)) w eq_refl).
  rewrite (saveCache_run env false None None w eq_refl).
  rewrite Ht. destruct (charactersInSlots (slotsState w)); [reflexivity|].
  cbv zeta. rewrite saveEach_blank_tag. reflexivity.
Qed.

(** ** The message counters and the indicator *)

Lemma scanCounters_spec (interval : nat) (chatCounters : gmap string nat) :
  match scanCounters interval chatCounters with
  | (None, false) => chatCounters = ∅
  | (Some least, true) =>
      chatCounters <> ∅
      /\ (forall n c, chatCounters !! n = Some c -> least <= interval - c)
      /\ exists n c, chatCounters !! n = Some c /\ least = interval - c
  | _ => False
  end.
Proof.
  unfold scanCounters.
  apply (map_fold_weak_ind
           (fun (r : option nat * bool) (m : gmap string nat) =>
              match r with
              | (None, false) => m = ∅
              | (Some least, true) =>
                  m <> ∅
                  /\ (forall n c, m !! n = Some c -> least <= interval - c)
                  /\ exists n c, m !! n = Some c /\ least = interval - c
              | _ => False
              end)); [reflexivity|].
  intros i x m [[least|] []] Hi IH; try contradiction.
  - destruct IH as (_ & Hle & (n & c & Hn & Hleast)).
    destruct (interval - x <? least) eqn:Hlt.
    + apply Nat.ltb_lt in Hlt. split; [apply insert_non_empty|]. split.
      * intros n' c' [[-> ->]|[Hne Hn']]%lookup_insert_Some; [lia|].
        specialize (Hle n' c' Hn'). lia.
      * exists i, x. split; [apply lookup_insert_eq | reflexivity].
    + apply Nat.ltb_ge in Hlt. split; [apply insert_non_empty|]. split.
      * intros n' c' [[-> ->]|[Hne Hn']]%lookup_insert_Some; [lia|].
        apply (Hle n' c' Hn').
      * exists n, c. split; [|exact Hleast].
        rewrite lookup_insert_ne; [exact Hn|]. intros ->. congruence.
  - subst m. split; [apply insert_non_empty|]. split.
    + intros n' c' [[-> ->]|[Hne Hn']]%lookup_insert_Some; [lia|].
      rewrite lookup_empty in Hn'. discriminate.
    + exists i, x. split; [apply lookup_insert_eq | reflexivity].
Qed.

Lemma minRemaining_spec (interval : nat) (chatCounters : gmap string nat) :
  exists least,
    minRemaining interval chatCounters = Some least
    /\ least <= interval
    /\ (forall n c, chatCounters !! n = Some c -> least <= interval - c)
    /\ (chatCounters = ∅ -> least = interval)
    /\ (chatCounters <> ∅ ->
        exists n c, chatCounters !! n = Some c /\ least = interval - c).
Proof.
  unfold minRemaining. pose proof (scanCounters_spec interval chatCounters) as Hscan.
  destruct (scanCounters interval chatCounters) as [[least|] []]; try contradiction.
  - destruct Hscan as (Hne & Hle & (n & c & Hn & Hleast)).
    exists least. split; [reflexivity|]. split; [lia|]. split; [exact Hle|].
    split; [congruence|]. intros _. exists n, c. auto.
  - subst chatCounters. exists interval. split; [reflexivity|]. split; [lia|].
    split; [intros n c Hn; rewrite lookup_empty in Hn; discriminate|].
    split; [reflexivity|]. congruence.
Qed.

(** X13: with auto-save disabled [updateNextSaveIndicator] writes the
    plain title; with auto-save enabled the number it puts in front of the
    title is never [Infinity]: it is the save interval when the
    conversation has no counter, and otherwise the least, over the
    characters of the conversation, of the interval minus the counter, cut
    at 0.  So it is at most the interval, and it is 0 exactly when some
    counter has reached the interval. *)
Theorem indicator_shows_the_least_remaining (hasIndicator : bool)
    (mc : gmap string (gmap string nat)) (w : World) :
  let interval := saveInterval (settings w) in
  let chatCounters := default ∅ (mc !! getNormalizedChatId w) in
  let shown := updateNextSaveIndicator hasIndicator true mc w in
  (enabled (settings w) = false -> headerTitle shown = Some "KV Cache Manager")
  /\ (enabled (settings w) = true ->
      exists least,
        minRemaining interval chatCounters = Some least
        /\ headerTitle shown = Some ("[" +:+ decimal least +:+ "] KV Cache Manager")
        /\ least <= interval
        /\ (forall n c, chatCounters !! n = Some c -> least <= interval - c)
        /\ (chatCounters = ∅ -> least = interval)
        /\ (chatCounters <> ∅ ->
            exists n c, chatCounters !! n = Some c /\ least = interval - c)).
Proof.
  cbv zeta. unfold updateNextSaveIndicator. split.
  - intros ->. reflexivity.
  - intros ->. cbn [negb]. cbv iota zeta. cbn [headerTitle].
    destruct (minRemaining_spec (saveInterval (settings w))
                (default ∅ (mc !! getNormalizedChatId w)))
      as (least & Hmin & Hle & Hall & Hempty & Hsome).
    exists least. rewrite Hmin. split; [reflexivity|]. split; [reflexivity|].
    split; [exact Hle|]. split; [exact Hall|]. split; [exact Hempty | exact Hsome].
Qed.



Lemma name_from_data (data : option EventData) (n : string) :
  getNormalizedCharacterNameFromData data = Some n ->
  n <> "" /\ allChars isSafeChar n = true /\ normalizeCharacterName n = n.
Proof.
  unfold getNormalizedCharacterNameFromData. destruct data as [data|]; [|discriminate].
  cbv zeta.
  assert (Hstr : forall s, s <> "" ->
            normalizeCharacterName s <> ""
            /\ allChars isSafeChar (normalizeCharacterName s) = true
            /\ normalizeCharacterName (normalizeCharacterName s) = normalizeCharacterName s).
  { intros s Hs. split.
    - destruct s as [|c s]; [congruence|]. discriminate.
    - split; [apply normalizeString_safe; reflexivity|].
      destruct s as [|c s]; [congruence|].
      apply normalizeString_fixed; [discriminate|].
      apply (allChars_normalized (String c s)). }
  destruct (if truthy (data_char data) then data_char data
            else if truthy (data_name data) then data_name data else JsNull)
    as [| | | |s|]; try discriminate.
  destruct s as [|c s]; [discriminate|]. simpl isEmpty. cbv iota.
  intros [= <-]. apply Hstr. discriminate.
Qed.

(** X14: the name [getNormalizedCharacterNameFromData] takes from the data
    of an event is never empty, consists of [[a-zA-Z0-9_-]] only and is
    already normalized, so normalizing it once more, as
    [incrementMessageCounter] does, changes nothing.  A [char] that is
    truthy but not a string hides a usable [name]: the result is [null]. *)
Theorem name_from_data_is_normalized (data : option EventData) (n : string) :
  getNormalizedCharacterNameFromData data = Some n ->
  n <> "" /\ allChars isSafeChar n = true /\ normalizeCharacterName n = n
  /\ (forall d, data = Some d -> truthy (data_char d) = true ->
                exists s, data_char d = JsStr s /\ n = normalizeCharacterName s).
Proof.
  intros Hn. destruct (name_from_data data n Hn) as (H1 & H2 & H3).
  split; [exact H1|]. split; [exact H2|]. split; [exact H3|].
  intros d -> Htruthy. unfold getNormalizedCharacterNameFromData in Hn.
  cbv zeta in Hn. rewrite Htruthy in Hn.
  destruct (data_char d) as [| | | |s|]; try discriminate.
  exists s. split; [reflexivity|]. destruct (isEmpty s); [discriminate|].
  injection Hn as <-. reflexivity.
Qed.


(** X16: [resetChatCounters] sets every counter of the conversation to 0,
    creates no counter and touches no other conversation; after it the
    indicator of that conversation shows the full save interval. *)
Theorem resetChatCounters_zeroes (chat : string) (interval : nat)
    (mc : gmap string (gmap string nat)) :
  let mc' := resetChatCounters chat mc in
  (forall n, counterOf chat n mc' = 0)
  /\ (forall chat' n, chat' <> chat -> counterOf chat' n mc' = counterOf chat' n mc)
  /\ (forall chat' n, is_Some (mc' !! chat' ≫= fun c => c !! n)
                      <-> is_Some (mc !! chat' ≫= fun c => c !! n))
  /\ minRemaining interval (default ∅ (mc' !! chat)) = Some interval.
Proof.
  cbv zeta. unfold resetChatCounters.
  destruct (mc !! chat) as [chatCounters|] eqn:Hchat.
  - split; [|split; [|split]].
    + intros n. unfold counterOf. rewrite lookup_insert_eq. simpl.
      rewrite lookup_fmap. destruct (chatCounters !! n); reflexivity.
    + intros chat' n Hne. unfold counterOf. rewrite lookup_insert_ne by congruence.
      reflexivity.
    + intros chat' n. destruct (decide (chat' = chat)) as [->|Hne].
      * rewrite lookup_insert_eq, Hchat. simpl. rewrite lookup_fmap.
        destruct (chatCounters !! n); simpl; split; intros [x Hx]; eauto; discriminate.
      * rewrite lookup_insert_ne by congruence. reflexivity.
    + rewrite lookup_insert_eq. simpl.
      destruct (minRemaining_spec interval ((fun _ => 0) <$> chatCounters))
        as (least & -> & _ & _ & Hempty & Hsome).
      f_equal. destruct (decide (((fun _ : nat => 0) <$> chatCounters) = ∅)) as [He|Hne].
      * apply Hempty, He.
      * destruct (Hsome Hne) as (n & c & Hn & ->). rewrite lookup_fmap in Hn.
        destruct (chatCounters !! n); simpl in Hn; [|discriminate].
        injection Hn as <-. lia.
  - split; [|split; [|split]].
    + intros n. unfold counterOf. rewrite Hchat. reflexivity.
    + reflexivity.
    + reflexivity.
    + rewrite Hchat. simpl.
      destruct (minRemaining_spec interval ∅) as (least & -> & _ & _ & Hempty & _).
      f_equal. apply Hempty. reflexivity.
Qed.

(** ** The characters of a group chat *)

Lemma findCharacterEntry_Some (name : string) (characters : list (option string)) (i : nat) :
  findCharacterEntry name characters = Some i ->
  characters !! i = Some (Some name)
  /\ forall j, j < i -> characters !! j <> Some (Some name).
Proof.
  revert i. induction characters as [|entry rest IH]; intros i; simpl; [discriminate|].
  assert (Hrest : S <$> findCharacterEntry name rest = Some i ->
                  entry <> Some name ->
                  (entry :: rest) !! i = Some (Some name)
                  /\ forall j, j < i -> (entry :: rest) !! j <> Some (Some name)).
  { destruct (findCharacterEntry name rest) as [k|]; simpl; [|discriminate].
    intros [= <-] Hentry. destruct (IH k eq_refl) as [Hk Hbefore].
    split; [exact Hk|]. intros [|j] Hj; simpl.
    - congruence.
    - apply Hbefore. lia. }
  destruct entry as [n|].
  - destruct (String.eqb_spec n name) as [->|Hne].
    + intros [= <-]. split; [reflexivity|]. intros j Hj. lia.
    + intros H. apply Hrest; [exact H | congruence].
  - intros H. apply Hrest; [exact H | discriminate].
Qed.

Lemma findCharacterEntry_None (name : string) (characters : list (option string)) :
  findCharacterEntry name characters = None -> Some name ∉ characters.
Proof.
  induction characters as [|entry rest IH]; simpl; [intros _ Hin; inversion Hin|].
  assert (Hrest : S <$> findCharacterEntry name rest = None ->
                  entry <> Some name -> Some name ∉ entry :: rest).
  { destruct (findCharacterEntry name rest); simpl; [discriminate|].
    intros _ Hentry Hin. apply elem_of_cons in Hin as [Hin|Hin]; [congruence|].
    exact (IH eq_refl Hin). }
  destruct entry as [n|].
  - destruct (String.eqb_spec n name) as [->|Hne]; [discriminate|].
    intros H. apply Hrest; [exact H | congruence].
  - intros H. apply Hrest; [exact H | discriminate].
Qed.

(** X17: every character that [getChatCharactersWithMutedStatus] returns
    comes from a group chat, has a name that is not empty and the
    normalization of that name as its normalized name; its id is the first
    index of [context.characters] that holds a character of that name, and
    [null] exactly when there is none; and it is muted exactly when its
    avatar is among the disabled members of the selected group. *)
Theorem chat_characters_are_well_formed (host : Host) (c : ChatCharacter) :
  c ∈ getChatCharactersWithMutedStatus host ->
  context_present host = true
  /\ is_Some (context_groupId host)
  /\ chr_name c <> ""
  /\ chr_normalizedName c = normalizeCharacterName (chr_name c)
  /\ (forall i, chr_characterId c = Some i ->
        exists characters,
          context_characters host = Some characters
          /\ characters !! i = Some (Some (chr_name c))
          /\ forall j, j < i -> characters !! j <> Some (Some (chr_name c)))
  /\ (chr_characterId c = None ->
      forall characters, context_characters host = Some characters ->
                         Some (chr_name c) ∉ characters)
  /\ (chr_isMuted c = true <->
      exists gs selected g members,
        groups host = Some gs /\ selected_group host = Some selected
        /\ List.find (fun x => String.eqb (group_id x) selected) gs = Some g
        /\ disabled_members g = Some members /\ chr_avatar c ∈ members).
Proof.
  unfold getChatCharactersWithMutedStatus.
  destruct (context_present host); [|intros Hin; inversion Hin].
  destruct (context_groupId host) as [gid|]; [|intros Hin; inversion Hin].
  destruct (groupMembers host) as [[|m ms]|]; try (intros Hin; inversion Hin; fail).
  cbv zeta. intros Hin. apply list_elem_of_omap in Hin as (member & _ & Hc).
  destruct (namedMember member) as [[name avatar]|] eqn:Hnamed; [|discriminate].
  injection Hc as <-. cbn [chr_name chr_normalizedName chr_characterId chr_isMuted chr_avatar].
  split; [reflexivity|]. split; [eauto|]. split.
  { unfold namedMember in Hnamed. destruct member as [mm|]; [|discriminate].
    destruct (member_name mm) as [| | | |s|]; try discriminate.
    destruct s as [|a s]; [discriminate|]. injection Hnamed as <- _. discriminate. }
  split; [reflexivity|]. split.
  { intros i Hi. destruct (context_characters host) as [characters|]; [|discriminate].
    exists characters. split; [reflexivity|]. apply findCharacterEntry_Some, Hi. }
  split.
  { intros Hnone characters Hcs. rewrite Hcs in Hnone.
    apply findCharacterEntry_None, Hnone. }
  rewrite existsb_exists. split.
  - intros (a & Ha & Heq). apply String.eqb_eq in Heq as <-.
    destruct (groups host) as [gs|]; [|inversion Ha].
    destruct (selected_group host) as [selected|]; [|inversion Ha].
    destruct (List.find _ gs) as [g|] eqn:Hfind; [|inversion Ha].
    destruct (disabled_members g) as [members|] eqn:Hd; [|inversion Ha].
    exists gs, selected, g, members. repeat split; auto.
    apply list_elem_of_In, Ha.
  - intros (gs & selected & g & members & -> & -> & -> & Hd & Hin).
    exists avatar. rewrite Hd. split; [apply list_elem_of_In, Hin|].
    apply String.eqb_refl.
Qed.

(** ** What a preload batch books *)

Lemma triple_of_preserves {A} (J : Run -> Prop) (m : P A) :
  preserves J m -> triple J m (fun _ => J).
Proof. intros H r Hr. apply H, Hr. Qed.

Lemma triple_and_pre' {A} (Q : Prop) (Pre : Run -> Prop) (m : P A)
    (Post : A -> Run -> Prop) :
  (Q -> triple Pre m Post) -> triple (fun r => Pre r /\ Q) m Post.
Proof. intros H r [Hr HQ]. apply (H HQ), Hr. Qed.

Section Ledger.
Context (env : Backend) (characters : list Character).
Context (gens : list nat) (done failed : list string).

Lemma ledger_inWorld {A} (m : M A) :
  keeps slotStep m -> preserves (ledger gens done failed) (inWorld m).
Proof.
  intros Hm r (Hg & Hp & He). unfold inWorld.
  pose proof (ss_control _ _ (Hm (world r))) as Hc.
  destruct (m (world r)) as [a w']. cbn [fst snd] in *.
  unfold ledger. cbn [world preloaded errors].
  rewrite <- generationsOf_control, Hc, generationsOf_control. auto.
Qed.

Lemma ledger_pin n :
  preserves (ledger gens done failed) (inWorld (setCurrentPreloadCharacter n)).
Proof. intros r H. exact H. Qed.

Lemma ledger_getCurrentSlot :
  preserves (ledger gens done failed) (inWorld getCurrentSlot).
Proof. intros r H. exact H. Qed.

Lemma ledger_stopGeneration : preserves (ledger gens done failed) stopGeneration.
Proof.
  intros r (Hg & Hp & He). unfold ledger. simpl.
  rewrite generationsOf_app, Hg. simpl. rewrite app_nil_r. auto.
Qed.

Lemma ledger_edit st : preserves (ledger gens done failed) (editMessageUsingUpdate st).
Proof. intros r H. exact H. Qed.

Lemma ledger_click b : preserves (ledger gens done failed) (click characters b).
Proof.
  destruct b; [|apply preserves_ret]. intros r (Hg & Hp & He).
  unfold click. rewrite bindP_run. unfold handleCancel. rewrite bindP_run.
  simpl. destruct (isCancelled r); unfold ledger; simpl;
    rewrite ?generationsOf_app, Hg; simpl; rewrite ?app_nil_r; auto.
Qed.

Lemma ledger_pushError x :
  triple (ledger gens done failed) (pushError x)
         (fun _ => ledger gens done (failed ++ [x])).
Proof. intros r (Hg & Hp & He). unfold ledger. simpl. rewrite He. auto. Qed.

Lemma ledger_pushPreloaded n :
  triple (ledger gens done failed) (pushPreloaded n)
         (fun _ => ledger gens (done ++ [n]) failed).
Proof. intros r (Hg & Hp & He). unfold ledger. simpl. rewrite Hp. auto. Qed.

Lemma ledger_generate id :
  triple (ledger gens done failed) (inWorld (emit (EvGenerate id)))
         (fun _ => ledger (gens ++ [id]) done failed).
Proof.
  intros r (Hg & Hp & He). unfold ledger. simpl.
  rewrite generationsOf_app, Hg. auto.
Qed.
End Ledger.

Ltac ledger_step :=
  lazymatch goal with
  | |- preserves _ (mret _) => apply preserves_ret
  | |- preserves _ getRun => apply preserves_getRun
  | |- preserves _ stopGeneration => apply ledger_stopGeneration
  | |- preserves _ (click _ _) => apply ledger_click
  | |- preserves _ (editMessageUsingUpdate _) => apply ledger_edit
  | |- preserves _ (inWorld (setCurrentPreloadCharacter _)) => apply ledger_pin
  | |- preserves _ (inWorld getCurrentSlot) => apply ledger_getCurrentSlot
  | |- preserves _ (inWorld (KVCacheManagerInterceptor _ _)) =>
      apply ledger_inWorld, slotStep_interceptor
  | |- preserves _ (inWorld (saveCharacterCache _ _ _)) =>
      apply ledger_inWorld, slotStep_saveCharacterCache
  | |- preserves _ (_ ≫= _) => apply preserves_bind; [|intros ?]
  | |- preserves _ (match ?x with _ => _ end) => destruct x
  end.

Section LedgerSteps.
Context (env : Backend) (characters : list Character).

Lemma ledger_generationBlock character id script gens done failed :
  triple (ledger gens done failed)
    (generationBlock env characters character id script)
    (fun out r =>
       (out = inl Break /\ ledger gens done failed r)
       \/ ledger (gens ++ [id]) done failed r).
Proof.
  unfold generationBlock. apply triple_getRun. intros r0 Hr0.
  destruct (isCancelled r0).
  - eapply triple_pre; [|intros r ->; exact Hr0].
    eapply triple_bind; [apply triple_of_preserves, ledger_pin | intros []].
    apply triple_ret. intros r Hr. left. auto.
  - eapply triple_pre; [|intros r ->; exact Hr0].
    eapply triple_bind; [apply triple_of_preserves, ledger_pin | intros []].
    eapply triple_bind; [apply ledger_generate | intros []].
    eapply triple_post; [apply triple_of_preserves | intros out r Hr; right; exact Hr].
    repeat ledger_step.
Qed.

Lemma ledger_save character (slotIndex : option nat) (b : bool) gens done failed :
  triple (ledger gens done failed)
    (match slotIndex with
     | Some _ =>
         saved ← inWorld (saveCharacterCache env
                            (JsStr (ch_normalizedName character)) slotIndex);
         click characters b;;
         if (saved : bool) then pushPreloaded (ch_name character)
         else pushError (ch_name character +:+ ": ошибка сохранения кеша")
     | None => mret tt
     end)
    (fun _ r =>
       exists p e,
         ledger gens (done ++ p) (failed ++ e) r
         /\ ((p = [] /\ length e <= 1) \/ (p = [ch_name character] /\ e = []))).
Proof.
  destruct slotIndex as [slot|].
  - eapply triple_bind;
      [apply triple_of_preserves, ledger_inWorld, slotStep_saveCharacterCache|].
    intros saved.
    eapply triple_bind; [apply triple_of_preserves, ledger_click | intros []].
    destruct saved.
    + eapply triple_post; [apply ledger_pushPreloaded|]. intros ? r Hr.
      exists [ch_name character], []. rewrite app_nil_r. auto.
    + eapply triple_post; [apply ledger_pushError|]. intros ? r Hr.
      eexists [], [_]. rewrite app_nil_r. split; [exact Hr|]. left. simpl. auto.
  - apply triple_ret. intros r Hr. exists [], []. rewrite !app_nil_r. split; [exact Hr|].
    left. simpl. auto.
Qed.

Lemma ledger_preloadStep i character script gens done failed :
  triple (ledger gens done failed)
    (preloadStep env characters i character script)
    (fun _ r =>
       exists g p e,
         ledger (gens ++ g) (done ++ p) (failed ++ e) r
         /\ stepEntries character g p e).
Proof.
  assert (Hnoid : forall x,
            usableId character = None ->
            triple (ledger gens done failed)
              (pushError x;;
               r1 ← getRun;
               editMessageUsingUpdate
                 (formatPreloadStatus (i + 1) (length characters) (preloaded r1)
                    (errors r1) (Some (ch_name character)) None (isCancelled r1)
                    statusMessageId);;
               click characters (clickWhileProgress script);;
               mret Next)
              (fun _ r =>
                 exists g p e,
                   ledger (gens ++ g) (done ++ p) (failed ++ e) r
                   /\ stepEntries character g p e)).
  { intros x _. eapply triple_bind; [apply ledger_pushError | intros []].
    eapply triple_post; [apply triple_of_preserves; repeat ledger_step|].
    intros ? r Hr. exists [], [], [x]. rewrite !app_nil_r. split; [exact Hr|].
    left. simpl. auto. }
  unfold preloadStep. apply triple_getRun. intros r0 Hr0.
  destruct (isCancelled r0).
  { apply triple_ret. intros r ->. exists [], [], []. rewrite !app_nil_r.
    split; [exact Hr0|]. left. simpl. auto. }
  eapply triple_pre; [|intros r ->; exact Hr0]. cbv zeta.
  destruct (ch_characterId character) as [[|id]|] eqn:Hid.
  - apply Hnoid. unfold usableId. rewrite Hid. reflexivity.
  - assert (Husable : usableId character = Some (S id))
      by (unfold usableId; rewrite Hid; reflexivity).
    eapply triple_bind; [apply triple_of_preserves, ledger_edit | intros []].
    eapply triple_bind; [apply triple_of_preserves, ledger_click | intros []].
    eapply triple_bind; [apply ledger_generationBlock | intros block].
    destruct block as [flow|[message|]].
    + apply triple_ret. intros r [[_ Hr]|Hr].
      * exists [], [], []. rewrite !app_nil_r. split; [exact Hr|]. left. simpl. auto.
      * exists [S id], [], []. rewrite !app_nil_r. split; [exact Hr|].
        right. exists (S id). split; [exact Husable|]. split; [reflexivity|].
        left. simpl. split; [reflexivity | lia].
    + eapply triple_pre with (Pre' := ledger (gens ++ [S id]) done failed);
        [|intros r [[Hd _]|Hr]; [discriminate | exact Hr]].
      eapply triple_bind; [apply ledger_pushError | intros []].
      eapply triple_post; [apply triple_of_preserves; repeat ledger_step|].
      intros ? r Hr. eexists [S id], [], [_]. rewrite !app_nil_r.
      split; [exact Hr|]. right. exists (S id). split; [exact Husable|].
      split; [reflexivity|]. left. simpl. split; [reflexivity | lia].
    + eapply triple_pre with (Pre' := ledger (gens ++ [S id]) done failed);
        [|intros r [[Hd _]|Hr]; [discriminate | exact Hr]].
      eapply triple_bind;
        [apply triple_of_preserves, ledger_getCurrentSlot | intros slotIndex].
      eapply triple_bind; [apply ledger_save | intros []].
      apply triple_exists_pre. intros p. apply triple_exists_pre. intros e.
      apply triple_and_pre'. intros Hpe.
      eapply triple_post; [apply triple_of_preserves; repeat ledger_step|].
      intros ? r Hr. exists [S id], p, e. split; [exact Hr|].
      right. exists (S id). split; [exact Husable|]. split; [reflexivity | exact Hpe].
  - apply Hnoid. unfold usableId. rewrite Hid. reflexivity.
Qed.
End LedgerSteps.

Lemma sublist_omap_cons {A B} (f : A -> option B) (x : A) (l : list B) (rest : list A) :
  l `sublist_of` omap f rest -> l `sublist_of` omap f (x :: rest).
Proof. intros H. simpl. destruct (f x); [apply sublist_cons|]; exact H. Qed.

Lemma stepEntries_sublists (c : Character) (rest : list Character)
    (g g1 : list nat) (p p1 e e1 : list string) :
  stepEntries c g p e ->
  g1 `sublist_of` omap usableId rest ->
  p1 `sublist_of` namesWithId rest ->
  length p1 + length e1 <= length rest ->
  (g ++ g1) `sublist_of` omap usableId (c :: rest)
  /\ (p ++ p1) `sublist_of` namesWithId (c :: rest)
  /\ length (p ++ p1) + length (e ++ e1) <= length (c :: rest).
Proof.
  intros Hstep Hg Hp Hlen. unfold namesWithId in *.
  destruct Hstep as [(-> & -> & He)|(id & Hid & -> & Hpe)].
  - split; [apply sublist_omap_cons, Hg|]. split; [apply sublist_omap_cons, Hp|].
    simpl. rewrite ?length_app. simpl. lia.
  - split; [simpl; rewrite Hid; apply sublist_skip, Hg|].
    destruct Hpe as [[-> He]|[-> ->]].
    + split; [apply sublist_omap_cons, Hp|]. simpl. rewrite ?length_app. simpl. lia.
    + split; [simpl; rewrite Hid; apply sublist_skip, Hp|]. simpl. lia.
Qed.

Lemma ledger_preloadLoop env characters script i rest gens done failed :
  triple (ledger gens done failed)
    (preloadLoop env characters script i rest)
    (fun _ r =>
       exists g p e,
         ledger (gens ++ g) (done ++ p) (failed ++ e) r
         /\ g `sublist_of` omap usableId rest
         /\ p `sublist_of` namesWithId rest
         /\ length p + length e <= length rest).
Proof.
  revert i gens done failed.
  induction rest as [|c rest IH]; intros i gens done failed; cbn [preloadLoop].
  - apply triple_ret. intros r Hr. exists [], [], []. rewrite !app_nil_r.
    split; [exact Hr|]. split; [reflexivity|]. split; [reflexivity|]. simpl. lia.
  - eapply triple_bind; [apply ledger_preloadStep | intros flow].
    apply triple_exists_pre. intros g. apply triple_exists_pre. intros p.
    apply triple_exists_pre. intros e. apply triple_and_pre'. intros Hstep.
    destruct flow.
    + eapply triple_post; [apply IH|]. intros ? r (g1 & p1 & e1 & Hr & Hg & Hp & Hlen).
      exists (g ++ g1), (p ++ p1), (e ++ e1). rewrite !app_assoc.
      split; [exact Hr|]. eapply stepEntries_sublists; eassumption.
    + apply triple_ret. intros r Hr. exists g, p, e. split; [exact Hr|].
      rewrite <- (app_nil_r g), <- (app_nil_r p), <- (app_nil_r e).
      apply (stepEntries_sublists c rest g [] p [] e []); auto.
      * apply sublist_nil_l.
      * apply sublist_nil_l.
      * simpl. lia.
Qed.

(** X18: whatever the user, the generations and the server do, a preload
    batch issues generations only for characters of the batch that have an
    id other than 0, in the order of the batch and at most one for each;
    the names it reports as preloaded are names of such characters, in
    that order and at most once for each; and it books at most one entry
    for each character of the batch, preloaded or error. *)
Theorem preload_books_each_character_once env characters script w :
  let finished := (preloadCharactersCache env characters script w).1.2 in
  exists gens,
    generationsOf (trace (world finished)) = generationsOf (trace w) ++ gens
    /\ gens `sublist_of` omap usableId characters
    /\ preloaded finished `sublist_of` namesWithId characters
    /\ length (preloaded finished) + length (errors finished) <= length characters.
Proof.
  cbv zeta.
  assert (Hidle : forall r : Run,
            world r = w -> preloaded r = [] -> errors r = [] ->
            exists gens,
              generationsOf (trace (world r)) = generationsOf (trace w) ++ gens
              /\ gens `sublist_of` omap usableId characters
              /\ preloaded r `sublist_of` namesWithId characters
              /\ length (preloaded r) + length (errors r) <= length characters).
  { intros r -> -> ->. exists []. rewrite app_nil_r. split; [reflexivity|].
    split; [apply sublist_nil_l|]. split; [apply sublist_nil_l|]. simpl. lia. }
  destruct (inGroupChat w) eqn:Hgroup.
  2:{ unfold preloadCharactersCache, mbind, M_bind, get. cbv beta iota.
      rewrite Hgroup. apply Hidle; reflexivity. }
  destruct characters as [|c cs] eqn:Hcs.
  { unfold preloadCharactersCache, mbind, M_bind, get. cbv beta iota.
    rewrite Hgroup. apply Hidle; reflexivity. }
  rewrite <- Hcs. clear Hidle.
  rewrite preloadCharactersCache_run; [|assumption|rewrite Hcs; discriminate].
  cbv zeta. cbn [fst snd world preloaded errors].
  set (started := {| world := setPreloadFlags true (currentPreloadCharacter w) w;
                     isCancelled := false; preloaded := []; errors := [];
                     statusMessage := _ |}).
  assert (Hstart : ledger (generationsOf (trace w)) [] [] started) by (repeat split).
  apply (ledger_preloadLoop env characters script 0 characters) in Hstart.
  destruct Hstart as (g & p & e & (Hg & Hp & He) & Hsub & Hnames & Hlen).
  exists g. cbn [trace setPreloadFlags]. rewrite Hp, He. simpl in Hp, He.
  split; [exact Hg|]. auto.
Qed.

(** ** A batch without a click *)

Section Calm.
Context (env : Backend) (characters : list Character).
Context (gens : list nat) (done failed : list string).

Lemma calm_of_ledger {A} (m : P A) :
  preserves (ledger gens done failed) m ->
  (forall r, isCancelled (m r).2 = isCancelled r) ->
  preserves (calm gens done failed) m.
Proof. intros Hl Hc r [Hr Hled]. split; [rewrite Hc; exact Hr | apply Hl, Hled]. Qed.

Lemma calm_inWorld {A} (m : M A) :
  keeps slotStep m -> preserves (calm gens done failed) (inWorld m).
Proof.
  intros Hm. apply calm_of_ledger; [apply ledger_inWorld, Hm|].
  intros r. unfold inWorld. destruct (m (world r)). reflexivity.
Qed.

Lemma calm_pin n :
  preserves (calm gens done failed) (inWorld (setCurrentPreloadCharacter n)).
Proof. intros r H. exact H. Qed.

Lemma calm_getCurrentSlot : preserves (calm gens done failed) (inWorld getCurrentSlot).
Proof. intros r H. exact H. Qed.

Lemma calm_stopGeneration : preserves (calm gens done failed) stopGeneration.
Proof. apply calm_of_ledger; [apply ledger_stopGeneration | reflexivity]. Qed.

Lemma calm_edit st : preserves (calm gens done failed) (editMessageUsingUpdate st).
Proof. intros r H. exact H. Qed.

Lemma calm_no_click : preserves (calm gens done failed) (click characters false).
Proof. intros r H. exact H. Qed.

Lemma calm_pushError x :
  triple (calm gens done failed) (pushError x)
         (fun _ => calm gens done (failed ++ [x])).
Proof. intros r [Hc Hr]. split; [exact Hc | apply ledger_pushError, Hr]. Qed.

Lemma calm_pushPreloaded n :
  triple (calm gens done failed) (pushPreloaded n)
         (fun _ => calm gens (done ++ [n]) failed).
Proof. intros r [Hc Hr]. split; [exact Hc | apply ledger_pushPreloaded, Hr]. Qed.

Lemma calm_generate id :
  triple (calm gens done failed) (inWorld (emit (EvGenerate id)))
         (fun _ => calm (gens ++ [id]) done failed).
Proof. intros r [Hc Hr]. split; [exact Hc | apply ledger_generate, Hr]. Qed.
End Calm.

Section CalmSteps.
Context (env : Backend) (characters : list Character).

Lemma calm_generationBlock character id script gens done failed :
  unclicked script ->
  triple (calm gens done failed)
    (generationBlock env characters character id script)
    (fun out r => (exists message, out = inr message)
                  /\ calm (gens ++ [id]) done failed r).
Proof.
  intros (_ & Hgen & _ & _ & Hout). unfold generationBlock.
  apply triple_getRun. intros r0 Hr0. pose proof Hr0 as (Hc & _). rewrite Hc.
  eapply triple_pre; [|intros r ->; exact Hr0].
  eapply triple_bind; [apply triple_of_preserves, calm_pin | intros []].
  eapply triple_bind; [apply calm_generate | intros []].
  eapply triple_bind with (Mid := fun _ => calm (gens ++ [id]) done failed).
  { destruct (intercepted script).
    - apply triple_of_preserves, calm_inWorld, slotStep_interceptor.
    - apply triple_ret. auto. }
  intros []. apply triple_getRun. intros r1 Hr1. cbv zeta. rewrite Hgen.
  eapply triple_pre; [|intros r ->; exact Hr1].
  destruct (raceOutcome script) as [|message| |]; [| | |congruence].
  - eapply triple_bind
      with (Mid := fun out r => out = inl "completed"
                                /\ calm (gens ++ [id]) done failed r).
    { eapply triple_bind; [apply triple_of_preserves, calm_no_click | intros []].
      apply triple_ret. auto. }
    intros out. apply triple_and_pre. intros ->.
    apply triple_getRun. intros r2 Hr2. pose proof Hr2 as (Hc2 & _). rewrite Hc2.
    eapply triple_pre; [|intros r ->; exact Hr2].
    change (false || String.eqb "completed" "cancelled") with false. cbv iota.
    eapply triple_bind; [apply triple_of_preserves, calm_stopGeneration | intros []].
    eapply triple_bind; [apply triple_of_preserves, calm_pin | intros []].
    apply triple_ret. intros r Hr. split; [eauto | exact Hr].
  - eapply triple_bind
      with (Mid := fun out r => out = inr message
                                /\ calm (gens ++ [id]) done failed r).
    { eapply triple_bind; [apply triple_of_preserves, calm_no_click | intros []].
      apply triple_ret. auto. }
    intros out. apply triple_and_pre. intros ->.
    apply triple_getRun. intros r2 Hr2.
    eapply triple_pre; [|intros r ->; exact Hr2].
    eapply triple_bind; [apply triple_of_preserves, calm_pin | intros []].
    destruct (negb (isAbortError message) && negb (isTimeout message));
      apply triple_ret; intros r Hr; (split; [eauto | exact Hr]).
  - eapply triple_bind
      with (Mid := fun out r =>
                     out = inr (timeoutMessage (preloadTimeout (settings (world r1))))
                     /\ calm (gens ++ [id]) done failed r).
    { eapply triple_bind; [apply triple_of_preserves, calm_no_click | intros []].
      apply triple_ret. auto. }
    intros out. apply triple_and_pre. intros ->.
    apply triple_getRun. intros r2 Hr2.
    eapply triple_pre; [|intros r ->; exact Hr2].
    eapply triple_bind; [apply triple_of_preserves, calm_pin | intros []].
    destruct (negb (isAbortError _) && negb (isTimeout _));
      apply triple_ret; intros r Hr; (split; [eauto | exact Hr]).
Qed.

Lemma calm_save character (slotIndex : option nat) gens done failed :
  triple (calm gens done failed)
    (match slotIndex with
     | Some _ =>
         saved ← inWorld (saveCharacterCache env
                            (JsStr (ch_normalizedName character)) slotIndex);
         click characters false;;
         if (saved : bool) then pushPreloaded (ch_name character)
         else pushError (ch_name character +:+ ": ошибка сохранения кеша")
     | None => mret tt
     end)
    (fun _ r => exists p e, calm gens (done ++ p) (failed ++ e) r).
Proof.
  destruct slotIndex as [slot|].
  - eapply triple_bind;
      [apply triple_of_preserves, calm_inWorld, slotStep_saveCharacterCache|].
    intros saved.
    eapply triple_bind; [apply triple_of_preserves, calm_no_click | intros []].
    destruct saved.
    + eapply triple_post; [apply calm_pushPreloaded|]. intros ? r Hr.
      exists [ch_name character], []. rewrite app_nil_r. exact Hr.
    + eapply triple_post; [apply calm_pushError|]. intros ? r Hr.
      eexists [], [_]. rewrite app_nil_r. exact Hr.
  - apply triple_ret. intros r Hr. exists [], []. rewrite !app_nil_r. exact Hr.
Qed.

Lemma calm_preloadStep i character script gens done failed :
  unclicked script ->
  triple (calm gens done failed)
    (preloadStep env characters i character script)
    (fun flow r =>
       flow = Next
       /\ exists p e,
            calm (gens ++ option_list (usableId character)) (done ++ p) (failed ++ e) r
            /\ (usableId character = None -> e = [idNotFound character])).
Proof.
  intros Hscript. pose proof Hscript as (Hstatus & _ & Hsaving & Hprogress & _).
  assert (Hnoid :
            usableId character = None ->
            triple (calm gens done failed)
              (pushError (ch_name character +:+ ": не найден ID персонажа");;
               r1 ← getRun;
               editMessageUsingUpdate
                 (formatPreloadStatus (i + 1) (length characters) (preloaded r1)
                    (errors r1) (Some (ch_name character)) None (isCancelled r1)
                    statusMessageId);;
               click characters (clickWhileProgress script);;
               mret Next)
              (fun flow r =>
                 flow = Next
                 /\ exists p e,
                      calm (gens ++ option_list (usableId character))
                           (done ++ p) (failed ++ e) r
                      /\ (usableId character = None -> e = [idNotFound character]))).
  { intros Hnone. rewrite Hnone, Hprogress.
    eapply triple_bind; [apply calm_pushError | intros []].
    apply triple_getRun. intros r1 Hr1.
    eapply triple_pre; [|intros r ->; exact Hr1].
    eapply triple_bind; [apply triple_of_preserves, calm_edit | intros []].
    eapply triple_bind; [apply triple_of_preserves, calm_no_click | intros []].
    apply triple_ret. intros r Hr. split; [reflexivity|].
    exists [], [idNotFound character]. simpl. rewrite !app_nil_r.
    split; [exact Hr | reflexivity]. }
  unfold preloadStep. apply triple_getRun. intros r0 Hr0.
  pose proof Hr0 as (Hc & _). rewrite Hc.
  eapply triple_pre; [|intros r ->; exact Hr0]. cbv zeta.
  destruct (ch_characterId character) as [[|id]|] eqn:Hid.
  - apply Hnoid. unfold usableId. rewrite Hid. reflexivity.
  - assert (Husable : usableId character = Some (S id))
      by (unfold usableId; rewrite Hid; reflexivity).
    rewrite Husable, Hstatus, Hsaving, Hprogress. simpl option_list.
    eapply triple_bind; [apply triple_of_preserves, calm_edit | intros []].
    eapply triple_bind; [apply triple_of_preserves, calm_no_click | intros []].
    eapply triple_bind; [apply calm_generationBlock, Hscript | intros block].
    destruct block as [flow|[message|]].
    + intros r [[m Hm] _]. discriminate.
    + eapply triple_pre with (Pre' := calm (gens ++ [S id]) done failed);
        [|intros r [_ Hr]; exact Hr].
      eapply triple_bind; [apply calm_pushError | intros []].
      apply triple_getRun. intros r1 Hr1.
      eapply triple_pre; [|intros r ->; exact Hr1].
      eapply triple_bind; [apply triple_of_preserves, calm_edit | intros []].
      eapply triple_bind; [apply triple_of_preserves, calm_no_click | intros []].
      apply triple_ret. intros r Hr. split; [reflexivity|].
      eexists [], [_]. rewrite app_nil_r. split; [exact Hr | discriminate].
    + eapply triple_pre with (Pre' := calm (gens ++ [S id]) done failed);
        [|intros r [_ Hr]; exact Hr].
      eapply triple_bind;
        [apply triple_of_preserves, calm_getCurrentSlot | intros slotIndex].
      eapply triple_bind; [apply calm_save | intros []].
      apply triple_exists_pre. intros p. apply triple_exists_pre. intros e.
      apply triple_getRun. intros r1 Hr1. pose proof Hr1 as (Hc1 & _). rewrite Hc1.
      eapply triple_pre; [|intros r ->; exact Hr1].
      eapply triple_bind; [apply triple_of_preserves, calm_edit | intros []].
      eapply triple_bind; [apply triple_of_preserves, calm_no_click | intros []].
      apply triple_ret. intros r Hr. split; [reflexivity|].
      exists p, e. split; [exact Hr | discriminate].
  - apply Hnoid. unfold usableId. rewrite Hid. reflexivity.
Qed.

Lemma calm_preloadLoop script i rest gens done failed :
  (forall j, unclicked (script j)) ->
  triple (calm gens done failed)
    (preloadLoop env characters script i rest)
    (fun _ r =>
       exists p e,
         calm (gens ++ omap usableId rest) (done ++ p) (failed ++ e) r
         /\ forall c, c ∈ rest -> usableId c = None -> idNotFound c ∈ e).
Proof.
  intros Hscript. revert i gens done failed.
  induction rest as [|c rest IH]; intros i gens done failed; cbn [preloadLoop].
  - apply triple_ret. intros r Hr. exists [], []. simpl. rewrite !app_nil_r.
    split; [exact Hr|]. intros c Hin. inversion Hin.
  - eapply triple_bind; [apply calm_preloadStep, Hscript | intros flow].
    apply triple_and_pre. intros ->.
    apply triple_exists_pre. intros p. apply triple_exists_pre. intros e.
    apply triple_and_pre'. intros Hnone.
    eapply triple_post; [apply IH|]. intros ? r (p1 & e1 & Hr & Hrest).
    exists (p ++ p1), (e ++ e1). rewrite !app_assoc. split.
    + replace (gens ++ omap usableId (c :: rest))
        with ((gens ++ option_list (usableId c)) ++ omap usableId rest); [exact Hr|].
      rewrite <- app_assoc. simpl. destruct (usableId c); reflexivity.
    + intros c' [->|Hin]%elem_of_cons Hc'.
      * rewrite (Hnone Hc'). apply elem_of_app. left. apply elem_of_cons. left.
        reflexivity.
      * apply elem_of_app. right. apply (Hrest c' Hin Hc').
Qed.
End CalmSteps.

Lemma unclicked_batch env characters script w :
  inGroupChat w = true ->
  (forall i, unclicked (script i)) ->
  let finished := (preloadCharactersCache env characters script w).1.2 in
  isCancelled finished = false
  /\ generationsOf (trace (world finished))
     = generationsOf (trace w) ++ omap usableId characters
  /\ (forall c, c ∈ characters -> usableId c = None -> idNotFound c ∈ errors finished).
Proof.
  intros Hgroup Hscript. cbv zeta.
  destruct characters as [|c cs] eqn:Hcs.
  { unfold preloadCharactersCache, mbind, M_bind, get. cbv beta iota.
    rewrite Hgroup. simpl. rewrite app_nil_r. split; [reflexivity|].
    split; [reflexivity|]. intros c Hin. inversion Hin. }
  rewrite <- Hcs.
  rewrite preloadCharactersCache_run; [|assumption|rewrite Hcs; discriminate].
  cbv zeta. cbn [fst snd world isCancelled preloaded errors].
  set (started := {| world := setPreloadFlags true (currentPreloadCharacter w) w;
                     isCancelled := false; preloaded := []; errors := [];
                     statusMessage := _ |}).
  assert (Hstart : calm (generationsOf (trace w)) [] [] started) by (repeat split).
  apply (calm_preloadLoop env characters script 0 characters _ _ _ Hscript) in Hstart.
  destruct Hstart as (p & e & (Hc & Hg & Hp & He) & Hids).
  split; [exact Hc|]. split; [exact Hg|].
  intros c' Hin Hnone. rewrite He. apply (Hids c' Hin Hnone).
Qed.

(** X19: in a group chat and without a click, a preload batch visits every
    character: it issues one generation for each character that has an id
    other than 0, in the order of the batch, whatever the earlier
    generations and saves came to (completed, rejected, timed out, save
    failed); it records the error of the missing id for every character
    that has none; and it ends with the flag of cancellation down. *)
Theorem unclicked_batch_visits_every_character env characters script w :
  inGroupChat w = true ->
  (forall i, unclicked (script i)) ->
  let finished := (preloadCharactersCache env characters script w).1.2 in
  isCancelled finished = false
  /\ generationsOf (trace (world finished))
     = generationsOf (trace w) ++ omap usableId characters
  /\ (forall c, c ∈ characters -> usableId c = None -> idNotFound c ∈ errors finished).
Proof. exact (unclicked_batch env characters script w). Qed.

Lemma chat_character_id (host : Host) (c : ChatCharacter) :
  c ∈ getChatCharactersWithMutedStatus host ->
  chr_characterId c
  = match context_characters host with
    | Some characters => findCharacterEntry (chr_name c) characters
    | None => None
    end.
Proof.
  unfold getChatCharactersWithMutedStatus.
  destruct (context_present host); [|intros Hin; inversion Hin].
  destruct (context_groupId host) as [gid|]; [|intros Hin; inversion Hin].
  destruct (groupMembers host) as [[|m ms]|]; try (intros Hin; inversion Hin; fail).
  cbv zeta. intros Hin. apply list_elem_of_omap in Hin as (member & _ & Hc).
  destruct (namedMember member) as [[name avatar]|]; [|discriminate].
  injection Hc as <-. reflexivity.
Qed.

(** X20: the member of the group whose name is that of the first entry of
    [context.characters] gets the id 0 from
    [getChatCharactersWithMutedStatus], which [preloadCharactersCache]
    takes for a missing id: a batch without a click records the error of
    the missing id for that character instead of generating for it. *)
Theorem first_context_character_is_never_preloaded
    env (host : Host) (c : ChatCharacter) (rest : list (option string))
    (batch : list Character) script w :
  c ∈ getChatCharactersWithMutedStatus host ->
  context_characters host = Some (Some (chr_name c) :: rest) ->
  let finished := (preloadCharactersCache env batch script w).1.2 in
  chr_characterId c = Some 0
  /\ usableId (toPreload c) = None
  /\ (inGroupChat w = true -> (forall i, unclicked (script i)) ->
      toPreload c ∈ batch ->
      idNotFound (toPreload c) ∈ errors finished).
Proof.
  intros Hin Hfirst. cbv zeta.
  assert (Hid : chr_characterId c = Some 0).
  { rewrite (chat_character_id host c Hin), Hfirst. simpl.
    rewrite String.eqb_refl. reflexivity. }
  assert (Hnone : usableId (toPreload c) = None).
  { unfold usableId, toPreload. simpl. rewrite Hid. reflexivity. }
  split; [exact Hid|]. split; [exact Hnone|].
  intros Hgroup Hscript Hbatch.
  destruct (unclicked_batch env batch script w Hgroup Hscript) as (_ & _ & Herr).
  apply (Herr _ Hbatch Hnone).
Qed.

(** X21: a preload that is refused, outside a group chat or for an empty
    batch, returns [false] and leaves the state as it was, the preloading
    mode included.  A preload that runs always ends with the preloading
    mode off and no character pinned for the interceptor, cancelled or
    not; its last status message has no cancel button and shows the two
    lists it returns; and it returns [true] exactly when it has preloaded
    a character. *)
Theorem preload_ends_in_normal_mode env characters script w :
  let r := preloadCharactersCache env characters script w in
  (inGroupChat w = false \/ characters = [] ->
   r.1.1 = false /\ r.2 = w /\ statusMessage r.1.2 = None)
  /\ (inGroupChat w = true -> characters <> [] ->
      isPreloading r.2 = false
      /\ currentPreloadCharacter r.2 = None
      /\ world r.1.2 = r.2
      /\ (r.1.1 = true <-> preloaded r.1.2 <> [])
      /\ exists st,
           statusMessage r.1.2 = Some st
           /\ st_cancelButton st = false
           /\ st_cancelled st = isCancelled r.1.2
           /\ st_preloaded st = preloaded r.1.2
           /\ st_errors st = errors r.1.2
           /\ st_total st = length characters
           /\ (isCancelled r.1.2 = false -> st_current st = length characters)).
Proof.
  cbv zeta. split.
  - intros [Hgroup| ->].
    + unfold preloadCharactersCache, mbind, M_bind, get. cbv beta iota.
      rewrite Hgroup. simpl. auto.
    + unfold preloadCharactersCache, mbind, M_bind, get. cbv beta iota.
      destruct (inGroupChat w); simpl; auto.
  - intros Hgroup Hne. rewrite preloadCharactersCache_run by assumption.
    cbv zeta. cbn [fst snd world isCancelled preloaded errors statusMessage].
    set (r := (preloadLoop env characters script 0 characters _).2).
    split; [reflexivity|]. split; [reflexivity|]. split; [reflexivity|]. split.
    + destruct (preloaded r); simpl; split; congruence.
    + eexists. split; [reflexivity|]. unfold formatPreloadStatus.
      cbn [st_cancelButton st_cancelled st_preloaded st_errors st_total st_current].
      destruct (isCancelled r); simpl.
      * repeat split; auto. discriminate.
      * rewrite Nat.ltb_irrefl. repeat split; auto.
Qed.

(** ** The hidden status message *)

(** X22: [editMessageUsingUpdate] changes at most the text of the one
    message it is given: the chat keeps its length and every other
    message; an id that is negative or not below the length of the chat,
    or that points at a falsy entry, changes nothing and asks for no save;
    otherwise the message at the id gets the new text and keeps its other
    fields, and the block is redrawn and the chat saved. *)
Theorem edit_changes_one_text (messageId : Z) (newText : string) (c : HiddenMessage.Chat) :
  let c' := HiddenMessage.editMessageUsingUpdate messageId newText c in
  length (HiddenMessage.chat c') = length (HiddenMessage.chat c)
  /\ (forall i, Z.of_nat i <> messageId ->
                HiddenMessage.chat c' !! i = HiddenMessage.chat c !! i)
  /\ ((messageId < 0)%Z \/ (Z.of_nat (length (HiddenMessage.chat c)) <= messageId)%Z
      \/ HiddenMessage.chat c !! Z.to_nat messageId = Some None ->
      c' = c)
  /\ (forall message,
        (0 <= messageId)%Z ->
        HiddenMessage.chat c !! Z.to_nat messageId = Some (Some message) ->
        HiddenMessage.chat c' !! Z.to_nat messageId
        = Some (Some (HiddenMessage.setText newText message))
        /\ HiddenMessage.effects c'
           = HiddenMessage.effects c
             ++ [HiddenMessage.UpdateMessageBlock (Z.to_nat messageId)
                   (HiddenMessage.setText newText message);
                 HiddenMessage.SaveChatConditional]).
Proof.
  cbv zeta. unfold HiddenMessage.editMessageUsingUpdate.
  destruct (messageId <? 0)%Z eqn:Hneg.
  { apply Z.ltb_lt in Hneg. simpl. split; [reflexivity|]. split; [reflexivity|].
    split; [reflexivity|]. intros message Hpos. lia. }
  apply Z.ltb_ge in Hneg.
  destruct (Z.of_nat (length (HiddenMessage.chat c)) <=? messageId)%Z eqn:Hbig.
  { apply Z.leb_le in Hbig. simpl. split; [reflexivity|]. split; [reflexivity|].
    split; [reflexivity|]. intros message _ Hlook.
    apply lookup_lt_Some in Hlook. lia. }
  apply Z.leb_gt in Hbig. simpl.
  destruct (HiddenMessage.chat c !! Z.to_nat messageId) as [[message|]|] eqn:Hlook.
  - cbv zeta. cbn [HiddenMessage.chat HiddenMessage.effects].
    split; [apply length_insert|]. split.
    { intros i Hi. apply list_lookup_insert_ne. lia. }
    split.
    { intros [Hlt|[Hge|Hnone]]; [lia | lia | discriminate]. }
    intros message' _ [= <-]. split; [|reflexivity].
    apply list_lookup_insert_eq. apply lookup_lt_Some in Hlook. exact Hlook.
  - split; [reflexivity|]. split; [reflexivity|]. split; [reflexivity|].
    intros message' _ Hm. discriminate.
  - split; [reflexivity|]. split; [reflexivity|]. split; [reflexivity|].
    intros message' _ Hm. discriminate.
Qed.

(** X23: [createHiddenMessage] appends a system message with the given
    text and returns its index, leaving the messages before it alone; and
    an edit at the returned id replaces the text of that very message and
    of no other. *)
Theorem created_message_is_the_one_edited
    (date : string) (now : nat) (text newText : string) (small : bool) (name : string)
    (c : HiddenMessage.Chat) :
  let created := HiddenMessage.createHiddenMessage date now text small name c in
  let edited := HiddenMessage.editMessageUsingUpdate (Z.of_nat created.1) newText created.2 in
  created.1 = length (HiddenMessage.chat c)
  /\ (exists message,
        HiddenMessage.chat created.2 = HiddenMessage.chat c ++ [Some message]
        /\ HiddenMessage.mes message = text
        /\ HiddenMessage.is_system message = true
        /\ HiddenMessage.is_user message = false
        /\ HiddenMessage.chat edited
           = HiddenMessage.chat c ++ [Some (HiddenMessage.setText newText message)]).
Proof.
  cbv zeta. unfold HiddenMessage.createHiddenMessage. cbv zeta. cbn [fst snd].
  assert (Hid : length (HiddenMessage.chat c ++ [Some
                  {| HiddenMessage.msg_name := name; HiddenMessage.is_user := false;
                     HiddenMessage.is_system := true; HiddenMessage.send_date := date;
                     HiddenMessage.mes := text; HiddenMessage.gen_id := now;
                     HiddenMessage.isSmallSys := small |}]) - 1
                = length (HiddenMessage.chat c)).
  { rewrite length_app. simpl. lia. }
  rewrite Hid. split; [reflexivity|]. eexists. split; [reflexivity|].
  split; [reflexivity|]. split; [reflexivity|]. split; [reflexivity|].
  unfold HiddenMessage.editMessageUsingUpdate. cbn [HiddenMessage.chat].
  rewrite Nat2Z.id.
  replace (Z.of_nat (length (HiddenMessage.chat c)) <? 0)%Z with false
    by (symmetry; apply Z.ltb_ge; lia).
  replace (Z.of_nat (length (HiddenMessage.chat c ++ [Some _]))
           <=? Z.of_nat (length (HiddenMessage.chat c)))%Z with false
    by (symmetry; apply Z.leb_gt; rewrite length_app; simpl; lia).
  simpl orb. cbv iota.
  rewrite lookup_app_r by lia. rewrite Nat.sub_diag. cbn [lookup list_lookup].
  cbv zeta. cbn [HiddenMessage.chat].
  rewrite insert_app_r_alt by lia. rewrite Nat.sub_diag. reflexivity.
Qed.

(** ** The clients of the two servers *)

Lemma endsWith_slash (base : string) : endsWith "/" (base +:+ "/") = true.
Proof.
  unfold endsWith. rewrite length_append. simpl String.length.
  replace (String.length base + 1 - 1) with (String.length base) by lia.
  rewrite dropChars_append.
  replace (1 <=? String.length base + 1) with true by (symmetry; apply Nat.leb_le; lia).
  reflexivity.
Qed.

(** X24: [_buildUrl] joins the base URL and the path with exactly one
    slash, whether or not the base ends in one and the path starts with
    one: the four spellings give the same URL.  A second slash at the
    start of the path is kept. *)
Theorem buildUrl_joins_with_one_slash (base path : string) :
  endsWith "/" base = false ->
  startsWith "/" path = false ->
  let url := base +:+ "/" +:+ path in
  LlamaApi.buildUrl base path = url
  /\ LlamaApi.buildUrl (base +:+ "/") path = url
  /\ LlamaApi.buildUrl base ("/" +:+ path) = url
  /\ LlamaApi.buildUrl (base +:+ "/") ("/" +:+ path) = url.
Proof.
  intros Hbase Hpath. cbv zeta. unfold LlamaApi.buildUrl. cbv zeta.
  rewrite Hbase, Hpath, endsWith_slash.
  change (startsWith "/" ("/" +:+ path)) with true. cbv iota.
  change (dropChars 1 ("/" +:+ path)) with path.
  rewrite !append_assoc. repeat split; reflexivity.
Qed.

Lemma getCsrfToken_cached server (client : FilePluginApi.Client) (token : string) :
  FilePluginApi.csrfTokenCache client = Some token -> token <> "" ->
  FilePluginApi.getCsrfToken server client = (Some token, client).
Proof.
  intros Hcache Htoken. unfold FilePluginApi.getCsrfToken. rewrite Hcache.
  destruct token as [|a t]; [congruence|]. reflexivity.
Qed.

Lemma deleteFile_cached server (client : FilePluginApi.Client) (token fn : string) :
  FilePluginApi.csrfTokenCache client = Some token -> token <> "" ->
  (FilePluginApi.deleteFile server fn client).2
  = {| FilePluginApi.csrfTokenCache := Some token;
       FilePluginApi.sent :=
         FilePluginApi.sent client
         ++ [FilePluginApi.DeleteFile (deletionUrl fn) (Some token)] |}.
Proof.
  intros Hcache Htoken. unfold FilePluginApi.deleteFile. cbv zeta.
  rewrite (getCsrfToken_cached server client token Hcache Htoken). cbn [snd].
  rewrite Hcache. reflexivity.
Qed.

(** X25: the CSRF token is fetched once.  With a token in the cache, any
    number of deletions sends no request for a token and puts the cached
    token into the header of every deletion; and a deletion with an empty
    cache asks for the token first, keeps it when the server gives one,
    and goes without the header and without caching anything when the
    server gives none. *)
Theorem csrf_token_is_fetched_once server (filenames : list string)
    (client : FilePluginApi.Client) (filename : string) :
  (forall token,
     FilePluginApi.csrfTokenCache client = Some token -> token <> "" ->
     let client' := deleteInTurn server filenames client in
     FilePluginApi.csrfTokenCache client' = Some token
     /\ FilePluginApi.sent client'
        = FilePluginApi.sent client
          ++ List.map (fun fn => FilePluginApi.DeleteFile (deletionUrl fn) (Some token))
                      filenames)
  /\ (FilePluginApi.csrfTokenCache client = None ->
      let client' := (FilePluginApi.deleteFile server filename client).2 in
      let answer :=
        FilePluginApi.truthyToken
          (FilePluginApi.tokenResponse server (FilePluginApi.sent client)) in
      FilePluginApi.csrfTokenCache client' = answer
      /\ FilePluginApi.sent client'
         = FilePluginApi.sent client
           ++ [FilePluginApi.GetCsrfToken;
               FilePluginApi.DeleteFile (deletionUrl filename) answer]).
Proof.
  split.
  - intros token Hcache Htoken. cbv zeta. unfold deleteInTurn. revert client Hcache.
    induction filenames as [|fn rest IH]; intros client Hcache.
    + simpl. rewrite app_nil_r. auto.
    + cbn [foldl].
      rewrite (deleteFile_cached server client token fn Hcache Htoken).
      destruct (IH {| FilePluginApi.csrfTokenCache := Some token;
                      FilePluginApi.sent :=
                        FilePluginApi.sent client
                        ++ [FilePluginApi.DeleteFile (deletionUrl fn) (Some token)] |}
                   eq_refl) as [Hc Hs].
      split; [exact Hc|]. rewrite Hs. cbn [FilePluginApi.sent List.map].
      rewrite <- app_assoc. reflexivity.
  - intros Hcache. cbv zeta. unfold FilePluginApi.deleteFile. cbv zeta.
    unfold FilePluginApi.getCsrfToken. rewrite Hcache. cbn [FilePluginApi.truthyToken].
    destruct (FilePluginApi.truthyToken
                (FilePluginApi.tokenResponse server (FilePluginApi.sent client)));
      cbn [snd FilePluginApi.csrfTokenCache FilePluginApi.sent];
      rewrite <- ?app_assoc; auto.
Qed.

(** ** The slot a generation is sent to *)

(** X27: a generation the interceptor does not handle, because it is an
    impersonation, a quiet generation outside a preload, or because no
    character is known, leaves everything as it was, the current slot
    included; so [setSlotForGeneration] sends it to the slot of the last
    generation that was handled, and sets no slot when there was none. *)
Theorem skipped_generation_keeps_the_last_slot env (type : string)
    (params : gmap string JsValue) w :
  type = "impersonate"
  \/ (type = "quiet" /\ isPreloading w = false)
  \/ requestingCharacter type w = None ->
  let w' := (KVCacheManagerInterceptor env type w).2 in
  w' = w
  /\ setSlotForGeneration params w'
     = (match currentSlot w with
        | Some slot => <["id_slot" := JsNumber slot]> params
        | None => params
        end, w).
Proof.
  intros Hskip. cbv zeta.
  assert (Hsame : (KVCacheManagerInterceptor env type w).2 = w).
  { unfold KVCacheManagerInterceptor.
    destruct (String.eqb type "impersonate") eqn:Himp; [reflexivity|].
    unfold mbind at 1. unfold M_bind, get. cbv beta iota.
    destruct (String.eqb type "quiet" && negb (isPreloading w)) eqn:Hquiet;
      [reflexivity|].
    destruct Hskip as [->|[[-> Hpre]|Hnone]].
    - discriminate.
    - rewrite Hpre in Hquiet. discriminate.
    - rewrite Hnone. reflexivity. }
  rewrite Hsame. split; [reflexivity|].
  unfold setSlotForGeneration, getCurrentSlot, mbind, M_bind, get. cbv beta iota.
  destruct (currentSlot w); reflexivity.
Qed.

(** ** The selection of the popup *)

Lemma setAdd_new (x : string) (selected : list string) :
  x ∉ selected -> setAdd x selected = selected ++ [x].
Proof.
  intros Hx. unfold setAdd.
  destruct (existsb (String.eqb x) selected) eqn:Hex; [|reflexivity].
  exfalso. apply existsb_exists in Hex as (y & Hy & Heq).
  apply String.eqb_eq in Heq as <-. apply Hx, list_elem_of_In, Hy.
Qed.

Lemma initialSelection_distinct (characters : list ChatCharacter) (acc : list string) :
  NoDup (acc ++ (chr_normalizedName <$> characters)) ->
  foldl (fun selected char =>
           if chr_isMuted char then selected
           else setAdd (chr_normalizedName char) selected)
        acc characters
  = acc ++ (chr_normalizedName <$> List.filter notMuted characters).
Proof.
  revert acc. induction characters as [|c cs IH]; intros acc Hnodup.
  - simpl. rewrite app_nil_r. reflexivity.
  - cbn [foldl List.filter]. unfold notMuted at 1.
    cbn [fmap list_fmap] in Hnodup.
    destruct (chr_isMuted c); cbn [negb].
    + apply IH. apply NoDup_app in Hnodup as (Hacc & Hdisj & Hcs).
      apply NoDup_cons in Hcs as [_ Hcs]. apply NoDup_app. split; [exact Hacc|].
      split; [|exact Hcs]. intros x Hx Hin. apply (Hdisj x Hx). right. exact Hin.
    + rewrite setAdd_new.
      2:{ apply NoDup_app in Hnodup as (_ & Hdisj & _). intros Hin.
          apply (Hdisj _ Hin). left. }
      rewrite IH.
      * cbn [fmap list_fmap]. rewrite <- app_assoc. reflexivity.
      * rewrite <- app_assoc. exact Hnodup.
Qed.

Lemma find_by_normalizedName (characters : list ChatCharacter) (c : ChatCharacter) :
  NoDup (chr_normalizedName <$> characters) ->
  c ∈ characters ->
  List.find (fun x => String.eqb (chr_normalizedName x) (chr_normalizedName c)) characters
  = Some c.
Proof.
  induction characters as [|x xs IH]; intros Hnodup Hin; [inversion Hin|].
  cbn [fmap list_fmap] in Hnodup. apply NoDup_cons in Hnodup as [Hx Hxs].
  cbn [List.find]. apply elem_of_cons in Hin as [->|Hin].
  - rewrite String.eqb_refl. reflexivity.
  - destruct (String.eqb_spec (chr_normalizedName x) (chr_normalizedName c)) as [Heq|_].
    + exfalso. apply Hx. rewrite Heq. apply list_elem_of_fmap_2, Hin.
    + apply IH; assumption.
Qed.

(** X29: what [openPreloadPopup] returns when the popup is confirmed are
    characters of the chat, each the first one of the chat whose normalized
    name is a selected one, in the order of the selection and with no
    normalized name twice.  When the normalized names of the chat are
    distinct and the user confirms without touching the selection, these
    are the characters that are not muted, in the order of the chat.  The
    popup is not opened for a chat without characters, and a popup that is
    dismissed gives [null]. *)
Theorem popup_returns_the_selected_characters (host : Host)
    (popup : list ChatCharacter -> list string -> PopupResult * list string) :
  let characters := getChatCharactersWithMutedStatus host in
  let closing := popup characters (initialSelection characters) in
  (characters = [] \/ closing.1 = Dismissed -> openPreloadPopup host popup = None)
  /\ (forall chosen,
        openPreloadPopup host popup = Some chosen ->
        closing.1 = Affirmative
        /\ (forall c, c ∈ chosen ->
              c ∈ characters
              /\ chr_normalizedName c ∈ closing.2
              /\ List.find (fun x => String.eqb (chr_normalizedName x)
                                                (chr_normalizedName c)) characters
                 = Some c)
        /\ (NoDup closing.2 -> NoDup (chr_normalizedName <$> chosen))
        /\ (closing.2 = initialSelection characters ->
            NoDup (chr_normalizedName <$> characters) ->
            chosen = List.filter notMuted characters)).
Proof.
  cbv zeta. unfold openPreloadPopup. cbv zeta.
  set (characters := getChatCharactersWithMutedStatus host).
  destruct (popup characters (initialSelection characters)) as [result selected] eqn:Hpopup.
  cbn [fst snd]. split.
  { intros [Hnone| ->]; [rewrite Hnone; reflexivity|].
    destruct characters; reflexivity. }
  intros chosen Hchosen.
  assert (Hres : result = Affirmative
                 /\ chosen = omap (fun normalizedName =>
                                     List.find (fun c => String.eqb (chr_normalizedName c)
                                                                    normalizedName)
                                               characters) selected).
  { destruct characters; [discriminate|]. destruct result; [|discriminate].
    injection Hchosen as <-. auto. }
  destruct Hres as [-> ->]. clear Hchosen. split; [reflexivity|].
  assert (Hfound : forall n c,
            List.find (fun x => String.eqb (chr_normalizedName x) n) characters = Some c ->
            c ∈ characters /\ chr_normalizedName c = n).
  { intros n c Hfind. apply find_some in Hfind as [Hin Heq].
    apply String.eqb_eq in Heq. split; [apply list_elem_of_In, Hin | exact Heq]. }
  split; [|split].
  - intros c Hc. apply list_elem_of_omap in Hc as (n & Hn & Hfind).
    destruct (Hfound n c Hfind) as [Hin Hname]. split; [exact Hin|].
    rewrite Hname. split; [exact Hn | exact Hfind].
  - intros Hnodup. clear Hpopup.
    induction Hnodup as [|n rest Hn Hrest IH]; [constructor|].
    cbn [omap list_omap].
    destruct (List.find _ characters) as [c|] eqn:Hfind; [|exact IH].
    cbn [fmap list_fmap]. apply NoDup_cons. split; [|exact IH].
    destruct (Hfound n c Hfind) as [_ Hname]. rewrite Hname. intros Hin.
    apply list_elem_of_fmap in Hin as (c' & Hc' & Hin).
    apply list_elem_of_omap in Hin as (n' & Hn' & Hfind').
    destruct (Hfound n' c' Hfind') as [_ Hname']. apply Hn. congruence.
  - intros -> Hdistinct. unfold initialSelection.
    rewrite (initialSelection_distinct characters []) by exact Hdistinct.
    cbn [app].
    assert (Hsub : forall l : list ChatCharacter, (forall c, c ∈ l -> c ∈ characters) ->
              omap (fun normalizedName =>
                      List.find (fun c => String.eqb (chr_normalizedName c) normalizedName)
                                characters)
                   (chr_normalizedName <$> l) = l).
    { induction l as [|c l IH]; intros Hl; [reflexivity|].
      cbn [fmap list_fmap omap list_omap].
      rewrite (find_by_normalizedName characters c Hdistinct)
        by (apply Hl; left).
      rewrite IH; [reflexivity|]. intros c' Hc'. apply Hl. right. exact Hc'. }
    apply Hsub. intros c Hc. apply list_elem_of_In, filter_In in Hc as [Hc _].
    apply list_elem_of_In, Hc.
Qed.

(** ** The files by chat and character *)








(** ** The further statements at work *)

(** X1, witness *)
Lemma formatTimestamp_example : isTimestamp (formatTimestamp newYear) = true.
Proof.
  apply formatTimestamp_fourteen_digits. unfold calendarDate, newYear. simpl. lia.
Defined.

(** X2, witness *)
Lemma timestamps_order_example :
  localeCompare (formatTimestamp christmas) (formatTimestamp newYear)
  = compareDates christmas newYear.
Proof.
  apply timestamps_order_as_dates; unfold calendarDate, christmas, newYear; simpl; lia.
Defined.

(** X4, witness *)
Lemma parsed_fields_example :
  isTimestamp (p_timestamp bobsAutoSave) = true
  /\ p_characterName bobsAutoSave <> ""
  /\ allChars notLineTerminator (p_characterName bobsAutoSave) = true
  /\ p_tag bobsAutoSave <> Some "".
Proof.
  apply (parsed_fields_are_well_formed "chat_20240101000001_character_Bob.bin").
  reflexivity.
Defined.

(** X5, witness *)
Lemma parsed_name_example :
  generateSaveFilename "chat" "20240101000001" "Bob" None
  = "chat_20240101000001_character_Bob.bin".
Proof.
  apply (proj2 (parsed_name_regenerates "chat_20240101000001_character_Bob.bin"
                  bobsAutoSave eq_refl)).
  - reflexivity.
  - reflexivity.
  - intros t Ht. discriminate.
Defined.

(** X6, witness: a name of the old format *)
Lemma old_format_example : parseSaveFilename "chat_20240101000000_slot3.bin" = None.
Proof. apply unmarked_name_is_rejected. reflexivity. Defined.

(** X7, witness *)
Lemma undersized_example :
  let r := saveSlotCache stingyServer 0 "chat_20240101000001_character_Bob.bin" "Bob"
             (exampleWorld [warmSlot "Bob"] bobsFiles 10) in
  r.1 = false
  /\ trace r.2 = [EvSaveSlot 0 "chat_20240101000001_character_Bob.bin"; EvListFiles;
                  EvDeleteFile "chat_20240101000001_character_Bob.bin"].
Proof.
  pose proof (undersized_snapshot_is_removed stingyServer 0
                "chat_20240101000001_character_Bob.bin" "Bob"
                (exampleWorld [warmSlot "Bob"] bobsFiles 10) 10
                eq_refl eq_refl ltac:(simpl; lia) eq_refl) as H.
  cbv zeta in H. destruct H as (Hfalse & Htrace & _). split; [exact Hfalse | exact Htrace].
Defined.




(** X12, witness *)
Lemma tagged_save_example :
  exists evs,
    trace (saveCache stingyServer true (Some " keep ")
             (exampleWorld [warmSlot "Bob"] bobsFiles 1)).2 = [] ++ evs
    /\ ownDeletes evs.
Proof.
  apply (tagged_save_never_rotates stingyServer " keep "
           (exampleWorld [warmSlot "Bob"] bobsFiles 1)).
  intros H. discriminate H.
Defined.

(** X14, witness *)
Lemma name_from_data_example :
  "Bob_Smith" <> "" /\ allChars isSafeChar "Bob_Smith" = true
  /\ normalizeCharacterName "Bob_Smith" = "Bob_Smith"
  /\ (forall d,
        Some {| data_char := JsStr "Bob Smith"; data_name := JsUndefined |} = Some d ->
        truthy (data_char d) = true ->
        exists s, data_char d = JsStr s /\ "Bob_Smith" = normalizeCharacterName s).
Proof.
  apply (name_from_data_is_normalized
           (Some {| data_char := JsStr "Bob Smith"; data_name := JsUndefined |})).
  reflexivity.
Defined.


(** X17, witness *)
Lemma chat_characters_example :
  chr_normalizedName bobOfGroup = normalizeCharacterName (chr_name bobOfGroup)
  /\ chr_name bobOfGroup <> "".
Proof.
  assert (Hin : bobOfGroup ∈ getChatCharactersWithMutedStatus exampleHost).
  { apply list_elem_of_In. simpl. right. left. reflexivity. }
  destruct (chat_characters_are_well_formed exampleHost bobOfGroup Hin)
    as (_ & _ & Hname & Hnorm & _).
  split; [exact Hnorm | exact Hname].
Defined.

(** X19, witness *)
Lemma unclicked_batch_example :
  generationsOf
    (trace (world (preloadCharactersCache helpfulServer [alice; bob; carol] allComplete
                     (exampleWorld [freeSlot; freeSlot; freeSlot] [] 10)).1.2))
  = [1; 2; 3].
Proof.
  assert (Hquiet : forall i, unclicked (allComplete i)).
  { intros i. unfold unclicked, allComplete. simpl. repeat split. discriminate. }
  destruct (unclicked_batch_visits_every_character helpfulServer [alice; bob; carol]
              allComplete (exampleWorld [freeSlot; freeSlot; freeSlot] [] 10)
              eq_refl Hquiet) as (_ & Hgens & _).
  exact Hgens.
Defined.

(** X20, witness: Alice is the first character of the context *)
Lemma first_context_character_example :
  chr_characterId aliceOfGroup = Some 0
  /\ idNotFound (toPreload aliceOfGroup)
     ∈ errors (preloadCharactersCache helpfulServer
                 [toPreload aliceOfGroup; toPreload bobOfGroup] allComplete
                 (exampleWorld [freeSlot; freeSlot] [] 10)).1.2.
Proof.
  assert (Hin : aliceOfGroup ∈ getChatCharactersWithMutedStatus exampleHost).
  { apply list_elem_of_In. simpl. left. reflexivity. }
  assert (Hquiet : forall i, unclicked (allComplete i)).
  { intros i. unfold unclicked, allComplete. simpl. repeat split. discriminate. }
  destruct (first_context_character_is_never_preloaded helpfulServer exampleHost
              aliceOfGroup [Some "Bob"] [toPreload aliceOfGroup; toPreload bobOfGroup]
              allComplete (exampleWorld [freeSlot; freeSlot] [] 10) Hin eq_refl)
    as (Hid & _ & Herr).
  split; [exact Hid|]. apply Herr; [reflexivity | exact Hquiet |].
  apply list_elem_of_In. left. reflexivity.
Defined.

(** X24, witness *)
Lemma buildUrl_example :
  LlamaApi.buildUrl "http://127.0.0.1:8080/" "/slots" = "http://127.0.0.1:8080/slots".
Proof.
  apply (buildUrl_joins_with_one_slash "http://127.0.0.1:8080" "slots"); reflexivity.
Defined.

(** X26, witness *)
Lemma blank_tag_example :
  saveCache helpfulServer true (Some "  ") (exampleWorld [warmSlot "Bob"] bobsFiles 1)
  = saveCache helpfulServer false None (exampleWorld [warmSlot "Bob"] bobsFiles 1).
Proof. apply blank_tag_is_no_tag. reflexivity. Defined.

(** X27, witness: an impersonation after Bob's generation in slot 0 *)
Lemma skipped_generation_example :
  (setSlotForGeneration ∅
     (KVCacheManagerInterceptor helpfulServer "impersonate" patientWorld).2).1
  = {["id_slot" := JsNumber 0]}.
Proof.
  destruct (skipped_generation_keeps_the_last_slot helpfulServer "impersonate" ∅
              patientWorld (or_introl eq_refl)) as [_ Hset].
  rewrite Hset. reflexivity.
Defined.

